(** * Campus navigator: graph search core

    A shallow embedding of the routing core of the campus navigator:

    - the breadth-first solver [findPath] of the SVG navigation script,
      which walks the block/road adjacency object [campusGraph];
    - the nearest-node scan [findNearestNode] of the same script;
    - the reverse-route generator [generateReverseRoutes] of the data file;
    - the weighted solver [findShortestPath] of [src/lib/pathfinding.ts]
      with its helper [buildAdjacencyList];
    - the route handler [handleNavigate] of the index page;
    - the grouping of selectable locations in the [useGraph] hook;
    - the session handlers [selectDestination], [updateUserLocation],
      [clearNavigation] and [showRoute] of the SVG navigation script.

    JavaScript objects and [Map]s that are only read by key are finite maps
    ([gmap string _]); objects whose enumeration order is observed
    ([Object.entries]) are lists of key/value pairs in insertion order.
    The reads of [campusGraph] in [findPath] also see the names every
    object inherits ([neighborsOf]).
    Loops carry an explicit fuel; every entry point supplies enough of it,
    and that this is enough is proved, not assumed. *)

From stdpp Require Import gmap strings list fin_maps sets relations sorting.
From Stdlib Require Import ZArith Ascii.

Set Warnings "-clear-no-such-hyp".

Open Scope string_scope.
Open Scope list_scope.
Open Scope nat_scope.

(** ** Outcomes of a call *)

(** A call either runs out of the fuel it was given, throws, or returns. *)
Inductive outcome (A : Type) : Type :=
  | OutOfFuel
  | Threw (msg : string)
  | Returned (a : A).
Arguments OutOfFuel {A}.
Arguments Threw {A} msg.
Arguments Returned {A} a.

(** What a call leaves behind: its outcome and the lines it wrote to the
    console ([console.warn], [console.error]), oldest first. *)
Record run (A : Type) : Type := Run {
  result : outcome A;
  console : list string
}.
Arguments Run {A} result console.
Arguments result {A} r.
Arguments console {A} r.

(** JavaScript numbers as far as the solvers use them: finite values and
    [Infinity].  Weights and distances are read as integers.  On integers
    the double-precision [<] is exact, and so is [+] as long as the sum
    stays within 2^53 in absolute value; beyond that the program rounds,
    and near 2^1024 it overflows to [Infinity], which this arithmetic
    does not.  What depends on sums is therefore stated for graphs with
    [safeWeights], where no sum leaves that range. *)
Inductive num : Type :=
  | Fin (z : Z)
  | Infinity.

Definition num_add (a : num) (w : Z) : num :=
  match a with
  | Fin z => Fin (z + w)
  | Infinity => Infinity
  end.

(** [a < b] *)
Definition num_ltb (a b : num) : bool :=
  match a, b with
  | Fin x, Fin y => (x <? y)%Z
  | Fin _, Infinity => true
  | Infinity, _ => false
  end.

(** [a - b <= 0] as a sort comparator sees it; [Infinity - Infinity] is
    [NaN], which a comparator treats as equal. *)
Definition num_leb (a b : num) : bool :=
  match a, b with
  | Fin x, Fin y => (x <=? y)%Z
  | Fin _, Infinity => true
  | Infinity, Fin _ => false
  | Infinity, Infinity => true
  end.

(** ** The SVG navigation script *)

Module Navigation.

(** [campusGraph]: block id -> { neighbour block id -> road ids }.  The
    outer object is only indexed; its own properties are a finite map.
    The inner one is enumerated with [Object.entries], so it is a list in
    insertion order (block ids are not array indices, which would be
    enumerated first). *)
Abbreviation Neighbors := (list (string * list string)).
Abbreviation CampusGraph := (gmap string Neighbors).

(** The names every object inherits from [Object.prototype].  Read on an
    object that has no property of its own under that name, each gives a
    function (and [__proto__] the prototype itself): a value that counts
    as true and has no enumerable property of its own. *)
Definition objectPrototypeNames : list string :=
  [ "constructor"; "hasOwnProperty"; "isPrototypeOf"; "propertyIsEnumerable";
    "toLocaleString"; "toString"; "valueOf"; "__proto__";
    "__defineGetter__"; "__defineSetter__";
    "__lookupGetter__"; "__lookupSetter__" ].

(** [campusGraph[id]] as [findPath] uses it: [None] when the read gives
    [undefined], and otherwise the [Object.entries] of the value read,
    which are none for an inherited value. *)
Definition neighborsOf (campusGraph : CampusGraph) (id : string)
    : option Neighbors :=
  match campusGraph !! id with
  | Some neighbors => Some neighbors
  | None => if decide (id ∈ objectPrototypeNames) then Some [] else None
  end.

(** The object [findPath] returns. *)
Record PathInfo : Type := {
  roads : list string;
  nodes : list string
}.

(** A queue entry [[current_node_id, road_segments, nodes_visited]]. *)
Record QItem : Type := {
  q_node : string;
  q_path : list string;
  q_nodes : list string
}.

(** The [for (const [neighborId, roads] of Object.entries(neighbors))] loop:
    every neighbour not yet in [visited] is marked and queued with the
    extended road and node lists. *)
Fixpoint visitNeighbors (entries : Neighbors) (path visitedNodes : list string)
    (visited : gset string) (queue : list QItem) : gset string * list QItem :=
  match entries with
  | [] => (visited, queue)
  | (neighborId, rds) :: rest =>
      if decide (neighborId ∈ visited)
      then visitNeighbors rest path visitedNodes visited queue
      else visitNeighbors rest path visitedNodes ({[neighborId]} ∪ visited)
             (queue ++ [{| q_node := neighborId;
                           q_path := path ++ rds;
                           q_nodes := visitedNodes ++ [neighborId] |}])
  end.

(** The [while (queue.length > 0)] loop; one unit of fuel per iteration. *)
Fixpoint bfsLoop (fuel : nat) (campusGraph : CampusGraph) (endSvgId : string)
    (queue : list QItem) (visited : gset string) : outcome (option PathInfo) :=
  match queue with
  | [] => Returned None
  | item :: queue' =>
      match fuel with
      | O => OutOfFuel
      | S fuel' =>
          if decide (q_node item = endSvgId)
          then Returned (Some {| roads := q_path item; nodes := q_nodes item |})
          else
            match neighborsOf campusGraph (q_node item) with
            | None => bfsLoop fuel' campusGraph endSvgId queue' visited
            | Some neighbors =>
                let '(visited', queue'') :=
                  visitNeighbors neighbors (q_path item) (q_nodes item)
                    visited queue' in
                bfsLoop fuel' campusGraph endSvgId queue'' visited'
            end
      end
  end.

(** [findPath] with the fuel of its loop left open. *)
Definition findPathFuel (fuel : nat) (campusGraph : CampusGraph)
    (startSvgId endSvgId : string) : run (option PathInfo) :=
  if decide (startSvgId = endSvgId)
  then Run (Returned (Some {| roads := []; nodes := [startSvgId] |})) []
  else
    match neighborsOf campusGraph startSvgId with
    | None => Run (Returned None) ["Node not in graph: " +:+ startSvgId]
    | Some _ =>
        Run (bfsLoop fuel campusGraph endSvgId
               [{| q_node := startSvgId; q_path := []; q_nodes := [startSvgId] |}]
               {[startSvgId]})
            []
    end.

(** Every block id that occurs as a neighbour somewhere in the graph. *)
Definition neighborIds (campusGraph : CampusGraph) : gset string :=
  ⋃ ((λ kv : string * Neighbors, list_to_set (kv.2.*1)) <$> map_to_list campusGraph).

(** Each iteration either shortens the queue or marks a new neighbour id,
    so this many iterations are never exceeded. *)
Definition bfsFuel (campusGraph : CampusGraph) : nat :=
  S (size (neighborIds campusGraph)).

Definition findPath (campusGraph : CampusGraph)
    (startSvgId endSvgId : string) : run (option PathInfo) :=
  findPathFuel (bfsFuel campusGraph) campusGraph startSvgId endSvgId.

(** *** Nearest node *)

(** [haversineDistance] is floating-point trigonometry; the scan below only
    compares its results, so the number type, [Infinity], [<] and the
    distance function are taken as they come. *)
Section NearestNode.
Context {number : Type}.
Variable infinity : number.
Variable lt : number → number → bool.
Variable haversineDistance : number → number → number → number → number.

(** An entry of [campusNodes]. *)
Record CampusNode : Type := {
  name : string;
  lat : number;
  lng : number;
  svgId : string;
  type : string
}.

(** The object [findNearestNode] returns; [null] is [None]. *)
Record Nearest : Type := {
  nodeId : option string;
  node : option CampusNode;
  distance : number
}.

(** The [for (const [nodeId, node] of Object.entries(campusNodes))] loop
    over the locals [nearest], [minDistance], [nearestId]. *)
Fixpoint scanNodes (entries : list (string * CampusNode)) (lat0 lng0 : number)
    (nearest : option CampusNode) (minDistance : number)
    (nearestId : option string) : Nearest :=
  match entries with
  | [] => {| nodeId := nearestId; node := nearest; distance := minDistance |}
  | (nId, n) :: rest =>
      let d := haversineDistance lat0 lng0 (lat n) (lng n) in
      if lt d minDistance
      then scanNodes rest lat0 lng0 (Some n) d (Some nId)
      else scanNodes rest lat0 lng0 nearest minDistance nearestId
  end.

Definition findNearestNode (campusNodes : list (string * CampusNode))
    (lat0 lng0 : number) : Nearest :=
  scanNodes campusNodes lat0 lng0 None infinity None.
End NearestNode.

End Navigation.

(** ** The campus data file *)

Module CampusData.

(** A JavaScript object whose keys are enumerated: its entries in insertion
    order, every key once. *)
Definition Obj (V : Type) : Type := list (string * V).

(** [o[k]] *)
Fixpoint objGet {V : Type} (o : Obj V) (k : string) : option V :=
  match o with
  | [] => None
  | (k', v) :: rest => if decide (k' = k) then Some v else objGet rest k
  end.

(** [o[k] = v]: an existing key keeps its place, a new one goes last. *)
Fixpoint objSet {V : Type} (o : Obj V) (k : string) (v : V) : Obj V :=
  match o with
  | [] => [(k, v)]
  | (k', v') :: rest =>
      if decide (k' = k) then (k, v) :: rest else (k', v') :: objSet rest k v
  end.

(** [Object.assign(target, source)] *)
Definition objAssign {V : Type} (target source : Obj V) : Obj V :=
  foldl (λ o kv, objSet o kv.1 kv.2) target source.

(** [key.split("->")], with the piece being read in [acc]. *)
Fixpoint splitArrow (key : string) (acc : string) : list string :=
  match key with
  | EmptyString => [acc]
  | String "-"%char (String ">"%char rest) => acc :: splitArrow rest ""
  | String c rest => splitArrow rest (acc +:+ String c "")
  end.

(** [const [from, to] = key.split("->"); `${to}->${from}`]; a missing
    piece is [undefined] and prints as such. *)
Definition reverseKeyOf (key : string) : string :=
  let parts := splitArrow key "" in
  let from := default "undefined" (parts !! 0%nat) in
  let to := default "undefined" (parts !! 1%nat) in
  to +:+ "->" +:+ from.

(** The loop of [generateReverseRoutes] over the entries of
    [predefinedRoutes], filling the local [reverseRoutes]. *)
Fixpoint reverseRoutesLoop (entries : Obj (list string))
    (predefinedRoutes reverseRoutes : Obj (list string)) : Obj (list string) :=
  match entries with
  | [] => reverseRoutes
  | (key, roads) :: rest =>
      let reverseKey := reverseKeyOf key in
      match objGet predefinedRoutes reverseKey with
      | Some _ => reverseRoutesLoop rest predefinedRoutes reverseRoutes
      | None =>
          reverseRoutesLoop rest predefinedRoutes
            (objSet reverseRoutes reverseKey (rev roads))
      end
  end.

(** [generateReverseRoutes], as a function of the table it updates. *)
Definition generateReverseRoutes (predefinedRoutes : Obj (list string))
    : Obj (list string) :=
  objAssign predefinedRoutes
    (reverseRoutesLoop predefinedRoutes predefinedRoutes []).

(** The literal [predefinedRoutes]. *)
Definition predefinedRoutes : Obj (list string) :=
  [ ("main_gate->admin",
      ["road_gate_to_admin"]);
    ("main_gate->library",
      ["road_gate_to_admin"; "road_admin_to_library"]);
    ("main_gate->gazebo",
      ["road_gate_to_admin"; "road_admin_to_library"; "road_library_to_gazebo"]);
    ("main_gate->ab3",
      ["road_gate_to_admin"; "road_admin_to_library"; "road_library_to_gazebo"; "road_gazebo_to_ab3"]);
    ("main_gate->guest_house",
      ["road_gate_to_admin"; "road_to_guest_house"]);
    ("library->gazebo",
      ["road_library_to_gazebo"]);
    ("library->ab3",
      ["road_library_to_gazebo"; "road_gazebo_to_ab3"]);
    ("library->north_square",
      ["road_library_to_gazebo"; "road_gazebo_to_ab3"; "road_ab3_curve"]);
    ("gazebo->ab3",
      ["road_gazebo_to_ab3"]);
    ("gazebo->north_square",
      ["road_gazebo_to_ab3"; "road_ab3_curve"]);
    ("ab3->north_square",
      ["road_ab3_curve"]);
    ("ab3->ab1",
      ["road_ab3_to_north_square"; "road_to_ab1"]);
    ("ab3->ab5",
      ["road_ab3_to_north_square"; "road_to_ab5"]);
    ("ab1->ab2_north",
      ["road_to_ab1"; "road_ab2_connector_north"]);
    ("ab1->ab2_south",
      ["road_to_ab1"; "road_ab2_connector_north"; "road_ab2_connector_south"]);
    ("ab1->ab5",
      ["road_to_ab1"; "road_to_ab5"]);
    ("north_square->ab1",
      ["road_ab3_to_north_square"; "road_to_ab1"]);
    ("north_square->ab5",
      ["road_ab3_to_north_square"; "road_to_ab5"]);
    ("north_square->e_hostel",
      ["road_east_diagonal"]);
    ("north_square->health_centre",
      ["road_to_health_centre"]);
    ("ab2_north->ab5",
      ["road_ab2_connector_south"; "road_to_ab5"]);
    ("north_square->b_hostel",
      ["road_to_health_centre"; "road_central_junction"]);
    ("north_square->c_hostel",
      ["road_to_health_centre"; "road_central_junction"]);
    ("main_gate->ab1",
      ["road_gate_to_admin"; "road_admin_to_library"; "road_library_to_gazebo"; "road_gazebo_to_ab3"; "road_ab3_curve"; "road_ab3_to_north_square"; "road_to_ab1"]);
    ("main_gate->health_centre",
      ["road_entrance_to_library"; "road_library_junction_east"; "road_central_junction"; "road_to_health_centre"]) ].

(** The table after [generateReverseRoutes()] has run on load. *)
Definition loadedRoutes : Obj (list string) :=
  generateReverseRoutes predefinedRoutes.

(** The literal [campusGraph], entry by entry. *)
Definition campusGraphEntries : list (string * Navigation.Neighbors) :=
  [ ("block_main_gate",
      [ ("block_admin", ["road_gate_to_admin"]) ]);
    ("block_admin",
      [ ("block_main_gate", ["road_gate_to_admin"]);
        ("block_library", ["road_admin_to_library"]);
        ("block_guest_house", ["road_to_guest_house"]) ]);
    ("block_guest_house",
      [ ("block_admin", ["road_to_guest_house"]) ]);
    ("block_library",
      [ ("block_admin", ["road_admin_to_library"]);
        ("block_gazebo", ["road_library_to_gazebo"]) ]);
    ("block_gazebo",
      [ ("block_library", ["road_library_to_gazebo"]);
        ("block_ab3", ["road_gazebo_to_ab3"]) ]);
    ("block_ab3",
      [ ("block_gazebo", ["road_gazebo_to_ab3"]);
        ("block_north_square", ["road_ab3_curve"]) ]);
    ("block_north_square",
      [ ("block_ab3", ["road_ab3_curve"]);
        ("block_ab1", ["road_ab3_to_north_square"; "road_aavin_to_ab2"]);
        ("block_health_centre", ["road_health_to_bblock"]);
        ("block_e_hostel", ["road_aavin"]);
        ("block_dominos", ["road_aavin"]);
        ("block_vmart", ["road_aavin_to_ab2"]);
        ("block_sigma", ["road_aavin_to_ab2"]) ]);
    ("block_ab1",
      [ ("block_north_square", ["road_aavin_to_ab2"; "road_ab3_to_north_square"]);
        ("block_dominos", ["road_aavin_to_ab2"; "road_aavin"]);
        ("block_ab2_north", ["road_ab2_connector_north"]) ]);
    ("block_dominos",
      [ ("block_north_square", ["road_aavin"]);
        ("block_ab1", ["road_aavin"; "road_aavin_to_ab2"]);
        ("block_e_hostel", ["road_aavin"; "road_gazebo_to_ab5"]);
        ("block_health_centre", ["road_aavin"; "road_health_to_bblock"]) ]);
    ("block_e_hostel",
      [ ("block_dominos", ["road_gazebo_to_ab5"; "road_aavin"]);
        ("block_north_square", ["road_aavin"; "road_ab3_to_north_square"]) ]);
    ("block_ab5",
      [ ("block_health_centre", ["road_health_to_bblock"]) ]);
    ("block_health_centre",
      [ ("block_north_square", ["road_health_to_bblock"]);
        ("block_dominos", ["road_health_to_bblock"; "road_aavin"]);
        ("block_b_hostel", ["road_central_junction"; "road_health_to_bblock"]);
        ("block_ab5", ["road_health_to_bblock"]) ]);
    ("block_ab2_north",
      [ ("block_ab1", ["road_ab2_connector_north"]);
        ("block_ab2_south", ["road_bblock_to_cblock"]) ]);
    ("block_ab2_south",
      [ ("block_ab2_north", ["road_bblock_to_cblock"]);
        ("block_e_hostel", ["road_to_ab5"]) ]);
    ("block_b_hostel",
      [ ("block_health_centre", ["road_central_junction"]) ]);
    ("block_c_hostel",
      [ ("block_health_centre", ["road_central_junction"]) ]);
    ("block_d1_hostel",
      [ ("block_health_centre", ["road_central_junction"]) ]);
    ("block_d2_hostel",
      [ ("block_health_centre", ["road_central_junction"]) ]);
    ("block_vmart",
      [ ("block_north_square", ["road_aavin_to_ab2"]) ]);
    ("block_sigma",
      [ ("block_north_square", ["road_aavin_to_ab2"]) ]) ].

Definition campusGraph : Navigation.CampusGraph :=
  list_to_map campusGraphEntries.

End CampusData.

(** ** The weighted solver, [src/lib/pathfinding.ts] *)

Module Pathfinding.

Inductive NodeType : Type :=
  | building | academic | food | sports | service | landmark | junction
  | auditorium.

Record GraphNode : Type := {
  id : string;
  name : string;
  x : Z;
  y : Z;
  type : NodeType;
  floor : option string;
  facts : option (list string);
  blockId : option string
}.

Record GraphEdge : Type := {
  from : string;
  to : string;
  weight : Z
}.

Record Graph : Type := {
  nodes : list GraphNode;
  edges : list GraphEdge
}.

Record Point : Type := { px : Z; py : Z }.

Record PathResult : Type := {
  path : list string;
  coordinates : list Point
}.

(** An adjacency entry [{ node, weight }]. *)
Record Adj : Type := { node : string; adj_weight : Z }.

(** A queue entry [{ node, distance }]. *)
Record QEntry : Type := { qnode : string; distance : num }.

(** [if (!adjacency.has(k)) adjacency.set(k, []); adjacency.get(k).push(v)] *)
Definition pushAdj (adjacency : gmap string (list Adj)) (k : string) (v : Adj)
    : gmap string (list Adj) :=
  <[k := default [] (adjacency !! k) ++ [v]]> adjacency.

(** The body of [buildAdjacencyList], from a given accumulator. *)
Fixpoint buildAdjacencyFrom (es : list GraphEdge)
    (adjacency : gmap string (list Adj)) : gmap string (list Adj) :=
  match es with
  | [] => adjacency
  | edge :: rest =>
      let adjacency1 :=
        pushAdj adjacency (from edge)
          {| node := to edge; adj_weight := weight edge |} in
      let adjacency2 :=
        pushAdj adjacency1 (to edge)
          {| node := from edge; adj_weight := weight edge |} in
      buildAdjacencyFrom rest adjacency2
  end.

Definition buildAdjacencyList (es : list GraphEdge) : gmap string (list Adj) :=
  buildAdjacencyFrom es ∅.

(** [new Map(nodes.map(n => [n.id, n]))]: a later node replaces an earlier
    one with the same id. *)
Definition nodeMapOf (ns : list GraphNode) : gmap string GraphNode :=
  foldl (λ m n, <[id n := n]> m) ∅ ns.

(** [queue.sort((a, b) => a.distance - b.distance)]: the sort is stable, so
    its result is the one insertion sort gives. *)
Fixpoint insertSorted (e : QEntry) (q : list QEntry) : list QEntry :=
  match q with
  | [] => [e]
  | e' :: q' =>
      if num_leb (distance e) (distance e')
      then e :: e' :: q'
      else e' :: insertSorted e q'
  end.

Fixpoint sortQueue (q : list QEntry) : list QEntry :=
  match q with
  | [] => []
  | e :: q' => insertSorted e (sortQueue q')
  end.

(** The mutable state of the main loop.  [visited] is the [Set], most
    recently added id first. *)
Record State : Type := {
  distances : gmap string num;
  previous : gmap string (option string);
  visited : list string;
  queue : list QEntry
}.

(** The [for (const neighbor of neighbors)] loop of one iteration.
    [distances.get(k)!] of an absent key is [undefined], which makes the
    sum [NaN] or the comparison false: nothing is updated then. *)
Fixpoint relax (neighbors : list Adj) (current : string) (vis : list string)
    (ds : gmap string num) (prev : gmap string (option string))
    (q : list QEntry)
    : gmap string num * gmap string (option string) * list QEntry :=
  match neighbors with
  | [] => (ds, prev, q)
  | neighbor :: rest =>
      if decide (node neighbor ∈ vis) then relax rest current vis ds prev q
      else
        match ds !! current, ds !! node neighbor with
        | Some dc, Some dn =>
            let newDistance := num_add dc (adj_weight neighbor) in
            if num_ltb newDistance dn
            then relax rest current vis
                   (<[node neighbor := newDistance]> ds)
                   (<[node neighbor := Some current]> prev)
                   (q ++ [{| qnode := node neighbor; distance := newDistance |}])
            else relax rest current vis ds prev q
        | _, _ => relax rest current vis ds prev q
        end
  end.

(** The main [while (queue.length > 0)] loop; [None] when the fuel is
    spent before the loop ends. *)
Fixpoint dijkstraLoop (fuel : nat) (adjacency : gmap string (list Adj))
    (endId : string) (st : State) : option State :=
  match queue st with
  | [] => Some st
  | _ :: _ =>
      match fuel with
      | O => None
      | S fuel' =>
          match sortQueue (queue st) with
          | [] => Some st
          | current :: rest =>
              if decide (qnode current ∈ visited st)
              then dijkstraLoop fuel' adjacency endId
                     {| distances := distances st; previous := previous st;
                        visited := visited st; queue := rest |}
              else
                let vis := qnode current :: visited st in
                if decide (qnode current = endId)
                then Some {| distances := distances st; previous := previous st;
                             visited := vis; queue := rest |}
                else
                  let neighbors := default [] (adjacency !! qnode current) in
                  let '(ds, prev, q) :=
                    relax neighbors (qnode current) vis
                      (distances st) (previous st) rest in
                  dijkstraLoop fuel' adjacency endId
                    {| distances := ds; previous := prev;
                       visited := vis; queue := q |}
          end
      end
  end.

(** The path reconstruction loop:
    [while (currentNode !== null) { path.unshift(currentNode);
       currentNode = previous.get(currentNode) ?? null; }] *)
Fixpoint reconstruct (fuel : nat) (prev : gmap string (option string))
    (currentNode : option string) (acc : list string) : option (list string) :=
  match currentNode with
  | None => Some acc
  | Some c =>
      match fuel with
      | O => None
      | S fuel' => reconstruct fuel' prev (default None (prev !! c)) (c :: acc)
      end
  end.

(** [path.map(nodeId => { const node = nodeMap.get(nodeId)!;
       return { x: node.x, y: node.y }; })]; reading [x] of an absent node
    throws. *)
Fixpoint coordinatesOf (nodeMap : gmap string GraphNode) (p : list string)
    : option (list Point) :=
  match p with
  | [] => Some []
  | nodeId :: rest =>
      match nodeMap !! nodeId with
      | None => None
      | Some n =>
          match coordinatesOf nodeMap rest with
          | None => None
          | Some cs => Some ({| px := x n; py := y n |} :: cs)
          end
      end
  end.

(** The state before the main loop: every declared id at distance
    [Infinity] with no predecessor, the start at distance 0 and queued. *)
Definition initialState (ns : list GraphNode) (startId : string) : State :=
  {| distances :=
       <[startId := Fin 0]> (foldl (λ m n, <[id n := Infinity]> m) ∅ ns);
     previous := foldl (λ m n, <[id n := None]> m) ∅ ns;
     visited := [];
     queue := [{| qnode := startId; distance := Fin 0 |}] |}.

(** [findShortestPath] with the fuel of its two loops left open. *)
Definition findShortestPathFuel (fuel1 fuel2 : nat) (graph : Graph)
    (startId endId : string) : run (option PathResult) :=
  let nodeMap := nodeMapOf (nodes graph) in
  if decide (is_Some (nodeMap !! startId) ∧ is_Some (nodeMap !! endId)) then
    let adjacency := buildAdjacencyList (edges graph) in
    match dijkstraLoop fuel1 adjacency endId
            (initialState (nodes graph) startId) with
    | None => Run OutOfFuel []
    | Some st =>
        match reconstruct fuel2 (previous st) (Some endId) [] with
        | None => Run OutOfFuel []
        | Some p =>
            if decide (head p = Some startId) then
              match coordinatesOf nodeMap p with
              | None =>
                  Run (Threw "TypeError: Cannot read properties of undefined") []
              | Some cs => Run (Returned (Some {| path := p; coordinates := cs |})) []
              end
            else Run (Returned None) ["No path found between nodes"]
        end
    end
  else Run (Returned None) ["Invalid start or end node"].

(** Every pop either discards a queue entry or visits a new node, and a
    newly visited node queues at most one entry per adjacency entry; there
    are two adjacency entries per edge. *)
Definition dijkstraFuel (graph : Graph) : nat := S (2 * length (edges graph)).

(** The reconstructed path holds the end node and visited nodes, each once. *)
Definition reconstructFuel (graph : Graph) : nat := S (length (nodes graph)).

Definition findShortestPath (graph : Graph) (startId endId : string)
    : run (option PathResult) :=
  findShortestPathFuel (dijkstraFuel graph) (reconstructFuel graph)
    graph startId endId.

End Pathfinding.

(** ** The index page: [handleNavigate] *)

Module IndexPage.
Import Pathfinding.

(** The React state of the page. *)
Record PageState : Type := {
  pathResult : option PathResult;
  isCalculating : bool;
  navigationError : option string;
  selectedStart : option GraphNode;
  selectedEnd : option GraphNode
}.

(** [graph.nodes.find(n => n.id === nodeId)] *)
Definition findNode (ns : list GraphNode) (nodeId : string) : option GraphNode :=
  List.find (λ n, bool_decide (id n = nodeId)) ns.

(** A string used as a condition is true unless absent or empty. *)
Definition truthy (s : option string) : bool :=
  match s with
  | Some s' => negb (bool_decide (s' = ""))
  | None => false
  end.

Definition alreadyThereMessage (startNode : GraphNode) : string :=
  "Bruh, you're already at " +:+ name startNode.

Definition sameBuildingMessage (endNode : GraphNode) : string :=
  let floorInfo :=
    if truthy (floor endNode)
    then "just in the " +:+ default "" (floor endNode)
    else "it's just on a different floor" in
  "Hey, it's in the same building that you're in, " +:+ floorInfo.

(** The three tests of the same-block check. *)
Definition isStartInBlock (startNode : GraphNode) (endId : string) : bool :=
  bool_decide (blockId startNode = Some endId).
Definition isEndInBlock (endNode : GraphNode) (startId : string) : bool :=
  bool_decide (blockId endNode = Some startId).
Definition areInSameBlock (startNode endNode : GraphNode) : bool :=
  truthy (blockId startNode) && truthy (blockId endNode)
  && bool_decide (blockId startNode = blockId endNode).

(** [handleNavigate], run to the end of its timer callback, with the solver
    it calls as a parameter.  The state setters of the synchronous part
    ([setIsCalculating(true)], [setNavigationError(null)]) come first; an
    exception or a solver that does not return leaves the state there. *)
Definition handleNavigateWith
    (solver : Graph → string → string → run (option PathResult))
    (graph : option Graph) (st : PageState) (startId endId : string)
    : run PageState :=
  match graph with
  | None => Run (Returned st) []
  | Some g =>
      let st1 := {| pathResult := pathResult st; isCalculating := true;
                    navigationError := None;
                    selectedStart := selectedStart st;
                    selectedEnd := selectedEnd st |} in
      match findNode (nodes g) startId, findNode (nodes g) endId with
      | Some startNode, Some endNode =>
          if decide (startId = endId) then
            Run (Returned {| pathResult := pathResult st1;
                             isCalculating := false;
                             navigationError := Some (alreadyThereMessage startNode);
                             selectedStart := selectedStart st1;
                             selectedEnd := selectedEnd st1 |}) []
          else if isStartInBlock startNode endId
                  || isEndInBlock endNode startId
                  || areInSameBlock startNode endNode then
            Run (Returned {| pathResult := None;
                             isCalculating := false;
                             navigationError := Some (sameBuildingMessage endNode);
                             selectedStart := Some startNode;
                             selectedEnd := Some endNode |}) []
          else
            let r := solver g startId endId in
            match result r with
            | OutOfFuel => Run OutOfFuel (console r)
            | Threw msg => Run (Threw msg) (console r)
            | Returned (Some p) =>
                Run (Returned {| pathResult := Some p;
                                 isCalculating := false;
                                 navigationError := navigationError st1;
                                 selectedStart := Some startNode;
                                 selectedEnd := Some endNode |}) (console r)
            | Returned None =>
                Run (Returned {| pathResult := pathResult st1;
                                 isCalculating := false;
                                 navigationError :=
                                   Some "No path found between these locations";
                                 selectedStart := selectedStart st1;
                                 selectedEnd := selectedEnd st1 |}) (console r)
            end
      | _, _ => Run (Returned st1) []
      end
  end.

Definition handleNavigate : option Graph → PageState → string → string
    → run PageState :=
  handleNavigateWith findShortestPath.

End IndexPage.
(** ** The graph hook: locations offered for selection *)

Module UseGraph.
Import Pathfinding CampusData.

(** The string a node type is written as in the graph data. *)
Definition typeName (t : NodeType) : string :=
  match t with
  | building => "building"
  | academic => "academic"
  | food => "food"
  | sports => "sports"
  | service => "service"
  | landmark => "landmark"
  | junction => "junction"
  | auditorium => "auditorium"
  end.

(** [graph?.nodes.filter(node => node.type !== 'junction') || []] *)
Definition locations (graph : option Graph) : list GraphNode :=
  match graph with
  | None => []
  | Some g => filter (λ n, typeName (type n) ≠ "junction") (nodes g)
  end.

(** The body of the [reduce]:
    [if (!acc[node.type]) acc[node.type] = []; acc[node.type].push(node)] *)
Definition groupStep (acc : Obj (list GraphNode)) (n : GraphNode)
    : Obj (list GraphNode) :=
  let k := typeName (type n) in
  let acc1 := match objGet acc k with
              | None => objSet acc k []
              | Some _ => acc
              end in
  objSet acc1 k (default [] (objGet acc1 k) ++ [n]).

Definition locationsByType (graph : option Graph) : Obj (list GraphNode) :=
  foldl groupStep [] (locations graph).

End UseGraph.

(** ** The navigation session of the SVG script

    The handlers [selectDestination], [updateUserLocation] and
    [clearNavigation], and [showRoute] which the first two call, over
    the script's three variables.  A read [campusNodes[id]] finds the
    entry the table holds under the id; for the ids the page passes, the
    keys of the table, that is all there is to find. *)

Module Session.
Import Navigation CampusData.

(** [currentLocationNode], [selectedDestination], [activeRoute]. *)
Record Vars : Type := {
  currentLocationNode : option string;
  selectedDestination : option string;
  activeRoute : list string
}.

(** The variables when the script is loaded. *)
Definition initialVars : Vars :=
  {| currentLocationNode := None; selectedDestination := None;
     activeRoute := [] |}.

(** A [null] used as a property key reads as the string [null]. *)
Definition keyOf (k : option string) : string := default "null" k.

Section Handlers.
Context {number : Type}.
Variable infinity : number.
Variable lt : number → number → bool.
Variable haversineDistance : number → number → number → number → number.
Variable campusNodes : Obj (@CampusNode number).
Variable campusGraph : CampusGraph.

(** What a handler does besides updating the variables, in order: the
    lines it writes to the console itself, and its calls of the helpers
    that touch the document, with their arguments.  Those helpers look an
    element up and skip it when the page lacks it; what they do to the
    page, and what they log about it, is outside this model. *)
Inductive Effect : Type :=
  | ConsoleLine (line : string)
  (* [console.log(`Nearest node: ${node.name} (${Math.round(distance)}m away)`)] *)
  | NearestLogged (nodeName : string) (meters : number)
  | HighlightBlock (blockId highlightType : string)
  | UnhighlightBlock (blockId : string)
  | HighlightRoads (roadIds : list string)
  | ClearRoadHighlights
  | ClearAllHighlights
  | ShowNotification (message kind : string)
  | UpdateDirectionsPanel (nodeSvgIds : list string)
  | UpdateLocationDisplay (nodeName : string) (meters : number).

(** A handler runs on the variables and leaves its outcome, the
    variables as they are then, and its effects, oldest first.  A throw
    ends the handler where it happens. *)
Definition Handler (A : Type) : Type :=
  Vars → outcome A * Vars * list Effect.

#[export] Instance handler_ret : MRet Handler :=
  λ A a vs, (Returned a, vs, []).

#[export] Instance handler_bind : MBind Handler :=
  λ A B f m vs,
    match m vs with
    | (Returned a, vs1, es1) =>
        let '(r, vs2, es2) := f a vs1 in (r, vs2, es1 ++ es2)
    | (Threw msg, vs1, es1) => (Threw msg, vs1, es1)
    | (OutOfFuel, vs1, es1) => (OutOfFuel, vs1, es1)
    end.

Definition effect (e : Effect) : Handler unit :=
  λ vs, (Returned tt, vs, [e]).

Definition throw {A : Type} (msg : string) : Handler A :=
  λ vs, (Threw msg, vs, []).

Definition getVars : Handler Vars := λ vs, (Returned vs, vs, []).

Definition setCurrentLocationNode (v : option string) : Handler unit :=
  λ vs, (Returned tt,
         {| currentLocationNode := v;
            selectedDestination := selectedDestination vs;
            activeRoute := activeRoute vs |}, []).

Definition setSelectedDestination (v : option string) : Handler unit :=
  λ vs, (Returned tt,
         {| currentLocationNode := currentLocationNode vs;
            selectedDestination := v;
            activeRoute := activeRoute vs |}, []).

Definition setActiveRoute (v : list string) : Handler unit :=
  λ vs, (Returned tt,
         {| currentLocationNode := currentLocationNode vs;
            selectedDestination := selectedDestination vs;
            activeRoute := v |}, []).

Definition when (b : bool) (m : Handler unit) : Handler unit :=
  if b then m else mret tt.

(** A call of [findPath]: its console lines are written, its outcome is
    passed on. *)
Definition call {A : Type} (r : run A) : Handler A :=
  λ vs, (result r, vs, ConsoleLine <$> console r).

(** [campusNodes[k]], about to be read a property of: on a missing
    entry that read throws. *)
Definition entryOf (k : option string) : Handler (@CampusNode number) :=
  match objGet campusNodes (keyOf k) with
  | Some n => mret n
  | None => throw "TypeError: Cannot read properties of undefined"
  end.

(** [node], about to be read a property of. *)
Definition nonNull (n : option (@CampusNode number))
    : Handler (@CampusNode number) :=
  match n with
  | Some n' => mret n'
  | None => throw "TypeError: Cannot read properties of null"
  end.

(** [showRoute(fromNodeId, toNodeId)]: both entries are looked up, the
    path is searched between their blocks, and only a path found touches
    the variables. *)
Definition showRoute (fromNodeId toNodeId : string) : Handler bool :=
  match objGet campusNodes fromNodeId, objGet campusNodes toNodeId with
  | Some fromNode, Some toNode =>
      found ← call (findPath campusGraph (svgId fromNode) (svgId toNode));
      match found with
      | None =>
          effect (ConsoleLine ("No path found from " +:+ name fromNode
                               +:+ " to " +:+ name toNode));;
          effect (ShowNotification ("No route found to " +:+ name toNode)
                    "warning");;
          mret false
      | Some found =>
          effect ClearRoadHighlights;;
          effect (HighlightRoads (roads found));;
          setActiveRoute (roads found);;
          vs ← getVars;
          when (IndexPage.truthy (selectedDestination vs))
            (old ← entryOf (selectedDestination vs);
             effect (UnhighlightBlock (svgId old)));;
          setSelectedDestination (Some toNodeId);;
          effect (HighlightBlock (svgId toNode) "destination");;
          effect (ShowNotification
                    ("🚶 Route: " +:+ name fromNode +:+ " → " +:+ name toNode)
                    "success");;
          effect (UpdateDirectionsPanel (nodes found));;
          mret true
      end
  | _, _ =>
      effect (ConsoleLine "Invalid nodes for routing");;
      mret false
  end.

(** [clearNavigation()]; [clearAllHighlights] empties [activeRoute]. *)
Definition clearNavigation : Handler unit :=
  effect ClearAllHighlights;;
  setActiveRoute [];;
  setSelectedDestination None;;
  effect (UpdateDirectionsPanel []);;
  vs ← getVars;
  when (IndexPage.truthy (currentLocationNode vs))
    (cur ← entryOf (currentLocationNode vs);
     effect (HighlightBlock (svgId cur) "current"));;
  effect (ConsoleLine "Navigation cleared").

(** [updateUserLocation(lat, lng)]: nothing happens unless the nearest
    node differs from [currentLocationNode]; [node.svgId] and [node.name]
    are read whether or not a node was found. *)
Definition updateUserLocation (lat0 lng0 : number) : Handler unit :=
  let nearest :=
    findNearestNode infinity lt haversineDistance campusNodes lat0 lng0 in
  vs ← getVars;
  if decide (nodeId nearest ≠ currentLocationNode vs) then
    when (IndexPage.truthy (currentLocationNode vs))
      (old ← entryOf (currentLocationNode vs);
       effect (UnhighlightBlock (svgId old)));;
    setCurrentLocationNode (nodeId nearest);;
    when (bool_decide (nodeId nearest ≠ selectedDestination vs))
      (n ← nonNull (node nearest);
       effect (HighlightBlock (svgId n) "current"));;
    n ← nonNull (node nearest);
    effect (UpdateLocationDisplay (name n) (distance nearest));;
    effect (NearestLogged (name n) (distance nearest));;
    if IndexPage.truthy (selectedDestination vs)
       && bool_decide (selectedDestination vs ≠ nodeId nearest)
    then
      showRoute (keyOf (nodeId nearest)) (keyOf (selectedDestination vs));;
      mret tt
    else mret tt
  else mret tt.

(** [selectDestination(nodeId)]: an unknown id is reported; without a
    current node the destination is only marked; the current node itself
    is answered with a notice; otherwise the route is shown. *)
Definition selectDestination (nodeId : string) : Handler unit :=
  match objGet campusNodes nodeId with
  | None => effect (ConsoleLine ("Unknown destination: " +:+ nodeId))
  | Some n =>
      vs ← getVars;
      if negb (IndexPage.truthy (currentLocationNode vs)) then
        when (IndexPage.truthy (selectedDestination vs))
          (old ← entryOf (selectedDestination vs);
           effect (UnhighlightBlock (svgId old)));;
        setSelectedDestination (Some nodeId);;
        effect (HighlightBlock (svgId n) "destination");;
        effect (ShowNotification
                  ("Selected: " +:+ name n +:+ ". Waiting for GPS...") "info")
      else if decide (Some nodeId = currentLocationNode vs) then
        effect (ShowNotification
                  ("You're already at " +:+ name n +:+ "!") "info")
      else
        showRoute (keyOf (currentLocationNode vs)) nodeId;;
        mret tt
  end.

(** What the page calls: a destination picked, a position fix, the
    clear button. *)
Inductive Call : Type :=
  | SelectDestination (nodeId : string)
  | UpdateUserLocation (lat0 lng0 : number)
  | ClearNavigation.

Definition handle (c : Call) : Handler unit :=
  match c with
  | SelectDestination k => selectDestination k
  | UpdateUserLocation lat0 lng0 => updateUserLocation lat0 lng0
  | ClearNavigation => clearNavigation
  end.

(** The calls of a session, one after the other from the variables as
    loaded; a throw ends one call, not the session. *)
Fixpoint handleAll (cs : list Call) (vs : Vars)
    : list (outcome unit) * Vars * list Effect :=
  match cs with
  | [] => ([], vs, [])
  | c :: rest =>
      let '(r, vs1, es1) := handle c vs in
      let '(rs, vs2, es2) := handleAll rest vs1 in
      (r :: rs, vs2, es1 ++ es2)
  end.
End Handlers.

End Session.

(** ** Reachability in the block graph *)

Section BfsSpec.
Import Navigation.

(** [b] is listed among the neighbours of [a]. *)
Definition edge (g : CampusGraph) (a b : string) : Prop :=
  ∃ nb, g !! a = Some nb ∧ b ∈ nb.*1.

(** [b] can be reached from [a] by following neighbour entries. *)
Definition reach (g : CampusGraph) : string → string → Prop := rtc (edge g).

(** [trail g s n ns rs]: [ns] lists the blocks of a walk from [s] to [n]
    along neighbour entries, and [rs] is the concatenation, in order, of
    the road lists of the entries walked. *)
Inductive trail (g : CampusGraph) (s : string)
    : string → list string → list string → Prop :=
  | trail_start : trail g s s [s] []
  | trail_step n ns rs nb m r :
      trail g s n ns rs → g !! n = Some nb → (m, r) ∈ nb →
      trail g s m (ns ++ [m]) (rs ++ r).

(** The loop invariant of [bfsLoop]: the start is marked, every queued
    entry carries a trail to a marked block, and every marked block is
    either still queued or fully expanded (and then is not the goal). *)
Definition bfsInv (g : CampusGraph) (s e : string)
    (queue : list QItem) (visited : gset string) : Prop :=
  s ∈ visited
  ∧ (∀ it, it ∈ queue →
       q_node it ∈ visited ∧ trail g s (q_node it) (q_nodes it) (q_path it))
  ∧ (∀ v, v ∈ visited →
       v ∈ q_node <$> queue ∨ (v ≠ e ∧ ∀ w, edge g v w → w ∈ visited)).
End BfsSpec.

(** ** Connectivity in the weighted graph *)

Section DijkstraSpec.
Import Pathfinding.

(** [v] is the id of a node of the graph. *)
Definition declared (G : Graph) (v : string) : Prop := v ∈ id <$> nodes G.

(** Some edge joins [u] and [v], in either direction. *)
Definition adjacent (G : Graph) (u v : string) : Prop :=
  ∃ ed, ed ∈ edges G ∧
    ((from ed = u ∧ to ed = v) ∨ (to ed = u ∧ from ed = v)).

(** A step of a route: along an edge, to a node the graph declares. *)
Definition link (G : Graph) (u v : string) : Prop :=
  adjacent G u v ∧ declared G v.

(** The graph has a route from [a] to [b]. *)
Definition connected (G : Graph) : string → string → Prop := rtc (link G).

(** Weights for which the integer arithmetic of this model is that of the
    program: every weight is at most [W] in absolute value, and [W] times
    the number of nodes does not exceed 2^53.  The search only adds a
    weight to the distance of a visited node, reached over fewer edges
    than there are nodes, so no sum it forms leaves the range in which
    double-precision numbers hold every integer, and none is rounded or
    overflows. *)
Definition safeWeights (G : Graph) : Prop :=
  ∃ W : Z,
    (∀ ed, ed ∈ edges G → (Z.abs (weight ed) ≤ W)%Z)
    ∧ (W * Z.of_nat (length (nodes G)) ≤ 2 ^ 53)%Z.

(** Consecutive elements of [p] are joined by edges. *)
Fixpoint linked (G : Graph) (p : list string) : Prop :=
  match p with
  | a :: ((b :: _) as rest) => adjacent G a b ∧ linked G rest
  | _ => True
  end.

(** The entries [buildAdjacencyList] files under [u], in order. *)
Fixpoint adjOf (es : list GraphEdge) (u : string) : list Adj :=
  match es with
  | [] => []
  | ed :: rest =>
      (if decide (from ed = u)
       then [{| node := to ed; adj_weight := weight ed |}] else [])
      ++ (if decide (to ed = u)
          then [{| node := from ed; adj_weight := weight ed |}] else [])
      ++ adjOf rest u
  end.

(** Adjacency entries of nodes not yet visited: the entries the main
    loop may still queue. *)
Fixpoint pending (vis : list string) (es : list GraphEdge) : nat :=
  match es with
  | [] => 0
  | ed :: rest =>
      (if decide (from ed ∈ vis) then 0 else 1)
      + (if decide (to ed ∈ vis) then 0 else 1)
      + pending vis rest
  end.

Definition finiteAt (ds : gmap string num) (v : string) : Prop :=
  ∃ z, ds !! v = Some (Fin z).

(** [chain prev s vis]: [vis] lists visited nodes, latest first, down to
    the start [s]; every other node points, through [prev], to a node
    visited before it. *)
Inductive chain (prev : gmap string (option string)) (s : string)
    : list string → Prop :=
  | chain_start : default None (prev !! s) = None → chain prev s [s]
  | chain_cons v u l :
      v ∉ l → prev !! v = Some (Some u) → u ∈ l → chain prev s l →
      chain prev s (v :: l).

(** What holds of the maps and the queue throughout the main loop. *)
Definition core (G : Graph) (s : string) (vis : list string)
    (ds : gmap string num) (prev : gmap string (option string))
    (q : list QEntry) : Prop :=
  (∀ v, is_Some (ds !! v) ↔ declared G v)
  ∧ default None (prev !! s) = None
  ∧ finiteAt ds s
  ∧ (∀ it, it ∈ q →
       declared G (qnode it) ∧ finiteAt ds (qnode it)
       ∧ (qnode it = s ∨ ∃ u, prev !! qnode it = Some (Some u)))
  ∧ (∀ v u, prev !! v = Some (Some u) →
       u ∈ vis ∧ adjacent G u v ∧ declared G v ∧ finiteAt ds v)
  ∧ (∀ v, v ∈ vis → declared G v ∧ finiteAt ds v)
  ∧ (∀ w, w ∉ vis → finiteAt ds w → w ∈ qnode <$> q)
  ∧ (vis = [] ∨ chain prev s vis).

(** The invariant at the head of the main loop. *)
Definition dijkstraInv (G : Graph) (s e : string) (st : State) : Prop :=
  core G s (visited st) (distances st) (previous st) (queue st)
  ∧ (∀ v w, v ∈ visited st → link G v w →
       w ∈ visited st ∨ w ∈ qnode <$> queue st)
  ∧ e ∉ visited st.

(** What holds when the main loop has ended. *)
Definition dijkstraPost (G : Graph) (s e : string) (st : State) : Prop :=
  core G s (visited st) (distances st) (previous st) (queue st)
  ∧ (e ∈ visited st
     ∨ (queue st = [] ∧ (e ∉ visited st) ∧ ¬ connected G s e)).
End DijkstraSpec.

(** ** Worked examples and outcome states named by the claims *)

Section Examples.
Import Pathfinding IndexPage.

Definition pointOf (n : GraphNode) : Point := {| px := x n; py := y n |}.

(** The graph of the example: nodes [A], [B], [C], an edge [A]-[B] of
    weight 3 and an edge [B]-[C] of weight 4. *)
Definition lineGraph (nA nB nC : GraphNode) : Graph :=
  {| nodes := [nA; nB; nC];
     edges := [ {| from := id nA; to := id nB; weight := 3 |};
                {| from := id nB; to := id nC; weight := 4 |} ] |}.

(** The state a same-building request ends in: no path, the message, and
    both nodes selected. *)
Definition sameBuildingRun (startNode endNode : GraphNode) : run PageState :=
  Run (Returned {| pathResult := None;
                   isCalculating := false;
                   navigationError := Some (sameBuildingMessage endNode);
                   selectedStart := Some startNode;
                   selectedEnd := Some endNode |}) [].

(** The relation between two nodes under which the handler is said to
    answer "same building": one is the parent of the other, or both have
    the same parent. *)
Definition sameBuilding (A B : GraphNode) : Prop :=
  blockId B = Some (id A) ∨ blockId A = Some (id B)
  ∨ ∃ parent, blockId A = Some parent ∧ blockId B = Some parent.

(** The same, for distinct nodes and a parent id that is not empty. *)
Definition sameBuildingDistinct (A B : GraphNode) : Prop :=
  id A ≠ id B
  ∧ (blockId B = Some (id A) ∨ blockId A = Some (id B)
     ∨ ∃ parent, parent ≠ "" ∧ blockId A = Some parent
                 ∧ blockId B = Some parent).

Definition room (i blk : string) : GraphNode :=
  {| id := i; name := i; x := 0; y := 0; type := academic;
     floor := None; facts := None; blockId := Some blk |}.

Definition emptyPage : PageState :=
  {| pathResult := None; isCalculating := false; navigationError := None;
     selectedStart := None; selectedEnd := None |}.

Definition place (i : string) (a b : Z) : GraphNode :=
  {| id := i; name := i; x := a; y := b; type := building;
     floor := None; facts := None; blockId := None |}.

Definition nodeA : GraphNode := place "A" 10 20.
Definition nodeB : GraphNode := place "B" 30 40.
Definition nodeC : GraphNode := place "C" 50 60.
Definition nodeD : GraphNode := place "D" 70 80.

(** The three-node example with a fourth, isolated node. *)
Definition islandGraph : Graph :=
  {| nodes := [nodeA; nodeB; nodeC; nodeD];
     edges := [ {| from := "A"; to := "B"; weight := 3 |};
                {| from := "B"; to := "C"; weight := 4 |} ] |}.

(** A block and a lab on its first floor, joined by an edge. *)
Definition blockAB1 : GraphNode := place "AB1" 100 200.
Definition labAB1 : GraphNode :=
  {| id := "AB1-lab"; name := "Lab"; x := 100; y := 200; type := academic;
     floor := Some "First Floor"; facts := None; blockId := Some "AB1" |}.
Definition buildingGraph : Graph :=
  {| nodes := [blockAB1; labAB1];
     edges := [ {| from := "AB1"; to := "AB1-lab"; weight := 1 |} ] |}.

End Examples.

(** ** Route keys *)

Section RouteKeys.
Import CampusData.

(** No [-] occurs in [s]. *)
Fixpoint dashFree (s : string) : bool :=
  match s with
  | EmptyString => true
  | String c rest => negb (Ascii.eqb c "-") && dashFree rest
  end.

(** The key [from->to]. *)
Definition routeKey (from to : string) : string := from +:+ "->" +:+ to.

(** A route table as the data file writes it: every key once, each of the
    form [from->to] with no [-] inside the two names. *)
Definition wellFormedRoutes (routes : Obj (list string)) : Prop :=
  NoDup routes.*1
  ∧ ∀ key, key ∈ routes.*1 →
      ∃ from to, dashFree from = true ∧ dashFree to = true
                 ∧ key = routeKey from to.
End RouteKeys.

(** ** Levels of the breadth-first search *)

Section BfsLevels.
Import Navigation.

(** The bookkeeping behind "fewest hops": [depth] records, for every
    marked block, the length of the node list it was queued with.  Queue
    entries are in order of that length and differ by at most one; a block
    that has left the queue has all its neighbours marked, at most one
    level further. *)
Definition bfsLevels (g : CampusGraph) (s : string)
    (queue : list QItem) (visited : gset string)
    (depth : gmap string nat) (B : nat) : Prop :=
  (∀ v, v ∈ visited ↔ is_Some (depth !! v))
  ∧ depth !! s = Some 1
  ∧ (∀ it, it ∈ queue → depth !! q_node it = Some (length (q_nodes it)))
  ∧ StronglySorted (λ it1 it2, length (q_nodes it1) ≤ length (q_nodes it2)) queue
  ∧ (∀ it, it ∈ queue →
       length (q_nodes it) ≤ B ∧ B ≤ S (length (q_nodes it)))
  ∧ (∀ v d, depth !! v = Some d → d ≤ B)
  ∧ (∀ v d w, depth !! v = Some d → v ∉ q_node <$> queue → edge g v w →
       ∃ d', depth !! w = Some d' ∧ d' ≤ S d).
End BfsLevels.

(** ** Weighted routes *)

Section WeightedRoutes.
Import Pathfinding.

(** Some edge of weight [wt] joins [u] and [v], in either direction. *)
Definition joined (G : Graph) (u v : string) (wt : Z) : Prop :=
  ∃ ed, ed ∈ edges G ∧ weight ed = wt
        ∧ ((from ed = u ∧ to ed = v) ∨ (to ed = u ∧ from ed = v)).

(** [route G s v w]: some route from [s] to [v], along edges and through
    declared nodes, has total weight [w]. *)
Inductive route (G : Graph) (s : string) : string → Z → Prop :=
  | route_start : route G s s 0
  | route_step u v w wt :
      route G s u w → joined G u v wt → declared G v →
      route G s v (w + wt).

(** [routeAlong G p w]: the node list [p] can be walked along edges whose
    weights add up to [w]. *)
Inductive routeAlong (G : Graph) : list string → Z → Prop :=
  | routeAlong_one v : routeAlong G [v] 0
  | routeAlong_snoc p u v w wt :
      routeAlong G p w → last p = Some u → joined G u v wt →
      routeAlong G (p ++ [v]) (w + wt).

(** No edge has a negative weight. *)
Definition nonNegative (G : Graph) : Prop :=
  ∀ ed, ed ∈ edges G → (0 ≤ weight ed)%Z.

(** What the distance table, the predecessor table and the queue satisfy
    in the main loop, beyond [core]: the start is at 0; a predecessor
    link accounts for the distance exactly; the edges out of the nodes in
    [expanded] (the visited nodes whose neighbours have been looked at)
    are relaxed; visited nodes are no farther than unvisited ones; and
    every unvisited node with a finite distance has that distance in the
    queue, while all other entries are no smaller. *)
Definition optInv (G : Graph) (s : string) (expanded vis : list string)
    (ds : gmap string num) (prev : gmap string (option string))
    (q : list QEntry) : Prop :=
  ds !! s = Some (Fin 0)
  ∧ (∀ v u, prev !! v = Some (Some u) →
       ∃ du wt, ds !! u = Some (Fin du) ∧ joined G u v wt
                ∧ ds !! v = Some (Fin (du + wt)))
  ∧ (∀ v wt w, v ∈ expanded → joined G v w wt → declared G w →
       ∃ dv dw, ds !! v = Some (Fin dv) ∧ ds !! w = Some (Fin dw)
                ∧ (dw ≤ dv + wt)%Z)
  ∧ (∀ v y dv dy, v ∈ vis → y ∉ vis →
       ds !! v = Some (Fin dv) → ds !! y = Some (Fin dy) → (dv ≤ dy)%Z)
  ∧ (∀ y dy, y ∉ vis → ds !! y = Some (Fin dy) →
       {| qnode := y; distance := Fin dy |} ∈ q)
  ∧ (∀ it, it ∈ q →
       ∃ d' d, distance it = Fin d' ∧ ds !! qnode it = Some (Fin d)
               ∧ (d ≤ d')%Z).

(** What is known when the main loop has ended with the goal visited. *)
Definition optPost (G : Graph) (s e : string) (st : State) : Prop :=
  distances st !! s = Some (Fin 0)
  ∧ (∀ v u, previous st !! v = Some (Some u) →
       ∃ du wt, distances st !! u = Some (Fin du) ∧ joined G u v wt
                ∧ distances st !! v = Some (Fin (du + wt)))
  ∧ (e ∈ visited st →
     ∃ de, distances st !! e = Some (Fin de)
           ∧ ∀ w, route G s e w → (de ≤ w)%Z).
End WeightedRoutes.

(** ** The navigation session: vocabulary *)

Section SessionVocabulary.
Import Navigation CampusData Session.
Context {number : Type}.

(** The two node variables name only entries of [campusNodes]. *)
Definition known (campusNodes : Obj (@CampusNode number)) (vs : Vars) : Prop :=
  (∀ k, currentLocationNode vs = Some k → is_Some (objGet campusNodes k))
  ∧ (∀ k, selectedDestination vs = Some k → is_Some (objGet campusNodes k)).

(** Whenever roads are highlighted, a current node is known, a
    destination is selected, and the roads are those of a walk in the
    block graph that ends at the block of the destination. *)
Definition routed (campusNodes : Obj (@CampusNode number))
    (campusGraph : CampusGraph) (vs : Vars) : Prop :=
  activeRoute vs = []
  ∨ (IndexPage.truthy (currentLocationNode vs) = true
     ∧ ∃ d dn a ns,
         selectedDestination vs = Some d
         ∧ objGet campusNodes d = Some dn
         ∧ trail campusGraph a (svgId dn) ns (activeRoute vs)).
End SessionVocabulary.

(** ** Examples from the data file *)

Section DataExamples.
Import Navigation CampusData Session.

(** Two entries of [campusNodes], with the coordinates in millionths of
    a degree. *)
Definition gateNode : @CampusNode num :=
  {| name := "D Hostel"; lat := Fin 12840440; lng := Fin 80152999;
     svgId := "block_main_gate"; type := "hostel" |}.

Definition ab1Node : @CampusNode num :=
  {| name := "Academic Block 1"; lat := Fin 12843294; lng := Fin 80153573;
     svgId := "block_library"; type := "academic" |}.

Definition exampleNodes : Obj (@CampusNode num) :=
  [("main_gate", gateNode); ("ab1", ab1Node)].

Definition coordOf (a : num) : Z :=
  match a with
  | Fin z => z
  | Infinity => 0
  end.

(** A distance for the examples: the differences of the coordinates,
    added up. *)
Definition gridDistance (lat1 lng1 lat2 lng2 : num) : num :=
  Fin (Z.abs (coordOf lat2 - coordOf lat1)
       + Z.abs (coordOf lng2 - coordOf lng1)).

(** A distance that is below nothing, as the distance from a position
    that is not a number. *)
Definition noDistance (lat1 lng1 lat2 lng2 : num) : num := Infinity.

(** The variables with the main gate as the current node. *)
Definition atGate : Vars :=
  {| currentLocationNode := Some "main_gate"; selectedDestination := None;
     activeRoute := [] |}.

(** The first two routes of [predefinedRoutes]. *)
Definition gateRoutes : Obj (list string) :=
  [ ("main_gate->admin", ["road_gate_to_admin"]);
    ("main_gate->library", ["road_gate_to_admin"; "road_admin_to_library"]) ].

(** The walk [findPath] returns from the main gate to the library. *)
Definition gateToLibrary : PathInfo :=
  {| roads := ["road_gate_to_admin"; "road_admin_to_library"];
     nodes := ["block_main_gate"; "block_admin"; "block_library"] |}.
End DataExamples.

Section BfsFacts.
Import Navigation.
Variable g : CampusGraph.



Lemma trail_reach s n ns rs : trail g s n ns rs → reach g s n.
Proof.
  induction 1 as [|n ns rs nb m r _ IH Hnb Hin]; [apply rtc_refl|].
  eapply rtc_r; [exact IH|]. exists nb. split; [done|].
  apply list_elem_of_fmap. by exists (m, r).
Qed.

Lemma neighborIds_spec a nb b :
  g !! a = Some nb → b ∈ nb.*1 → b ∈ neighborIds g.
Proof.
  intros Ha Hb. unfold neighborIds. apply elem_of_union_list.
  exists (list_to_set (nb.*1)). split; [|by apply elem_of_list_to_set].
  apply list_elem_of_fmap. exists (a, nb). split; [done|].
  by apply elem_of_map_to_list.
Qed.

(** A read of the graph gives the entries stored under the id, or none
    at all: nothing for an id the graph lacks, and a value without
    entries when that id is an inherited name. *)
Lemma neighborsOf_cases k :
  (∃ nb, g !! k = Some nb ∧ neighborsOf g k = Some nb)
  ∨ (g !! k = None ∧ k ∈ objectPrototypeNames ∧ neighborsOf g k = Some [])
  ∨ (g !! k = None ∧ (k ∉ objectPrototypeNames) ∧ neighborsOf g k = None).
Proof.
  unfold neighborsOf. destruct (g !! k) as [nb|]; [left; by exists nb|].
  right. case_decide; [by left|by right].
Qed.

Lemma neighborsOf_own k nb : g !! k = Some nb → neighborsOf g k = Some nb.
Proof. intros Hk. unfold neighborsOf. by rewrite Hk. Qed.

(** What one neighbour loop does to the queue and the marked set. *)
Lemma visitNeighbors_spec entries path vn :
  ∀ visited queue visited' queue',
    visitNeighbors entries path vn visited queue = (visited', queue') →
    visited ⊆ visited'
    ∧ (∀ it, it ∈ queue → it ∈ queue')
    ∧ (∀ it, it ∈ queue' → it ∈ queue ∨
         (q_node it ∈ visited' ∧
          ∃ r, (q_node it, r) ∈ entries ∧ q_path it = path ++ r
               ∧ q_nodes it = vn ++ [q_node it]))
    ∧ (∀ m, m ∈ entries.*1 → m ∈ visited')
    ∧ (∀ v, v ∈ visited' → v ∈ visited ∨ v ∈ q_node <$> queue')
    ∧ (∀ U : gset string, (∀ m, m ∈ entries.*1 → m ∈ U) →
         length queue' + size (U ∖ visited') ≤ length queue + size (U ∖ visited)).
Proof.
  induction entries as [|[m r] rest IH]; intros visited queue visited' queue' Hrun;
    simpl in Hrun.
  - inversion Hrun; subst. repeat split; try done; eauto.
    intros ? Hm. by apply elem_of_nil in Hm.
  - destruct (decide (m ∈ visited)) as [Hm|Hm].
    + apply IH in Hrun as (Hsub & Hold & Hnew & Hall & Hvis & Hsize).
      repeat split; try done.
      * intros it Hit. destruct (Hnew it Hit) as [?|(? & r' & ? & ? & ?)]; [by left|].
        right. split; [done|]. exists r'. split; [by apply list_elem_of_further|done].
      * intros m' Hm'. simpl in Hm'. apply elem_of_cons in Hm' as [->|Hm'];
          [by apply Hsub|by apply Hall].
      * intros U HU. apply Hsize. intros m' Hm'. apply HU. simpl.
        by apply list_elem_of_further.
    + apply IH in Hrun as (Hsub & Hold & Hnew & Hall & Hvis & Hsize).
      repeat split.
      * set_solver.
      * intros it Hit. apply Hold, elem_of_app. by left.
      * intros it Hit. destruct (Hnew it Hit) as [Hq|(? & r' & ? & ? & ?)].
        -- apply elem_of_app in Hq as [Hq|Hq]; [by left|].
           apply list_elem_of_singleton in Hq as ->. right. simpl.
           split; [apply Hsub; set_solver|].
           exists r. split; [apply list_elem_of_here|done].
        -- right. split; [done|]. exists r'.
           split; [by apply list_elem_of_further|done].
      * intros m' Hm'. simpl in Hm'. apply elem_of_cons in Hm' as [->|Hm'];
          [apply Hsub; set_solver|by apply Hall].
      * intros v Hv. destruct (Hvis v Hv) as [Hv'|Hv']; [|by right].
        apply elem_of_union in Hv' as [Hv'|Hv']; [|by left].
        apply elem_of_singleton in Hv' as ->. right.
        apply list_elem_of_fmap.
        eexists {| q_node := m; q_path := path ++ r; q_nodes := vn ++ [m] |}.
        split; [done|]. apply Hold, elem_of_app. right. apply list_elem_of_here.
      * intros U HU.
        assert (Hlt : size (U ∖ ({[m]} ∪ visited)) < size (U ∖ visited)).
        { apply subset_size. apply strict_spec_alt. split; [set_solver|].
          assert (m ∈ U) by (apply HU; simpl; apply list_elem_of_here).
          intros Heq. assert (m ∈ U ∖ visited) as Hin by set_solver.
          rewrite <- Heq in Hin. set_solver. }
        specialize (Hsize U). rewrite length_app in Hsize. simpl in Hsize.
        assert (∀ m', m' ∈ rest.*1 → m' ∈ U) as HU'.
        { intros m' Hm'. apply HU. simpl. by apply list_elem_of_further. }
        specialize (Hsize HU'). lia.
Qed.
End BfsFacts.

Section BfsLoop.
Import Navigation.
Variable g : CampusGraph.
Variables s e : string.

Lemma bfsInv_closed visited :
  bfsInv g s e [] visited → ∀ v, reach g s v → v ∈ visited ∧ v ≠ e.
Proof.
  intros (Hs & _ & Hexp) v Hv.
  assert (Hdone : ∀ u, u ∈ visited → u ≠ e ∧ ∀ w, edge g u w → w ∈ visited).
  { intros u Hu. destruct (Hexp u Hu) as [Hq|?]; [|done].
    by apply elem_of_nil in Hq. }
  assert (v ∈ visited) as Hin.
  { revert v Hv. apply rtc_ind_r; [done|].
    intros a b _ Hab Ha. by apply (Hdone a). }
  split; [done|]. by apply Hdone.
Qed.

(** One iteration that expands a block keeps the invariant. *)
Lemma bfsInv_step item queue visited nb visited' queue' :
  bfsInv g s e (item :: queue) visited →
  q_node item ≠ e →
  g !! q_node item = Some nb →
  visitNeighbors nb (q_path item) (q_nodes item) visited queue = (visited', queue') →
  bfsInv g s e queue' visited'.
Proof.
  intros (Hs & Hq & Hexp) Hne Hnb Hrun.
  apply visitNeighbors_spec in Hrun as (Hsub & Hold & Hnew & Hall & Hvis & _).
  destruct (Hq item (list_elem_of_here _ _)) as [_ Htrail].
  split; [by apply Hsub|]. split.
  - intros it Hit. destruct (Hnew it Hit) as [Hin|(Hv & r & Hr & Hp & Hn)].
    + destruct (Hq it (list_elem_of_further _ _ _ Hin)) as [? ?].
      split; [by apply Hsub|done].
    + split; [done|]. rewrite Hp, Hn. by eapply trail_step.
  - intros v Hv. destruct (Hvis v Hv) as [Hv'|Hv']; [|by left].
    destruct (Hexp v Hv') as [Hin|[Hve Hcl]].
    + apply list_elem_of_fmap in Hin as (it & -> & Hit).
      apply elem_of_cons in Hit as [->|Hit].
      * right. split; [done|]. intros w (nb' & Hnb' & Hw).
        assert (nb' = nb) as -> by congruence. by apply Hall.
      * left. apply list_elem_of_fmap. exists it. split; [done|]. by apply Hold.
    + right. split; [done|]. intros w Hw. by apply Hsub, Hcl.
Qed.

Lemma bfsInv_skip item queue visited :
  bfsInv g s e (item :: queue) visited →
  q_node item ≠ e →
  g !! q_node item = None →
  bfsInv g s e queue visited.
Proof.
  intros (Hs & Hq & Hexp) Hne Hnb.
  split; [done|]. split.
  - intros it Hit. by apply Hq, list_elem_of_further.
  - intros v Hv. destruct (Hexp v Hv) as [Hin|?]; [|by right].
    apply list_elem_of_fmap in Hin as (it & -> & Hit).
    apply elem_of_cons in Hit as [->|Hit].
    + right. split; [done|]. intros w (nb' & Hnb' & _). congruence.
    + left. apply list_elem_of_fmap. by exists it.
Qed.

(** The loop returns within its budget; a returned entry carries a trail
    to the goal, and [null] is returned only when the goal is out of
    reach. *)
Lemma bfsLoop_spec fuel :
  ∀ queue visited,
    bfsInv g s e queue visited →
    length queue + size (neighborIds g ∖ visited) ≤ fuel →
    match bfsLoop fuel g e queue visited with
    | Returned (Some r) => trail g s e (nodes r) (roads r)
    | Returned None => ¬ reach g s e
    | _ => False
    end.
Proof.
  induction fuel as [|fuel IH]; intros queue visited Hinv Hfuel.
  - destruct queue as [|item queue]; simpl in *; [|lia].
    intros Hr. by destruct (bfsInv_closed _ Hinv e Hr).
  - destruct queue as [|item queue]; simpl in *.
    + intros Hr. by destruct (bfsInv_closed _ Hinv e Hr).
    + destruct (decide (q_node item = e)) as [He|He].
      * simpl. destruct Hinv as (_ & Hq & _).
        destruct (Hq item (list_elem_of_here _ _)) as [_ Ht]. by rewrite <- He.
      * destruct (neighborsOf_cases g (q_node item))
          as [(nb & Hnb & ->)|[(Hnb & _ & ->)|(Hnb & _ & ->)]].
        -- destruct (visitNeighbors nb (q_path item) (q_nodes item) visited queue)
             as [visited' queue'] eqn:Hrun.
           apply IH; [by eapply bfsInv_step|].
           apply visitNeighbors_spec in Hrun as (_ & _ & _ & _ & _ & Hsize).
           specialize (Hsize (neighborIds g)).
           assert (∀ m, m ∈ nb.*1 → m ∈ neighborIds g) as HU
             by (intros m Hm; by eapply neighborIds_spec).
           specialize (Hsize HU). lia.
        -- cbn [visitNeighbors]. apply IH; [by eapply bfsInv_skip|lia].
        -- apply IH; [by eapply bfsInv_skip|lia].
Qed.

Lemma bfsInv_init :
  bfsInv g s e [{| q_node := s; q_path := []; q_nodes := [s] |}] {[s]}.
Proof.
  split; [set_solver|]. split.
  - intros it Hit. apply list_elem_of_singleton in Hit as ->. simpl.
    split; [set_solver|apply trail_start].
  - intros v Hv. apply elem_of_singleton in Hv as ->. left. simpl.
    apply list_elem_of_here.
Qed.

(** [findPath] between distinct ids, from a block the graph has. *)
Lemma findPath_spec nb :
  s ≠ e → g !! s = Some nb →
  console (findPath g s e) = [] ∧
  match result (findPath g s e) with
  | Returned (Some r) => trail g s e (nodes r) (roads r)
  | Returned None => ¬ reach g s e
  | _ => False
  end.
Proof.
  intros Hne Hs. unfold findPath, findPathFuel.
  destruct (decide (s = e)); [done|].
  rewrite (neighborsOf_own g s nb Hs). split; [done|].
  cbn [result]. apply bfsLoop_spec; [apply bfsInv_init|].
  unfold bfsFuel. cbn [length].
  assert (size (neighborIds g ∖ {[s]}) ≤ size (neighborIds g))
    by (apply subseteq_size; set_solver).
  lia.
Qed.
End BfsLoop.


Section AdjacencyFacts.
Import Pathfinding.

Lemma pushAdj_lookup (m : gmap string (list Adj)) k v u :
  default [] (pushAdj m k v !! u)
  = default [] (m !! u) ++ (if decide (k = u) then [v] else []).
Proof.
  unfold pushAdj. destruct (decide (k = u)) as [->|Hne].
  - by rewrite lookup_insert_eq.
  - rewrite lookup_insert_ne by done. by rewrite app_nil_r.
Qed.

Lemma buildAdjacencyFrom_lookup es :
  ∀ acc u,
    default [] (buildAdjacencyFrom es acc !! u)
    = default [] (acc !! u) ++ adjOf es u.
Proof.
  induction es as [|ed rest IH]; intros acc u; simpl.
  - by rewrite app_nil_r.
  - rewrite IH, !pushAdj_lookup. by rewrite <- !app_assoc.
Qed.

(** The neighbour list the main loop reads for [u]. *)
Lemma buildAdjacencyList_lookup es u :
  default [] (buildAdjacencyList es !! u) = adjOf es u.
Proof.
  unfold buildAdjacencyList. by rewrite buildAdjacencyFrom_lookup, lookup_empty.
Qed.

Lemma adjOf_sound es u a :
  a ∈ adjOf es u →
  ∃ ed, ed ∈ es ∧ adj_weight a = weight ed ∧
    ((from ed = u ∧ to ed = node a) ∨ (to ed = u ∧ from ed = node a)).
Proof.
  induction es as [|ed rest IH]; simpl; [by intros ?%elem_of_nil|].
  rewrite !elem_of_app. intros [Ha|[Ha|Ha]].
  - destruct (decide (from ed = u)); [|by apply elem_of_nil in Ha].
    apply list_elem_of_singleton in Ha as ->. exists ed. simpl.
    split; [apply list_elem_of_here|]. split; [done|]. by left.
  - destruct (decide (to ed = u)); [|by apply elem_of_nil in Ha].
    apply list_elem_of_singleton in Ha as ->. exists ed. simpl.
    split; [apply list_elem_of_here|]. split; [done|]. by right.
  - destruct (IH Ha) as (ed' & ? & ?). exists ed'.
    split; [by apply list_elem_of_further|done].
Qed.

Lemma adjOf_complete es u v :
  (∃ ed, ed ∈ es ∧ ((from ed = u ∧ to ed = v) ∨ (to ed = u ∧ from ed = v))) →
  ∃ a, a ∈ adjOf es u ∧ node a = v.
Proof.
  intros (ed & Hin & Hdir).
  induction es as [|ed' rest IH]; [by apply elem_of_nil in Hin|].
  apply elem_of_cons in Hin as [<-|Hin].
  - simpl. destruct Hdir as [[Hf Ht]|[Ht Hf]].
    + exists {| node := to ed; adj_weight := weight ed |}. split; [|done].
      apply elem_of_app. left. destruct (decide (from ed = u)); [|done].
      apply list_elem_of_here.
    + exists {| node := from ed; adj_weight := weight ed |}. split; [|done].
      apply elem_of_app. right. apply elem_of_app. left.
      destruct (decide (to ed = u)); [|done]. apply list_elem_of_here.
  - destruct (IH Hin) as (a & Ha & Hv). exists a. split; [|done].
    simpl. apply elem_of_app. right. apply elem_of_app. by right.
Qed.

Lemma pending_nil es : pending [] es = 2 * length es.
Proof.
  induction es as [|ed rest IH]; [done|]. simpl.
  destruct (decide (from ed ∈ [])) as [H|_]; [by apply elem_of_nil in H|].
  destruct (decide (to ed ∈ [])) as [H|_]; [by apply elem_of_nil in H|].
  lia.
Qed.

(** Visiting [u] takes exactly its adjacency entries out of [pending]. *)
Lemma pending_visit u vis es :
  u ∉ vis → pending (u :: vis) es + length (adjOf es u) = pending vis es.
Proof.
  intros Hu. induction es as [|ed rest IH]; [done|]. simpl.
  rewrite !length_app.
  assert (Hcase : ∀ k : string,
    (if decide (k ∈ u :: vis) then 0 else 1)
    + (if decide (k = u) then 1 else 0)
    = (if decide (k ∈ vis) then 0 else 1)).
  { intros k. destruct (decide (k = u)) as [->|Hk].
    - destruct (decide (u ∈ u :: vis)) as [_|H];
        [|exfalso; apply H, list_elem_of_here].
      by destruct (decide (u ∈ vis)).
    - destruct (decide (k ∈ u :: vis)) as [H|H], (decide (k ∈ vis)) as [H'|H'];
        try done.
      + apply elem_of_cons in H as [?|?]; done.
      + exfalso. apply H. by apply list_elem_of_further. }
  pose proof (Hcase (from ed)) as H1. pose proof (Hcase (to ed)) as H2.
  destruct (decide (from ed = u)), (decide (to ed = u)); simpl in *; lia.
Qed.

Lemma nodeMapOf_lookup ns :
  ∀ (m : gmap string GraphNode) v,
    is_Some (foldl (λ m n, <[id n := n]> m) m ns !! v)
    ↔ is_Some (m !! v) ∨ v ∈ id <$> ns.
Proof.
  induction ns as [|n rest IH]; intros m v; simpl.
  - split; [by left|]. intros [?|H]; [done|by apply elem_of_nil in H].
  - rewrite IH. rewrite elem_of_cons.
    destruct (decide (id n = v)) as [<-|Hne].
    + rewrite lookup_insert_eq. naive_solver.
    + rewrite lookup_insert_ne by done. naive_solver.
Qed.

Lemma nodeMapOf_declared G v :
  is_Some (nodeMapOf (nodes G) !! v) ↔ declared G v.
Proof.
  unfold nodeMapOf, declared. rewrite nodeMapOf_lookup, lookup_empty.
  split; [intros [[? ?]|?]; done|by right].
Qed.

(** A table filled with one constant for every declared id. *)
Lemma fill_lookup {V : Type} (c : V) ns :
  ∀ (m : gmap string V) v,
    foldl (λ m n, <[id n := c]> m) m ns !! v
    = if decide (v ∈ id <$> ns) then Some c else m !! v.
Proof.
  induction ns as [|n rest IH]; intros m v.
  - cbn [foldl fmap list_fmap]. case_decide; [by apply elem_of_nil in H|done].
  - simpl foldl. rewrite IH, fmap_cons.
    destruct (decide (id n = v)) as [<-|Hne];
      [rewrite lookup_insert_eq|rewrite lookup_insert_ne by done];
      repeat case_decide; try done; set_solver.
Qed.

Lemma insertSorted_perm it q : insertSorted it q ≡ₚ it :: q.
Proof.
  induction q as [|it' q IH]; simpl; [done|].
  destruct (num_leb (distance it) (distance it')); [done|].
  rewrite IH. apply Permutation_swap.
Qed.

(** Sorting rearranges the queue and nothing else. *)
Lemma sortQueue_perm q : sortQueue q ≡ₚ q.
Proof.
  induction q as [|it q IH]; simpl; [done|].
  by rewrite insertSorted_perm, IH.
Qed.
End AdjacencyFacts.

Section DijkstraLoop.
Import Pathfinding.
Variable G : Graph.
Variables s e : string.

Lemma chain_start_in prev vis : chain prev s vis → s ∈ vis.
Proof.
  induction 1; [apply list_elem_of_here|by apply list_elem_of_further].
Qed.

Lemma chain_NoDup prev vis : chain prev s vis → NoDup vis.
Proof.
  induction 1; [apply NoDup_singleton|by apply NoDup_cons].
Qed.

(** Updating [prev] at a node that is not visited leaves the chain. *)
Lemma chain_insert prev vis n o :
  n ∉ vis → chain prev s vis → chain (<[n := o]> prev) s vis.
Proof.
  intros Hn Hc. induction Hc as [Hs|v u l Hv Hp Hu Hc IH].
  - apply chain_start. rewrite lookup_insert_ne; [done|].
    intros ->. apply Hn, list_elem_of_here.
  - apply chain_cons with u; [done| |done|].
    + rewrite lookup_insert_ne; [done|]. intros ->. apply Hn, list_elem_of_here.
    + apply IH. intros ?. by apply Hn, list_elem_of_further.
Qed.

(** Popping the entry [cur] of an unvisited node and marking it. *)
Lemma core_visit vis ds prev q cur rest :
  core G s vis ds prev q →
  cur :: rest ≡ₚ q →
  qnode cur ∉ vis →
  core G s (qnode cur :: vis) ds prev rest.
Proof.
  intros (Hdom & Hstart & Hsfin & Hq & Hprev & Hvis & Hfin & Hchain) Hperm Hcur.
  assert (Hin : ∀ it, it ∈ cur :: rest → it ∈ q) by (intros it; by rewrite Hperm).
  destruct (Hq cur (Hin _ (list_elem_of_here _ _))) as (Hdecl & Hfinc & Hpc).
  repeat split; try done.
  - by apply Hdom.
  - by apply Hdom.
  - by apply (Hq it), Hin, list_elem_of_further.
  - by apply (Hq it), Hin, list_elem_of_further.
  - by apply (Hq it), Hin, list_elem_of_further.
  - apply list_elem_of_further. by apply (Hprev v u).
  - by apply (Hprev v u).
  - by apply (Hprev v u).
  - by apply (Hprev v u).
  - apply elem_of_cons in H as [->|H]; [done|by apply Hvis].
  - apply elem_of_cons in H as [->|H]; [done|by apply Hvis].
  - intros w Hw Hfw.
    assert (w ∈ qnode <$> q) as Hwq.
    { apply Hfin; [|done]. intros ?. by apply Hw, list_elem_of_further. }
    rewrite <- Hperm in Hwq. rewrite fmap_cons in Hwq.
    apply elem_of_cons in Hwq as [->|Hwq]; [|done].
    exfalso. apply Hw, list_elem_of_here.
  - right. destruct Hpc as [Hs|[u Hu]].
    + destruct Hchain as [->|Hc].
      * rewrite Hs. by apply chain_start.
      * exfalso. apply Hcur. rewrite Hs. by eapply chain_start_in.
    + destruct (Hprev _ _ Hu) as (Huv & _).
      destruct Hchain as [->|Hc]; [by apply elem_of_nil in Huv|].
      by apply chain_cons with u.
Qed.

(** Dropping the entry of a node that is visited already. *)
Lemma core_drop vis ds prev q cur rest :
  core G s vis ds prev q →
  cur :: rest ≡ₚ q →
  qnode cur ∈ vis →
  core G s vis ds prev rest.
Proof.
  intros (Hdom & Hstart & Hsfin & Hq & Hprev & Hvis & Hfin & Hchain) Hperm Hcur.
  assert (Hin : ∀ it, it ∈ cur :: rest → it ∈ q) by (intros it; by rewrite Hperm).
  repeat split; try done.
  - by apply Hdom.
  - by apply Hdom.
  - by apply (Hq it), Hin, list_elem_of_further.
  - by apply (Hq it), Hin, list_elem_of_further.
  - by apply (Hq it), Hin, list_elem_of_further.
  - by apply (Hprev v u).
  - by apply (Hprev v u).
  - by apply (Hprev v u).
  - by apply (Hprev v u).
  - by apply Hvis.
  - by apply Hvis.
  - intros w Hw Hfw. pose proof (Hfin w Hw Hfw) as Hwq.
    rewrite <- Hperm in Hwq. rewrite fmap_cons in Hwq.
    apply elem_of_cons in Hwq as [->|Hwq]; [done|done].
Qed.
End DijkstraLoop.

Section DijkstraRelax.
Import Pathfinding.
Variable G : Graph.
Variables s e : string.

(** Recording a shorter way to an unvisited declared neighbour. *)
Lemma core_relax vis ds prev q cur n d :
  core G s vis ds prev q →
  cur ∈ vis → n ∉ vis → adjacent G cur n → declared G n →
  core G s vis (<[n := Fin d]> ds) (<[n := Some cur]> prev)
    (q ++ [{| qnode := n; distance := Fin d |}]).
Proof.
  intros (Hdom & Hstart & Hsfin & Hq & Hprev & Hvis & Hfin & Hchain)
    Hcur Hn Hadj Hdecl.
  assert (Hs : s ∈ vis).
  { destruct Hchain as [->|Hc]; [by apply elem_of_nil in Hcur|].
    by eapply chain_start_in. }
  assert (Hns : n ≠ s) by (intros ->; done).
  assert (Hfin' : ∀ v, finiteAt ds v → finiteAt (<[n := Fin d]> ds) v).
  { intros v [z Hz]. destruct (decide (n = v)) as [->|Hne].
    - exists d. by rewrite lookup_insert_eq.
    - exists z. by rewrite lookup_insert_ne. }
  split; [|split; [|split; [|split; [|split; [|split; [|split]]]]]].
  - intros v. destruct (decide (n = v)) as [<-|Hne].
    + rewrite lookup_insert_eq. split; [done|eauto].
    + rewrite lookup_insert_ne by done. apply Hdom.
  - by rewrite lookup_insert_ne.
  - by apply Hfin'.
  - intros it Hit. apply elem_of_app in Hit as [Hit|Hit].
    + destruct (Hq it Hit) as (? & ? & Hp). split; [done|]. split; [by apply Hfin'|].
      destruct (decide (n = qnode it)) as [Heq|Hne].
      * right. exists cur. by rewrite <- Heq, lookup_insert_eq.
      * destruct Hp as [?|[u Hu]]; [by left|]. right. exists u.
        by rewrite lookup_insert_ne.
    + apply list_elem_of_singleton in Hit as ->. simpl.
      split; [done|]. split; [exists d; by rewrite lookup_insert_eq|].
      right. exists cur. by rewrite lookup_insert_eq.
  - intros v u Hvu. destruct (decide (n = v)) as [<-|Hne].
    + rewrite lookup_insert_eq in Hvu. inversion Hvu; subst.
      repeat split; try done. exists d. by rewrite lookup_insert_eq.
    + rewrite lookup_insert_ne in Hvu by done.
      destruct (Hprev v u Hvu) as (? & ? & ? & ?). repeat split; try done.
      by apply Hfin'.
  - intros v Hv. destruct (Hvis v Hv). split; [done|by apply Hfin'].
  - intros w Hw Hfw. rewrite fmap_app. apply elem_of_app.
    destruct (decide (n = w)) as [<-|Hne].
    + right. simpl. apply list_elem_of_here.
    + left. apply Hfin; [done|]. destruct Hfw as [z Hz].
      rewrite lookup_insert_ne in Hz by done. by exists z.
  - destruct Hchain as [->|Hc]; [by left|]. right. by apply chain_insert.
Qed.

(** The neighbour loop of a freshly visited node [cur]: the maps stay
    well formed, nothing leaves the queue, every declared neighbour ends
    up visited or queued, and at most one entry per neighbour is added. *)
Lemma relax_spec cur vis nbs :
  ∀ ds prev q ds' prev' q',
    relax nbs cur vis ds prev q = (ds', prev', q') →
    cur ∈ vis →
    (∀ nb, nb ∈ nbs → adjacent G cur (node nb)) →
    core G s vis ds prev q →
    core G s vis ds' prev' q'
    ∧ (∀ it, it ∈ q → it ∈ q')
    ∧ (∀ nb, nb ∈ nbs → declared G (node nb) →
         node nb ∈ vis ∨ node nb ∈ qnode <$> q')
    ∧ length q' ≤ length q + length nbs.
Proof.
  induction nbs as [|nb rest IH]; intros ds prev q ds' prev' q' Hrun Hcur Hadj Hcore.
  - simpl in Hrun. inversion Hrun; subst. split_and!; try done.
    + intros nb Hnb. by apply elem_of_nil in Hnb.
    + lia.
  - assert (Hadj' : ∀ nb', nb' ∈ rest → adjacent G cur (node nb'))
      by (intros nb' ?; by apply Hadj, list_elem_of_further).
    simpl in Hrun.
    destruct (decide (node nb ∈ vis)) as [Hv|Hv].
    { destruct (IH _ _ _ _ _ _ Hrun Hcur Hadj' Hcore) as (Hc & Hmono & Hall & Hlen).
      split_and!; try done.
      - intros nb' Hnb' Hd. apply elem_of_cons in Hnb' as [->|Hnb'];
          [by left|by apply Hall].
      - simpl. lia. }
    assert (Hkeep :
      relax rest cur vis ds prev q = (ds', prev', q') →
      (declared G (node nb) → node nb ∈ qnode <$> q) →
      core G s vis ds' prev' q'
      ∧ (∀ it, it ∈ q → it ∈ q')
      ∧ (∀ nb', nb' ∈ nb :: rest → declared G (node nb') →
           node nb' ∈ vis ∨ node nb' ∈ qnode <$> q')
      ∧ length q' ≤ length q + length (nb :: rest)).
    { intros Hrun' Hqueued.
      destruct (IH _ _ _ _ _ _ Hrun' Hcur Hadj' Hcore) as (Hc & Hmono & Hall & Hlen).
      split_and!; try done.
      - intros nb' Hnb' Hd. apply elem_of_cons in Hnb' as [->|Hnb'];
          [|by apply Hall].
        right. specialize (Hqueued Hd).
        apply list_elem_of_fmap in Hqueued as (it & -> & Hit).
        apply list_elem_of_fmap. exists it. split; [done|by apply Hmono].
      - simpl. lia. }
    pose proof Hcore as (Hdom & _ & _ & _ & _ & Hvis & Hfin & _).
    destruct (ds !! cur) as [dc|] eqn:Hdc; cycle 1.
    { destruct (Hvis cur Hcur) as [_ [z Hz]]. congruence. }
    destruct (ds !! node nb) as [dn|] eqn:Hdn; cycle 1.
    { apply Hkeep; [done|]. intros Hd. apply Hdom in Hd as [? ?]. congruence. }
    destruct (Hvis cur Hcur) as [_ [z Hz]].
    assert (dc = Fin z) as -> by congruence. cbn [num_add] in Hrun.
    destruct (num_ltb (Fin (z + adj_weight nb)) dn) eqn:Hlt.
    + assert (Hd : declared G (node nb)) by (apply Hdom; by rewrite Hdn).
      assert (Hcore' := core_relax vis ds prev q cur (node nb) (z + adj_weight nb)
                Hcore Hcur Hv (Hadj nb (list_elem_of_here _ _)) Hd).
      destruct (IH _ _ _ _ _ _ Hrun Hcur Hadj' Hcore') as (Hc & Hmono & Hall & Hlen).
      split_and!; try done.
      * intros it Hit. apply Hmono, elem_of_app. by left.
      * intros nb' Hnb' Hd'. apply elem_of_cons in Hnb' as [->|Hnb'];
          [|by apply Hall].
        right. apply list_elem_of_fmap.
        exists {| qnode := node nb; distance := Fin (z + adj_weight nb) |}.
        split; [done|]. apply Hmono, elem_of_app. right. apply list_elem_of_here.
      * rewrite length_app in Hlen. simpl in *. lia.
    + apply Hkeep; [done|]. intros _. apply Hfin; [done|].
      destruct dn as [y|]; [by exists y|done].
Qed.
End DijkstraRelax.

Section DijkstraMain.
Import Pathfinding.
Variable G : Graph.
Variables s e : string.

Lemma dijkstraLoop_unfold fuel adjacency st :
  dijkstraLoop (S fuel) adjacency e st =
  match queue st with
  | [] => Some st
  | _ :: _ =>
      match sortQueue (queue st) with
      | [] => Some st
      | current :: rest =>
          if decide (qnode current ∈ visited st)
          then dijkstraLoop fuel adjacency e
                 {| distances := distances st; previous := previous st;
                    visited := visited st; queue := rest |}
          else
            let vis := qnode current :: visited st in
            if decide (qnode current = e)
            then Some {| distances := distances st; previous := previous st;
                         visited := vis; queue := rest |}
            else
              let neighbors := default [] (adjacency !! qnode current) in
              let '(ds, prev, q) :=
                relax neighbors (qnode current) vis
                  (distances st) (previous st) rest in
              dijkstraLoop fuel adjacency e
                {| distances := ds; previous := prev;
                   visited := vis; queue := q |}
      end
  end.
Proof. reflexivity. Qed.

(** With the queue empty, the visited nodes are all that can be reached. *)
Lemma dijkstraInv_done st :
  dijkstraInv G s e st → queue st = [] → dijkstraPost G s e st.
Proof.
  intros (Hcore & Hexp & Hend) Hq. split; [done|]. right.
  split; [done|]. split; [done|].
  pose proof Hcore as (_ & _ & Hsfin & _ & _ & _ & Hfin & _).
  rewrite Hq in Hfin, Hexp.
  assert (Hs : s ∈ visited st).
  { destruct (decide (s ∈ visited st)) as [?|Hn]; [done|].
    specialize (Hfin s Hn Hsfin). by apply elem_of_nil in Hfin. }
  assert (Hall : ∀ v, connected G s v → v ∈ visited st).
  { apply rtc_ind_r; [done|]. intros u v _ Huv Hu.
    destruct (Hexp u v Hu Huv) as [?|Hv]; [done|]. by apply elem_of_nil in Hv. }
  intros Hc. by apply Hend, Hall.
Qed.

(** The main loop ends within its budget, in a state that has either
    visited the goal or exhausted everything the start can reach. *)
Lemma dijkstraLoop_spec fuel :
  ∀ st,
    dijkstraInv G s e st →
    length (queue st) + pending (visited st) (edges G) ≤ fuel →
    ∃ st', dijkstraLoop fuel (buildAdjacencyList (edges G)) e st = Some st'
           ∧ dijkstraPost G s e st'.
Proof.
  induction fuel as [|fuel IH]; intros st Hinv Hfuel.
  - destruct (queue st) as [|it q0] eqn:Hq; [|simpl in Hfuel; lia].
    exists st. split; [|by apply dijkstraInv_done].
    simpl. by rewrite Hq.
  - rewrite dijkstraLoop_unfold.
    destruct (queue st) as [|it q0] eqn:Hq.
    { exists st. split; [done|]. by apply dijkstraInv_done. }
    pose proof (sortQueue_perm (it :: q0)) as Hperm.
    destruct (sortQueue (it :: q0)) as [|cur rest].
    { symmetry in Hperm. by apply Permutation_nil_r in Hperm. }
    destruct Hinv as (Hcore & Hexp & Hend). rewrite Hq in Hcore, Hexp.
    assert (Hlen : length (it :: q0) = S (length rest)).
    { by rewrite <- Hperm. }
    assert (Hmem : ∀ w, w ∈ qnode <$> it :: q0 →
                        w = qnode cur ∨ w ∈ qnode <$> rest).
    { intros w Hw. rewrite <- Hperm, fmap_cons in Hw.
      by apply elem_of_cons in Hw. }
    destruct (decide (qnode cur ∈ visited st)) as [Hv|Hv].
    { apply IH.
      - split; [|split]; simpl; [by eapply core_drop| |done].
        intros v w Hvv Hl. destruct (Hexp v w Hvv Hl) as [?|Hw]; [by left|].
        destruct (Hmem w Hw) as [->|?]; [by left|by right].
      - simpl in *. lia. }
    pose proof (core_visit G s _ _ _ _ _ _ Hcore Hperm Hv) as Hcore1.
    destruct (decide (qnode cur = e)) as [He|He].
    { eexists. split; [done|]. split; simpl; [done|].
      left. rewrite He. apply list_elem_of_here. }
    cbv zeta.
    set (nbs := default [] (buildAdjacencyList (edges G) !! qnode cur)).
    assert (Hnbs : nbs = adjOf (edges G) (qnode cur))
      by apply buildAdjacencyList_lookup.
    destruct (relax nbs (qnode cur) (qnode cur :: visited st)
                (distances st) (previous st) rest)
      as [[ds' prev'] q'] eqn:Hrun.
    assert (Hadj : ∀ nb, nb ∈ nbs → adjacent G (qnode cur) (node nb)).
    { intros nb Hnb. rewrite Hnbs in Hnb.
      apply adjOf_sound in Hnb as (ed & Hed & _ & Hdir). by exists ed. }
    destruct (relax_spec G s _ _ _ _ _ _ _ _ _ Hrun
                (list_elem_of_here _ _) Hadj Hcore1)
      as (Hcore2 & Hmono & Hall & Hlen2).
    assert (Hmono' : ∀ w, w ∈ qnode <$> rest → w ∈ qnode <$> q').
    { intros w Hw. apply list_elem_of_fmap in Hw as (it' & -> & Hit').
      apply list_elem_of_fmap. exists it'. split; [done|by apply Hmono]. }
    apply IH.
    + split; [|split]; simpl; [done| |].
      * intros v w Hvv [Hvw Hdw].
        apply elem_of_cons in Hvv as [->|Hvv].
        -- destruct (adjOf_complete (edges G) (qnode cur) w Hvw) as (a & Ha & <-).
           rewrite <- Hnbs in Ha. by apply Hall.
        -- destruct (Hexp v w Hvv (conj Hvw Hdw)) as [?|Hw].
           ++ left. by apply list_elem_of_further.
           ++ destruct (Hmem w Hw) as [->|?].
              ** left. apply list_elem_of_here.
              ** right. by apply Hmono'.
      * intros Hin. apply elem_of_cons in Hin as [?|?]; [congruence|done].
    + simpl.
      pose proof (pending_visit (qnode cur) (visited st) (edges G) Hv) as Hp.
      rewrite <- Hnbs in Hp. simpl in *. lia.
Qed.
End DijkstraMain.

Section DijkstraResult.
Import Pathfinding.
Variable G : Graph.
Variables s e : string.

Lemma linked_snoc p u v :
  linked G p → last p = Some u → adjacent G u v → linked G (p ++ [v]).
Proof.
  intros Hp Hu Huv. induction p as [|a [|b r] IH]; [done| |].
  - simpl in *. by inversion Hu; subst.
  - destruct Hp as [Hab Hr]. split; [done|]. by apply IH.
Qed.

Lemma reconstruct_null fuel prev acc :
  reconstruct fuel prev None acc = Some acc.
Proof. by destruct fuel. Qed.

(** Following [prev] back from a visited node gives a duplicate-free
    route from the start, within the budget of one step per node. *)
Lemma chain_reconstruct prev vis :
  chain prev s vis →
  (∀ v u, prev !! v = Some (Some u) → adjacent G u v ∧ declared G v) →
  ∀ v, v ∈ vis →
    ∃ p,
      (∀ fuel acc, length p ≤ fuel →
         reconstruct fuel prev (Some v) acc = Some (p ++ acc))
      ∧ head p = Some s ∧ last p = Some v
      ∧ (∀ x, x ∈ p → x ∈ vis)
      ∧ NoDup p ∧ linked G p ∧ length p ≤ length vis
      ∧ connected G s v.
Proof.
  intros Hc Hprev. induction Hc as [Hs|v0 u l Hv0 Hp Hu Hc IH]; intros v Hv.
  - apply list_elem_of_singleton in Hv as ->. exists [s].
    split_and!; try done.
    + intros [|fuel] acc Hlen; [simpl in Hlen; lia|].
      simpl. rewrite Hs. apply reconstruct_null.
    + apply NoDup_singleton.
  - apply elem_of_cons in Hv as [->|Hv].
    + destruct (IH u Hu) as (p & Hrun & Hhd & Hlast & Hsub & Hnd & Hlk & Hlen & Hcon).
      exists (p ++ [v0]). split_and!.
      * intros [|fuel] acc Hf; [rewrite length_app in Hf; simpl in Hf; lia|].
        simpl. rewrite Hp. simpl. rewrite <- app_assoc. apply Hrun.
        rewrite length_app in Hf. simpl in Hf. lia.
      * destruct p; [done|]. done.
      * apply last_snoc.
      * intros x Hx. apply elem_of_app in Hx as [Hx|Hx].
        -- by apply list_elem_of_further, Hsub.
        -- apply list_elem_of_singleton in Hx as ->. apply list_elem_of_here.
      * apply NoDup_app. split_and!; [done| |apply NoDup_singleton].
        intros x Hx Hx'. apply list_elem_of_singleton in Hx' as ->.
        by apply Hv0, Hsub.
      * apply linked_snoc with u; [done|done|]. by apply (Hprev v0 u).
      * rewrite length_app. simpl. lia.
      * eapply rtc_r; [exact Hcon|]. by apply (Hprev v0 u).
    + destruct (IH v Hv) as (p & Hrun & Hhd & Hlast & Hsub & Hnd & Hlk & Hlen & Hcon).
      exists p. split_and!; try done.
      * intros x Hx. by apply list_elem_of_further, Hsub.
      * simpl. lia.
Qed.

Lemma coordinatesOf_declared p :
  (∀ v, v ∈ p → declared G v) →
  ∃ cs, coordinatesOf (nodeMapOf (nodes G)) p = Some cs
        ∧ Forall2 (λ v c, ∃ n, nodeMapOf (nodes G) !! v = Some n
                               ∧ c = {| px := x n; py := y n |}) p cs.
Proof.
  induction p as [|v p IH]; intros Hd.
  - exists []. split; [done|constructor].
  - destruct IH as (cs & Hcs & Hall).
    { intros w Hw. by apply Hd, list_elem_of_further. }
    assert (is_Some (nodeMapOf (nodes G) !! v)) as [n Hn]
      by (apply nodeMapOf_declared, Hd, list_elem_of_here).
    exists ({| px := x n; py := y n |} :: cs). simpl. rewrite Hn, Hcs.
    split; [done|]. constructor; [by exists n|done].
Qed.

Lemma dijkstraInv_init :
  declared G s → dijkstraInv G s e (initialState (nodes G) s).
Proof.
  intros Hs. unfold dijkstraInv, initialState. simpl.
  split; [|split; [|by intros ?%elem_of_nil]];
    [|intros v w Hv; by apply elem_of_nil in Hv].
  unfold core. split_and!.
  - intros v. destruct (decide (s = v)) as [<-|Hne].
    + by rewrite lookup_insert_eq.
    + rewrite lookup_insert_ne by done. rewrite fill_lookup.
      unfold declared. case_decide; [done|]. rewrite lookup_empty.
      split; [by intros [? ?]|done].
  - rewrite fill_lookup. by case_decide.
  - exists 0%Z. by rewrite lookup_insert_eq.
  - intros it Hit. apply list_elem_of_singleton in Hit as ->. simpl.
    split_and!; [done| |by left]. exists 0%Z. by rewrite lookup_insert_eq.
  - intros v u Hvu. rewrite fill_lookup in Hvu. by case_decide.
  - intros v Hv. by apply elem_of_nil in Hv.
  - intros w _ [z Hz]. destruct (decide (s = w)) as [<-|Hne].
    + apply list_elem_of_here.
    + rewrite lookup_insert_ne in Hz by done. rewrite fill_lookup in Hz.
      by case_decide.
  - by left.
Qed.

(** [findShortestPath] between declared nodes: a route is returned
    exactly when the graph has one, and [null] otherwise; the call
    neither throws nor exhausts its budget. *)
Lemma findShortestPath_spec :
  declared G s → declared G e →
  (connected G s e ∧
   ∃ p cs,
     findShortestPath G s e
     = Run (Returned (Some {| path := p; coordinates := cs |})) []
     ∧ head p = Some s ∧ last p = Some e ∧ NoDup p ∧ linked G p
     ∧ (∀ v, v ∈ p → declared G v)
     ∧ Forall2 (λ v c, ∃ n, nodeMapOf (nodes G) !! v = Some n
                            ∧ c = {| px := x n; py := y n |}) p cs)
  ∨ (¬ connected G s e ∧
     findShortestPath G s e
     = Run (Returned None) ["No path found between nodes"]).
Proof.
  intros Hs He. unfold findShortestPath, findShortestPathFuel.
  rewrite decide_True by (split; by apply nodeMapOf_declared).
  destruct (dijkstraLoop_spec G s e (dijkstraFuel G)
              (initialState (nodes G) s) (dijkstraInv_init Hs))
    as (st & -> & Hcore & Hgoal).
  { simpl. rewrite pending_nil. unfold dijkstraFuel. lia. }
  pose proof Hcore as (Hdom & Hstart & Hsfin & Hq & Hprev & Hvis & Hfin & Hchain).
  assert (Hprev' : ∀ v u, previous st !! v = Some (Some u) →
                          adjacent G u v ∧ declared G v).
  { intros v u Hvu. by destruct (Hprev v u Hvu) as (_ & ? & ? & _). }
  destruct Hgoal as [Hin|(Hqe & Hnin & Hnc)].
  - destruct Hchain as [Hnil|Hc]; [rewrite Hnil in Hin; by apply elem_of_nil in Hin|].
    destruct (chain_reconstruct _ _ Hc Hprev' e Hin)
      as (p & Hrun & Hhd & Hlast & Hsub & Hnd & Hlk & Hlen & Hcon).
    left. split; [done|].
    assert (Hdecl : ∀ v, v ∈ p → declared G v).
    { intros v Hv. by apply Hvis, Hsub. }
    destruct (coordinatesOf_declared p Hdecl) as (cs & Hcs & Hall).
    exists p, cs. rewrite Hrun, app_nil_r.
    + rewrite decide_True by done. rewrite Hcs. by split_and!.
    + unfold reconstructFuel.
      assert (length (visited st) ≤ length (nodes G)).
      { rewrite <- (length_fmap id (nodes G)). apply submseteq_length.
        apply NoDup_submseteq; [by eapply chain_NoDup|].
        intros v Hv. by apply Hvis. }
      lia.
  - right. split; [done|].
    assert (Hse : s ∈ visited st).
    { destruct (decide (s ∈ visited st)) as [?|Hn]; [done|].
      specialize (Hfin s Hn Hsfin). rewrite Hqe in Hfin.
      by apply elem_of_nil in Hfin. }
    assert (Hpe : default None (previous st !! e) = None).
    { destruct (previous st !! e) as [[u|]|] eqn:Hpe; [|done|done].
      destruct (Hprev e u Hpe) as (_ & _ & _ & Hfe).
      specialize (Hfin e Hnin Hfe). rewrite Hqe in Hfin.
      by apply elem_of_nil in Hfin. }
    unfold reconstructFuel. simpl. rewrite Hpe, reconstruct_null. simpl.
    rewrite decide_False; [done|]. intros [= ->]. done.
Qed.
End DijkstraResult.

(** ** The breadth-first solver: claims *)

Section FindPathClaims.
Import Navigation.

Lemma findPath_same_any (g : CampusGraph) (X : string) (fuel : nat) :
  findPathFuel fuel g X X
  = Run (Returned (Some {| roads := []; nodes := [X] |})) [].
Proof. unfold findPathFuel. by rewrite decide_True by done. Qed.

(** C4.  For a block [X] of the graph, [findPath(X, X)] is the path
    [{ roads: [], nodes: [X] }]; the answer comes from the test made
    before the search, so it is the same for every loop budget, the
    empty one included. *)
Theorem findPath_same_block (g : CampusGraph) (X : string) :
  is_Some (g !! X) →
  findPath g X X = Run (Returned (Some {| roads := []; nodes := [X] |})) []
  ∧ ∀ fuel,
      findPathFuel fuel g X X
      = Run (Returned (Some {| roads := []; nodes := [X] |})) [].
Proof.
  intros _. unfold findPath, findPathFuel.
  split; [|intros fuel]; by rewrite decide_True by done.
Qed.

(** C10.  The equality test is the first test: an id the graph does not
    have is answered like any other, with [{ roads: [], nodes: [X] }]
    and no warning. *)
Theorem findPath_same_unknown (g : CampusGraph) (X : string) :
  g !! X = None →
  findPath g X X = Run (Returned (Some {| roads := []; nodes := [X] |})) []
  ∧ findPath g X X ≠ Run (Returned None) ["Node not in graph: " +:+ X].
Proof.
  intros _. unfold findPath, findPathFuel. by rewrite decide_True by done.
Qed.

Lemma findPath_console_present (g : CampusGraph) (a b : string) :
  is_Some (g !! a) → console (findPath g a b) = [].
Proof.
  intros [nb Hnb]. unfold findPath, findPathFuel.
  destruct (decide (a = b)); [done|]. by rewrite (neighborsOf_own g a nb Hnb).
Qed.

Lemma bfsLoop_done (g : CampusGraph) (e : string) fuel visited :
  bfsLoop fuel g e [] visited = Returned None.
Proof. by destruct fuel. Qed.

(** A start the graph lacks, under a name no object inherits: the guard
    answers, with its warning. *)
Lemma findPath_absent_plain (g : CampusGraph) (s e : string) :
  g !! s = None → s ∉ objectPrototypeNames → s ≠ e →
  findPath g s e = Run (Returned None) ["Node not in graph: " +:+ s].
Proof.
  intros Hs Hplain Hne. unfold findPath, findPathFuel, neighborsOf.
  by rewrite decide_False, Hs, decide_False by done.
Qed.

(** A start the graph lacks, under an inherited name: the guard reads
    the inherited value and lets the search run, which ends at once. *)
Lemma findPath_absent_inherited (g : CampusGraph) (s e : string) :
  g !! s = None → s ∈ objectPrototypeNames → s ≠ e →
  findPath g s e = Run (Returned None) [].
Proof.
  intros Hs Hin Hne. unfold findPath, findPathFuel, neighborsOf, bfsFuel.
  rewrite decide_False, Hs, decide_True by done.
  cbn [bfsLoop q_node]. rewrite decide_False by done.
  unfold neighborsOf. rewrite Hs, decide_True by done.
  cbn [visitNeighbors]. by rewrite bfsLoop_done.
Qed.

Lemma reach_start_present (g : CampusGraph) (a b : string) :
  reach g a b → a ≠ b → is_Some (g !! a).
Proof.
  intros Hr Hne. destruct Hr as [|a x b (nb & Hnb & _) _]; [done|].
  by exists nb.
Qed.

(** The full contract of [findPath]: what is returned, and when. *)
Lemma findPath_total (g : CampusGraph) (a b : string) :
  is_Some (g !! a) →
  (reach g a b ∧
   ∃ r, findPath g a b = Run (Returned (Some r)) []
        ∧ trail g a b (nodes r) (roads r))
  ∨ (¬ reach g a b ∧ findPath g a b = Run (Returned None) []).
Proof.
  intros [nb Hnb]. destruct (decide (a = b)) as [<-|Hne].
  - left. split; [apply rtc_refl|]. eexists. split.
    + unfold findPath, findPathFuel. by rewrite decide_True by done.
    + apply trail_start.
  - destruct (findPath_spec g a b nb Hne Hnb) as [Hc Hres].
    destruct (findPath g a b) as [res con]. simpl in *. subst con.
    destruct res as [| |[r|]]; try done.
    + left. split; [by eapply trail_reach|]. by exists r.
    + by right.
Qed.
(** C8.  A start id the graph does not have, and that differs from the
    goal, is refused with the warning [Node not in graph] only when its
    name is none that objects inherit.  Under an inherited name, such as
    [constructor], the guard [!campusGraph[startSvgId]] reads a value
    that counts as true: the answer is [null] with nothing written, the
    very answer given for a goal that is out of reach. *)
Theorem findPath_start_absent (g : CampusGraph) (s e : string) :
  g !! s = None → s ≠ e →
  (s ∉ objectPrototypeNames →
   findPath g s e = Run (Returned None) ["Node not in graph: " +:+ s])
  ∧ (s ∈ objectPrototypeNames →
     findPath g s e = Run (Returned None) []
     ∧ ∀ a b, is_Some (g !! a) → ¬ reach g a b →
         findPath g a b = findPath g s e).
Proof.
  intros Hs Hne. split; [intros Hplain; by apply findPath_absent_plain|].
  intros Hin. rewrite (findPath_absent_inherited g s e Hs Hin Hne).
  split; [done|]. intros a b Ha Hn.
  by destruct (findPath_total g a b Ha) as [(Hr & _)|(_ & Hrun)].
Qed.
End FindPathClaims.

(** ** Both solvers: claims *)

Section SolverClaims.
Import Pathfinding.



(** C3.  Between two ids the graph has but does not connect, each solver
    returns [null]: the call returns, it does not throw. *)
Theorem solver_no_route :
  (∀ (g : Navigation.CampusGraph) (a b : string),
     is_Some (g !! a) → is_Some (g !! b) → ¬ reach g a b →
     Navigation.findPath g a b = Run (Returned None) [])
  ∧ (∀ (G : Graph) (a b : string),
       declared G a → declared G b → ¬ connected G a b →
       findShortestPath G a b
       = Run (Returned None) ["No path found between nodes"]).
Proof.
  split.
  - intros g a b Ha _ Hn.
    by destruct (findPath_total g a b Ha) as [(Hr & _)|(_ & Hrun)].
  - intros G a b Ha Hb Hn.
    by destruct (findShortestPath_spec G a b Ha Hb) as [(Hr & _)|(_ & Hrun)].
Qed.
End SolverClaims.

(** ** The weighted solver on the three-node example *)

Section ThreeNodes.
Import Pathfinding.

Lemma lineGraph_adjacent nA nB nC u v :
  adjacent (lineGraph nA nB nC) u v →
  (u = id nA ∧ v = id nB) ∨ (u = id nB ∧ v = id nA)
  ∨ (u = id nB ∧ v = id nC) ∨ (u = id nC ∧ v = id nB).
Proof.
  intros (ed & Hed & Hdir). simpl in Hed.
  apply elem_of_cons in Hed as [->|Hed]; simpl in Hdir; [naive_solver|].
  apply list_elem_of_singleton in Hed as ->. simpl in Hdir. naive_solver.
Qed.

(** C1.  On the graph with edges [A]-[B] (weight 3) and [B]-[C]
    (weight 4) and no edge [A]-[C], [findShortestPath(graph, A, C)]
    returns the path [[A, B, C]] with the coordinates of [A], [B], [C] in
    that order. *)
Theorem findShortestPath_line (nA nB nC : GraphNode) :
  id nA ≠ id nB → id nB ≠ id nC → id nA ≠ id nC →
  findShortestPath (lineGraph nA nB nC) (id nA) (id nC)
  = Run (Returned (Some {| path := [id nA; id nB; id nC];
                           coordinates := [pointOf nA; pointOf nB; pointOf nC] |}))
        [].
Proof.
  intros Hab Hbc Hac. set (G := lineGraph nA nB nC).
  assert (HdA : declared G (id nA)) by (unfold declared; simpl; set_solver).
  assert (HdB : declared G (id nB)) by (unfold declared; simpl; set_solver).
  assert (HdC : declared G (id nC)) by (unfold declared; simpl; set_solver).
  destruct (findShortestPath_spec G (id nA) (id nC) HdA HdC)
    as [(_ & p & cs & -> & Hhd & Hlast & Hnd & Hlk & _ & Hcs)|(Hn & _)].
  - assert (p = [id nA; id nB; id nC]) as ->.
    { destruct p as [|p0 p]; [done|]. simpl in Hhd. inversion Hhd; subst p0.
      destruct p as [|p1 p]; [simpl in Hlast; congruence|].
      destruct Hlk as [H1 Hlk]. apply lineGraph_adjacent in H1.
      assert (p1 = id nB) as -> by naive_solver.
      destruct p as [|p2 p]; [simpl in Hlast; congruence|].
      destruct Hlk as [H2 Hlk]. apply lineGraph_adjacent in H2.
      apply NoDup_cons in Hnd as [Hn0 Hnd].
      assert (p2 = id nC) as ->.
      { destruct H2 as [?|[[_ ->]|[[_ ->]|?]]]; [naive_solver| |done|naive_solver].
        exfalso. apply Hn0. set_solver. }
      destruct p as [|p3 p]; [done|].
      destruct Hlk as [H3 _]. apply lineGraph_adjacent in H3.
      assert (p3 = id nB) as -> by naive_solver.
      apply NoDup_cons in Hnd as [Hn1 _]. exfalso. apply Hn1. set_solver. }
    assert (HmA : nodeMapOf (nodes G) !! id nA = Some nA).
    { unfold nodeMapOf. simpl. rewrite !lookup_insert_ne by congruence.
      by rewrite lookup_insert_eq. }
    assert (HmB : nodeMapOf (nodes G) !! id nB = Some nB).
    { unfold nodeMapOf. simpl. rewrite lookup_insert_ne by congruence.
      by rewrite lookup_insert_eq. }
    assert (HmC : nodeMapOf (nodes G) !! id nC = Some nC).
    { unfold nodeMapOf. simpl. by rewrite lookup_insert_eq. }
    inversion Hcs as [|? cA ? cs1 (n1 & Hn1 & ->) Hcs1]; subst.
    inversion Hcs1 as [|? cB ? cs2 (n2 & Hn2 & ->) Hcs2]; subst.
    inversion Hcs2 as [|? cC ? cs3 (n3 & Hn3 & ->) Hcs3]; subst.
    inversion Hcs3; subst.
    rewrite HmA in Hn1. rewrite HmB in Hn2. rewrite HmC in Hn3.
    by inversion Hn1; inversion Hn2; inversion Hn3; subst.
  - exfalso. apply Hn.
    apply rtc_l with (id nB).
    + split; [|done]. eexists. split; [apply list_elem_of_here|]. by left.
    + apply rtc_once. split; [|done]. eexists.
      split; [apply list_elem_of_further, list_elem_of_here|]. by left.
Qed.
End ThreeNodes.

(** ** The route handler: same-building requests *)

Section HandleNavigateClaims.
Import Pathfinding IndexPage.

(** C5, as stated, fails.  A request from a node to itself is answered
    "already there" although the node shares its parent with itself; and
    two nodes whose common parent id is the empty string are routed by
    the solver. *)
Lemma same_building_counterexample :
  (let A := room "A" "X" in
   let G := {| nodes := [A]; edges := [] |} in
   findNode (nodes G) (id A) = Some A
   ∧ sameBuilding A A
   ∧ handleNavigate (Some G) emptyPage (id A) (id A) ≠ sameBuildingRun A A
   ∧ result (handleNavigate (Some G) emptyPage (id A) (id A))
     = Returned {| pathResult := None; isCalculating := false;
                   navigationError := Some "Bruh, you're already at A";
                   selectedStart := None; selectedEnd := None |})
  ∧ (let A := room "A" "" in
     let B := room "B" "" in
     let G := {| nodes := [A; B];
                 edges := [{| from := "A"; to := "B"; weight := 1 |}] |} in
     findNode (nodes G) (id A) = Some A
     ∧ findNode (nodes G) (id B) = Some B
     ∧ sameBuilding A B
     ∧ handleNavigate (Some G) emptyPage (id A) (id B) ≠ sameBuildingRun A B
     ∧ ∃ st, result (handleNavigate (Some G) emptyPage (id A) (id B))
             = Returned st
             ∧ pathResult st
               = Some {| path := ["A"; "B"];
                         coordinates := [{| px := 0; py := 0 |};
                                         {| px := 0; py := 0 |}] |}).
Proof.
  split.
  - split; [done|]. split; [right; right; by exists "X"|].
    split; [by vm_compute|by vm_compute].
  - split; [done|]. split; [done|]. split; [right; right; by exists ""|].
    split; [by vm_compute|]. eexists. split; by vm_compute.
Qed.

(** C5, amended.  For distinct nodes [A] and [B] with one the parent of
    the other, or with the same non-empty parent, a request from [A] to
    [B] ends in the same-building state whatever the solver would
    answer: the solver is not consulted, also when the graph has a
    route. *)
Theorem same_building_short_circuit
    (solver : Graph → string → string → run (option PathResult))
    (G : Graph) (st : PageState) (A B : GraphNode) :
  findNode (nodes G) (id A) = Some A →
  findNode (nodes G) (id B) = Some B →
  sameBuildingDistinct A B →
  handleNavigateWith solver (Some G) st (id A) (id B) = sameBuildingRun A B
  ∧ handleNavigate (Some G) st (id A) (id B) = sameBuildingRun A B.
Proof.
  intros HA HB [Hne Hrel].
  assert (Hall : ∀ sv, handleNavigateWith sv (Some G) st (id A) (id B)
                       = sameBuildingRun A B).
  { intros sv. unfold handleNavigateWith. rewrite HA, HB.
    rewrite decide_False by done.
    assert (isStartInBlock A (id B) || isEndInBlock B (id A)
            || areInSameBlock A B = true) as ->; [|done].
    unfold isStartInBlock, isEndInBlock, areInSameBlock.
    destruct Hrel as [H|[H|(parent & Hp & HpA & HpB)]].
    - rewrite (bool_decide_eq_true_2 _ H). by rewrite orb_true_r.
    - by rewrite (bool_decide_eq_true_2 _ H).
    - rewrite HpA, HpB. unfold truthy.
      rewrite (bool_decide_eq_false_2 _ Hp).
      rewrite (bool_decide_eq_true_2 (Some parent = Some parent) eq_refl).
      simpl. by rewrite !orb_true_r. }
  split; [apply Hall|apply Hall].
Qed.
End HandleNavigateClaims.

(** ** The campus data: reverse directions *)

Section ReverseRoutes.
Import Navigation CampusData.

(** After [generateReverseRoutes] every route of the literal table has
    its reverse key, holding the same roads in reverse order. *)
Lemma loadedRoutes_reversed :
  Forall (λ kv, objGet loadedRoutes (reverseKeyOf kv.1) = Some (rev kv.2))
         predefinedRoutes.
Proof. apply (bool_decide_unpack (Forall _ _)). by vm_compute. Qed.

(** [buildAdjacencyList] files every edge under both ends with the same
    weight. *)
Lemma adjOf_symmetric es u v w :
  {| Pathfinding.node := v; Pathfinding.adj_weight := w |}
    ∈ adjOf es u →
  {| Pathfinding.node := u; Pathfinding.adj_weight := w |}
    ∈ adjOf es v.
Proof.
  induction es as [|ed rest IH]; simpl; [by intros ?%elem_of_nil|].
  rewrite !elem_of_app. intros [H|[H|H]].
  - case_decide as Hf; [|by apply elem_of_nil in H].
    apply list_elem_of_singleton in H. inversion H; subst.
    right. left. rewrite decide_True by done. apply list_elem_of_here.
  - case_decide as Ht; [|by apply elem_of_nil in H].
    apply list_elem_of_singleton in H. inversion H; subst.
    left. rewrite decide_True by done. apply list_elem_of_here.
  - right. right. by apply IH.
Qed.

(** The literal also has edges with no entry for the way back: the hostel
    block reaches the health centre, the health centre does not reach it. *)
Lemma campusGraph_one_way_edge :
  findPath campusGraph "block_c_hostel" "block_health_centre"
  = Run (Returned (Some {| roads := ["road_central_junction"];
                           nodes := ["block_c_hostel"; "block_health_centre"] |}))
        []
  ∧ findPath campusGraph "block_health_centre" "block_c_hostel"
    = Run (Returned None) [].
Proof. split; by vm_compute. Qed.

(** C6.  In the literal [campusGraph] the two directions of the edge
    between [block_north_square] and [block_e_hostel] do not carry
    reversed road lists: the path there highlights [road_aavin], the path
    back highlights [road_aavin] and then [road_ab3_to_north_square]. *)
Theorem campusGraph_reverse_mismatch :
  campusGraph !! "block_north_square"
    ≫= (λ nb, objGet nb "block_e_hostel") = Some ["road_aavin"]
  ∧ campusGraph !! "block_e_hostel"
      ≫= (λ nb, objGet nb "block_north_square")
    = Some ["road_aavin"; "road_ab3_to_north_square"]
  ∧ findPath campusGraph "block_north_square" "block_e_hostel"
    = Run (Returned (Some {| roads := ["road_aavin"];
                             nodes := ["block_north_square"; "block_e_hostel"] |}))
          []
  ∧ findPath campusGraph "block_e_hostel" "block_north_square"
    = Run (Returned (Some {| roads := ["road_aavin"; "road_ab3_to_north_square"];
                             nodes := ["block_e_hostel"; "block_north_square"] |}))
          []
  ∧ rev ["road_aavin"] ≠ ["road_aavin"; "road_ab3_to_north_square"].
Proof. split_and!; by vm_compute. Qed.
End ReverseRoutes.

(** ** The claims at concrete inputs *)

Section Witnesses.
Import Pathfinding.

Lemma edge_intro (g : Navigation.CampusGraph) a b nb :
  g !! a = Some nb → bool_decide (b ∈ nb.*1) = true → edge g a b.
Proof. intros Ha Hb. exists nb. split; [done|by apply bool_decide_eq_true in Hb]. Qed.

Lemma declared_intro (G : Graph) v :
  bool_decide (v ∈ id <$> nodes G) = true → declared G v.
Proof. intros Hv. by apply bool_decide_eq_true in Hv. Qed.

Lemma link_intro (G : Graph) u v ed :
  ed ∈ edges G →
  (from ed = u ∧ to ed = v) ∨ (to ed = u ∧ from ed = v) →
  bool_decide (v ∈ id <$> nodes G) = true →
  link G u v.
Proof.
  intros Hed Hdir Hv. split; [|by apply bool_decide_eq_true in Hv].
  by exists ed.
Qed.


Lemma island_A_reaches_C : connected islandGraph "A" "C".
Proof.
  apply rtc_l with "B"; [|apply rtc_once].
  - apply link_intro with {| from := "A"; to := "B"; weight := 3 |};
      [apply list_elem_of_here|by left|by vm_compute].
  - apply link_intro with {| from := "B"; to := "C"; weight := 4 |};
      [apply list_elem_of_further, list_elem_of_here|by left|by vm_compute].
Qed.

(** [block_c_hostel] has an entry of its own but is listed as a neighbour
    nowhere, so nothing reaches it. *)
Lemma campus_nothing_reaches_c_hostel :
  ¬ reach CampusData.campusGraph "block_main_gate" "block_c_hostel".
Proof.
  intros Hr. apply rtc_inv_r in Hr as [Heq|(x & _ & nb & Hnb & Hin)];
    [discriminate|].
  assert (Hall : ∀ k v, CampusData.campusGraph !! k = Some v →
                        "block_c_hostel" ∉ v.*1).
  { intros k v Hk. apply elem_of_list_to_map_2 in Hk.
    assert (HF : Forall (λ kv : string * Navigation.Neighbors,
                           "block_c_hostel" ∉ kv.2.*1)
                        CampusData.campusGraphEntries)
      by (apply (bool_decide_unpack (Forall _ _)); by vm_compute).
    rewrite Forall_forall in HF. by apply (HF (k, v)). }
  by apply (Hall x nb).
Qed.

Lemma island_A_misses_D : ¬ connected islandGraph "A" "D".
Proof.
  intros Hc. apply rtc_inv_r in Hc as [Heq|(u & _ & (ed & Hed & Hdir) & _)];
    [discriminate|].
  simpl in Hed. apply elem_of_cons in Hed as [->|Hed];
    [simpl in Hdir; by destruct Hdir as [[_ ?]|[_ ?]]|].
  apply list_elem_of_singleton in Hed as ->.
  simpl in Hdir. by destruct Hdir as [[_ ?]|[_ ?]].
Qed.

(** C1 on the nodes [A], [B], [C]. *)
Lemma findShortestPath_line_witness :
  (id nodeA ≠ id nodeB ∧ id nodeB ≠ id nodeC ∧ id nodeA ≠ id nodeC)
  ∧ findShortestPath (lineGraph nodeA nodeB nodeC) "A" "C"
    = Run (Returned (Some {| path := ["A"; "B"; "C"];
                             coordinates := [ {| px := 10; py := 20 |};
                                              {| px := 30; py := 40 |};
                                              {| px := 50; py := 60 |} ] |}))
          [].
Proof.
  split; [by vm_compute|].
  apply (findShortestPath_line nodeA nodeB nodeC); by vm_compute.
Defined.

Lemma islandGraph_safeWeights : safeWeights islandGraph.
Proof.
  exists 4%Z. split; [|by vm_compute].
  intros ed Hed. simpl in Hed.
  apply elem_of_cons in Hed as [->|Hed]; [simpl; lia|].
  apply list_elem_of_singleton in Hed as ->. simpl. lia.
Qed.



(** C3 from the main gate to [block_c_hostel], and from [A] to [D]. *)
Lemma solver_no_route_witness :
  (is_Some (CampusData.campusGraph !! "block_main_gate")
   ∧ is_Some (CampusData.campusGraph !! "block_c_hostel")
   ∧ ¬ reach CampusData.campusGraph "block_main_gate" "block_c_hostel"
   ∧ Navigation.findPath CampusData.campusGraph
       "block_main_gate" "block_c_hostel"
     = Run (Returned None) [])
  ∧ (declared islandGraph "A" ∧ declared islandGraph "D"
     ∧ ¬ connected islandGraph "A" "D"
     ∧ findShortestPath islandGraph "A" "D"
       = Run (Returned None) ["No path found between nodes"]).
Proof.
  split.
  - assert (H1 : is_Some (CampusData.campusGraph !! "block_main_gate"))
      by (vm_compute; by eexists).
    assert (H2 : is_Some (CampusData.campusGraph !! "block_c_hostel"))
      by (vm_compute; by eexists).
    split_and!; [exact H1|exact H2|exact campus_nothing_reaches_c_hostel|].
    exact (proj1 solver_no_route _ _ _ H1 H2 campus_nothing_reaches_c_hostel).
  - assert (Ha : declared islandGraph "A")
      by (apply declared_intro; by vm_compute).
    assert (Hd : declared islandGraph "D")
      by (apply declared_intro; by vm_compute).
    split_and!; [exact Ha|exact Hd|exact island_A_misses_D|].
    exact (proj2 solver_no_route _ _ _ Ha Hd island_A_misses_D).
Defined.

(** C4 at [block_admin]. *)
Lemma findPath_same_block_witness :
  is_Some (CampusData.campusGraph !! "block_admin")
  ∧ Navigation.findPath CampusData.campusGraph "block_admin" "block_admin"
    = Run (Returned (Some {| Navigation.roads := [];
                             Navigation.nodes := ["block_admin"] |})) []
  ∧ ∀ fuel,
      Navigation.findPathFuel fuel CampusData.campusGraph
        "block_admin" "block_admin"
      = Run (Returned (Some {| Navigation.roads := [];
                               Navigation.nodes := ["block_admin"] |})) [].
Proof.
  assert (H : is_Some (CampusData.campusGraph !! "block_admin"))
      by (vm_compute; by eexists).
  split; [exact H|].
  exact (findPath_same_block CampusData.campusGraph "block_admin" H).
Defined.

(** C10 at [block_mg_auditorium], which [campusGraph] does not list. *)
Lemma findPath_same_unknown_witness :
  CampusData.campusGraph !! "block_mg_auditorium" = None
  ∧ Navigation.findPath CampusData.campusGraph
      "block_mg_auditorium" "block_mg_auditorium"
    = Run (Returned (Some {| Navigation.roads := [];
                             Navigation.nodes := ["block_mg_auditorium"] |})) []
  ∧ Navigation.findPath CampusData.campusGraph
      "block_mg_auditorium" "block_mg_auditorium"
    ≠ Run (Returned None) ["Node not in graph: block_mg_auditorium"].
Proof.
  assert (H : CampusData.campusGraph !! "block_mg_auditorium" = None)
    by (by vm_compute).
  split; [exact H|].
  exact (findPath_same_unknown CampusData.campusGraph "block_mg_auditorium" H).
Defined.

(** C8 from [constructor], a name [campusGraph] has no entry for, to
    [block_admin]: [null], and nothing on the console; and from
    [block_mg_auditorium], which it has no entry for either: [null] with
    the warning. *)
Lemma findPath_start_absent_witness :
  (CampusData.campusGraph !! "constructor" = None
   ∧ "constructor" ≠ "block_admin"
   ∧ "constructor" ∈ Navigation.objectPrototypeNames
   ∧ Navigation.findPath CampusData.campusGraph "constructor" "block_admin"
     = Run (Returned None) [])
  ∧ (CampusData.campusGraph !! "block_mg_auditorium" = None
     ∧ "block_mg_auditorium" ≠ "block_admin"
     ∧ ("block_mg_auditorium" ∉ Navigation.objectPrototypeNames)
     ∧ Navigation.findPath CampusData.campusGraph
         "block_mg_auditorium" "block_admin"
       = Run (Returned None) ["Node not in graph: block_mg_auditorium"]).
Proof.
  assert (Hc : CampusData.campusGraph !! "constructor" = None)
    by (by vm_compute).
  assert (Hcne : "constructor" ≠ "block_admin") by done.
  assert (Hcin : "constructor" ∈ Navigation.objectPrototypeNames)
    by (apply (bool_decide_unpack (_ ∈ _)); by vm_compute).
  assert (Ha : CampusData.campusGraph !! "block_mg_auditorium" = None)
    by (by vm_compute).
  assert (Hane : "block_mg_auditorium" ≠ "block_admin") by done.
  assert (Hain : "block_mg_auditorium" ∉ Navigation.objectPrototypeNames)
    by (apply (bool_decide_unpack (_ ∉ _)); by vm_compute).
  split.
  - split_and!; [exact Hc|exact Hcne|exact Hcin|].
    exact (proj1 (proj2 (findPath_start_absent CampusData.campusGraph
                           "constructor" "block_admin" Hc Hcne) Hcin)).
  - split_and!; [exact Ha|exact Hane|exact Hain|].
    exact (proj1 (findPath_start_absent CampusData.campusGraph
                    "block_mg_auditorium" "block_admin" Ha Hane) Hain).
Defined.

(** C5 (amended) for the lab on the first floor of block [AB1]; the graph
    has a route between the two. *)
Lemma same_building_short_circuit_witness :
  IndexPage.findNode (nodes buildingGraph) (id blockAB1) = Some blockAB1
  ∧ IndexPage.findNode (nodes buildingGraph) (id labAB1) = Some labAB1
  ∧ sameBuildingDistinct blockAB1 labAB1
  ∧ (∃ r, findShortestPath buildingGraph "AB1" "AB1-lab"
          = Run (Returned (Some r)) [])
  ∧ IndexPage.handleNavigateWith findShortestPath (Some buildingGraph)
      emptyPage (id blockAB1) (id labAB1)
    = sameBuildingRun blockAB1 labAB1
  ∧ IndexPage.handleNavigate (Some buildingGraph) emptyPage
      (id blockAB1) (id labAB1)
    = sameBuildingRun blockAB1 labAB1.
Proof.
  assert (H1 : IndexPage.findNode (nodes buildingGraph) (id blockAB1)
               = Some blockAB1) by done.
  assert (H2 : IndexPage.findNode (nodes buildingGraph) (id labAB1)
               = Some labAB1) by done.
  assert (H3 : sameBuildingDistinct blockAB1 labAB1)
    by (split; [done|by left]).
  split_and!; [exact H1|exact H2|exact H3|eexists; by vm_compute|..];
    apply (same_building_short_circuit findShortestPath buildingGraph
             emptyPage blockAB1 labAB1 H1 H2 H3).
Defined.
End Witnesses.

(** ** More about the weighted solver *)

Section ShortestPathFacts.
Import Pathfinding.

Lemma findShortestPath_undeclared (G : Graph) (a b : string) :
  ¬ (declared G a ∧ declared G b) →
  findShortestPath G a b = Run (Returned None) ["Invalid start or end node"].
Proof.
  intros Hn. unfold findShortestPath, findShortestPathFuel.
  rewrite decide_False; [done|].
  intros [Ha Hb]. apply Hn. split; by apply nodeMapOf_declared.
Qed.

Lemma findShortestPath_some_declared (G : Graph) (a b : string) r con :
  findShortestPath G a b = Run (Returned (Some r)) con →
  declared G a ∧ declared G b.
Proof.
  intros Hrun. unfold declared.
  destruct (decide (a ∈ id <$> nodes G ∧ b ∈ id <$> nodes G)) as [?|Hn]; [done|].
  rewrite (findShortestPath_undeclared G a b Hn) in Hrun. discriminate.
Qed.

(** X1.  An id without a node, at either end, is refused before any search:
    the answer is [null] with the message [Invalid start or end node],
    and that message is written in no other case. *)
Theorem findShortestPath_invalid (G : Graph) (a b : string) :
  (¬ (declared G a ∧ declared G b) →
   findShortestPath G a b = Run (Returned None) ["Invalid start or end node"])
  ∧ (declared G a ∧ declared G b →
     "Invalid start or end node" ∉ console (findShortestPath G a b)).
Proof.
  split; [apply findShortestPath_undeclared|]. intros [Ha Hb].
  destruct (findShortestPath_spec G a b Ha Hb)
    as [(_ & p & cs & -> & _)|(_ & ->)]; simpl.
  - by intros ?%elem_of_nil.
  - by intros [=]%list_elem_of_singleton.
Qed.

(** X2.  A returned path is a simple route: it runs from the start to the goal,
    visits no node twice, every step follows an edge, and every node on it
    is a node of the graph. *)
Theorem findShortestPath_simple_route (G : Graph) (a b : string) r con :
  findShortestPath G a b = Run (Returned (Some r)) con →
  head (path r) = Some a ∧ last (path r) = Some b
  ∧ NoDup (path r) ∧ linked G (path r)
  ∧ ∀ v, v ∈ path r → declared G v.
Proof.
  intros Hrun.
  destruct (findShortestPath_some_declared G a b r con Hrun) as [Ha Hb].
  destruct (findShortestPath_spec G a b Ha Hb)
    as [(_ & p & cs & Hp & ? & ? & ? & ? & ? & _)|(_ & Hnone)].
  - rewrite Hp in Hrun. by inversion Hrun; subst.
  - rewrite Hnone in Hrun. discriminate.
Qed.

(** The node registered under an id is the last one declared with it. *)
Lemma nodeMapOf_fold ns :
  ∀ (m : gmap string GraphNode) v,
    foldl (λ m n, <[id n := n]> m) m ns !! v
    = match last (filter (λ n, id n = v) ns) with
      | Some n => Some n
      | None => m !! v
      end.
Proof.
  induction ns as [|n rest IH]; intros m v; [done|].
  simpl foldl. rewrite IH. destruct (decide (id n = v)) as [Hv|Hv].
  - rewrite filter_cons_True by done.
    destruct (filter (λ n0, id n0 = v) rest) as [|n' l] eqn:Hf.
    + simpl. subst v. by rewrite lookup_insert_eq.
    + rewrite last_cons_cons.
      destruct (last (n' :: l)) eqn:Hl; [done|]. by apply last_None in Hl.
  - rewrite filter_cons_False by done.
    destruct (last (filter (λ n0, id n0 = v) rest)); [done|].
    by rewrite lookup_insert_ne.
Qed.

Lemma nodeMapOf_last ns v :
  nodeMapOf ns !! v = last (filter (λ n, id n = v) ns).
Proof.
  unfold nodeMapOf. rewrite nodeMapOf_fold, lookup_empty.
  by destruct (last _).
Qed.

(** X3.  The coordinate list has one point per node of the path, in order: the
    point of the last node declared with that id. *)
Theorem findShortestPath_coordinates (G : Graph) (a b : string) r con :
  findShortestPath G a b = Run (Returned (Some r)) con →
  Forall2 (λ v c, ∃ n, last (filter (λ n, id n = v) (nodes G)) = Some n
                       ∧ c = {| px := x n; py := y n |})
          (path r) (coordinates r).
Proof.
  intros Hrun.
  destruct (findShortestPath_some_declared G a b r con Hrun) as [Ha Hb].
  destruct (findShortestPath_spec G a b Ha Hb)
    as [(_ & p & cs & Hp & _ & _ & _ & _ & _ & Hcs)|(_ & Hnone)].
  - rewrite Hp in Hrun. inversion Hrun; subst. simpl.
    eapply Forall2_impl; [exact Hcs|]. intros v c (n & Hn & ->).
    exists n. by rewrite <- nodeMapOf_last.
  - rewrite Hnone in Hrun. discriminate.
Qed.

(** X4.  From a node to itself the answer is the one-node path. *)
Theorem findShortestPath_same_node (G : Graph) (a : string) :
  declared G a →
  ∃ n, last (filter (λ n, id n = a) (nodes G)) = Some n
       ∧ findShortestPath G a a
         = Run (Returned (Some {| path := [a];
                                  coordinates := [{| px := x n; py := y n |}] |}))
               [].
Proof.
  intros Ha.
  destruct (findShortestPath_spec G a a Ha Ha)
    as [(_ & p & cs & Hp & Hhd & Hlast & Hnd & _ & _ & Hcs)|(Hn & _)];
    [|exfalso; apply Hn, rtc_refl].
  assert (p = [a]) as ->.
  { destruct p as [|p0 p]; [done|]. simpl in Hhd. inversion Hhd; subst p0.
    destruct p as [|p1 p]; [done|]. exfalso.
    apply NoDup_cons in Hnd as [Hnin _]. apply Hnin.
    rewrite last_cons_cons in Hlast. by apply last_Some_elem_of. }
  inversion Hcs as [|? c ? cs' (n & Hn & ->) Hcs']; subst.
  inversion Hcs'; subst. exists n. split; [by rewrite <- nodeMapOf_last|done].
Qed.

(** X5.  [buildAdjacencyList] files an entry under [u] exactly for the edges
    that touch [u], with the other end and the weight of the edge; so the
    table is symmetric. *)
Theorem buildAdjacencyList_entries (es : list GraphEdge) (u : string) (a : Adj) :
  (a ∈ default [] (buildAdjacencyList es !! u)
   ↔ ∃ ed, ed ∈ es ∧ adj_weight a = weight ed
           ∧ ((from ed = u ∧ to ed = node a) ∨ (to ed = u ∧ from ed = node a)))
  ∧ (a ∈ default [] (buildAdjacencyList es !! u)
     ↔ {| node := u; adj_weight := adj_weight a |}
         ∈ default [] (buildAdjacencyList es !! node a)).
Proof.
  rewrite !buildAdjacencyList_lookup.
  assert (Hchar : ∀ u' a',
    a' ∈ adjOf es u'
    ↔ ∃ ed, ed ∈ es ∧ adj_weight a' = weight ed
            ∧ ((from ed = u' ∧ to ed = node a') ∨ (to ed = u' ∧ from ed = node a'))).
  { intros u' a'. split; [apply adjOf_sound|].
    intros (ed & Hin & Hw & Hdir). destruct a' as [v w]. simpl in *. subst w.
    induction es as [|ed' rest IH]; [by apply elem_of_nil in Hin|].
    simpl. rewrite !elem_of_app.
    apply elem_of_cons in Hin as [<-|Hin]; [|right; right; by apply IH].
    destruct Hdir as [[Hf Ht]|[Ht Hf]].
    - left. rewrite decide_True by done. rewrite Ht. apply list_elem_of_here.
    - right. left. rewrite decide_True by done. rewrite Hf.
      apply list_elem_of_here. }
  split; [apply Hchar|]. rewrite !Hchar. simpl.
  split; intros (ed & ? & ? & Hdir); exists ed; naive_solver.
Qed.
End ShortestPathFacts.

(** ** The reverse-route generator in general *)

Section ReverseRouteFacts.
Import CampusData.

Lemma append_cons c (s t : string) : String c s +:+ t = String c (s +:+ t).
Proof. reflexivity. Qed.

Lemma append_nil_l (t : string) : "" +:+ t = t.
Proof. reflexivity. Qed.

Lemma append_nil_r (s : string) : s +:+ "" = s.
Proof. induction s as [|c s IH]; [done|]. by rewrite append_cons, IH. Qed.

Lemma append_assoc (s1 s2 s3 : string) : (s1 +:+ s2) +:+ s3 = s1 +:+ (s2 +:+ s3).
Proof.
  induction s1 as [|c s1 IH]; [done|]. by rewrite !append_cons, IH.
Qed.

(** One character of [key.split("->")]. *)
Lemma splitArrow_step c rest acc :
  splitArrow (String c rest) acc
  = if Ascii.eqb c "-"
    then match rest with
         | String c2 rest' =>
             if Ascii.eqb c2 ">" then acc :: splitArrow rest' ""
             else splitArrow rest (acc +:+ String c "")
         | EmptyString => splitArrow rest (acc +:+ String c "")
         end
    else splitArrow rest (acc +:+ String c "").
Proof.
  destruct c as [[] [] [] [] [] [] [] []]; try reflexivity.
  destruct rest as [|c2 rest']; [reflexivity|].
  destruct c2 as [[] [] [] [] [] [] [] []]; reflexivity.
Qed.

Lemma splitArrow_dashFree a :
  ∀ rest acc, dashFree a = true →
    splitArrow (a +:+ rest) acc = splitArrow rest (acc +:+ a).
Proof.
  induction a as [|c a IH]; intros rest acc Hd.
  - by rewrite append_nil_l, append_nil_r.
  - simpl in Hd. apply andb_true_iff in Hd as [Hc Ha].
    apply negb_true_iff in Hc.
    rewrite append_cons, splitArrow_step, Hc, IH by done.
    by rewrite append_assoc.
Qed.

(** A well-formed key splits into its two names. *)
Lemma splitArrow_routeKey a b :
  dashFree a = true → dashFree b = true →
  splitArrow (routeKey a b) "" = [a; b].
Proof.
  intros Ha Hb. unfold routeKey.
  rewrite splitArrow_dashFree, append_nil_l by done.
  change ("->" +:+ b) with (String "-" (String ">" b)).
  rewrite splitArrow_step. cbn [Ascii.eqb Bool.eqb].
  rewrite <- (append_nil_r b) at 1.
  by rewrite splitArrow_dashFree, append_nil_l by done.
Qed.

Lemma reverseKeyOf_routeKey a b :
  dashFree a = true → dashFree b = true →
  reverseKeyOf (routeKey a b) = routeKey b a.
Proof.
  intros Ha Hb. unfold reverseKeyOf. by rewrite splitArrow_routeKey.
Qed.

Lemma routeKey_inj a b a' b' :
  dashFree a = true → dashFree a' = true →
  routeKey a b = routeKey a' b' → a = a' ∧ b = b'.
Proof.
  unfold routeKey. revert a'.
  induction a as [|c a IH]; intros [|c' a'] Ha Ha' Heq;
    rewrite ?append_cons, ?append_nil_l in Heq; simpl in Ha, Ha'.
  - by inversion Heq.
  - change ("->" +:+ b) with (String "-" (String ">" b)) in Heq.
    inversion Heq; subst. by rewrite Ascii.eqb_refl in Ha'.
  - change ("->" +:+ b') with (String "-" (String ">" b')) in Heq.
    inversion Heq; subst. by rewrite Ascii.eqb_refl in Ha.
  - inversion Heq as [[Hc Hrest]]; subst.
    apply andb_true_iff in Ha as [_ Ha]. apply andb_true_iff in Ha' as [_ Ha'].
    by destruct (IH a' Ha Ha' Hrest) as [-> ->].
Qed.

Lemma objGet_objSet {V : Type} (o : Obj V) k v k' :
  objGet (objSet o k v) k' = if decide (k = k') then Some v else objGet o k'.
Proof.
  induction o as [|[k0 v0] o IH]; simpl.
  - by destruct (decide (k = k')).
  - destruct (decide (k0 = k)) as [->|Hne]; simpl.
    + by destruct (decide (k = k')).
    + rewrite IH. destruct (decide (k0 = k')) as [->|?]; [|done].
      by rewrite decide_False.
Qed.

Lemma objGet_None {V : Type} (o : Obj V) k :
  objGet o k = None ↔ k ∉ o.*1.
Proof.
  induction o as [|[k0 v0] o IH]; simpl.
  - split; [intros _ ?%elem_of_nil; done|done].
  - rewrite not_elem_of_cons. destruct (decide (k0 = k)) as [->|Hne].
    + split; [done|by intros [? _]].
    + rewrite IH. naive_solver.
Qed.

Lemma objGet_Some_elem {V : Type} (o : Obj V) k v :
  objGet o k = Some v → (k, v) ∈ o.
Proof.
  induction o as [|[k0 v0] o IH]; simpl; [done|].
  destruct (decide (k0 = k)) as [->|Hne].
  - intros [= ->]. apply list_elem_of_here.
  - intros H. by apply list_elem_of_further, IH.
Qed.

Lemma objGet_elem_NoDup {V : Type} (o : Obj V) k v :
  NoDup o.*1 → (k, v) ∈ o → objGet o k = Some v.
Proof.
  induction o as [|[k0 v0] o IH]; simpl; [by intros _ ?%elem_of_nil|].
  intros [Hk0 Hnd]%NoDup_cons Hin.
  apply elem_of_cons in Hin as [[= -> ->]|Hin].
  - by rewrite decide_True.
  - rewrite decide_False; [by apply IH|].
    intros ->. apply Hk0. apply list_elem_of_fmap. by exists (k, v).
Qed.

Lemma objGet_app_l {V : Type} (o o' : Obj V) k v :
  objGet o k = Some v → objGet (o ++ o') k = Some v.
Proof.
  induction o as [|[k0 v0] o IH]; simpl; [done|].
  by destruct (decide (k0 = k)).
Qed.

Lemma objGet_app_r {V : Type} (o o' : Obj V) k :
  objGet o k = None → objGet (o ++ o') k = objGet o' k.
Proof.
  induction o as [|[k0 v0] o IH]; simpl; [done|].
  by destruct (decide (k0 = k)).
Qed.

Lemma objSet_fresh {V : Type} (o : Obj V) k v :
  objGet o k = None → objSet o k v = o ++ [(k, v)].
Proof.
  induction o as [|[k0 v0] o IH]; simpl; [done|].
  destruct (decide (k0 = k)); [done|]. intros H. by rewrite IH.
Qed.

Lemma objSet_keys_NoDup {V : Type} (o : Obj V) k v :
  NoDup o.*1 → NoDup (objSet o k v).*1.
Proof.
  induction o as [|[k0 v0] o IH]; simpl.
  - intros _. apply NoDup_singleton.
  - intros [Hk0 Hnd]%NoDup_cons. destruct (decide (k0 = k)) as [->|Hne]; simpl.
    + by apply NoDup_cons.
    + apply NoDup_cons. split; [|by apply IH].
      intros Hin. apply Hk0. apply objGet_None in Hk0 as Hnone.
      assert (objGet (objSet o k v) k0 = None) as Hn'
        by (by rewrite objGet_objSet, decide_False).
      by apply objGet_None in Hn'.
Qed.

(** [Object.assign] with keys the target does not have appends them. *)
Lemma objAssign_fresh {V : Type} (source : Obj V) :
  ∀ target, NoDup source.*1 →
    (∀ k, k ∈ source.*1 → objGet target k = None) →
    objAssign target source = target ++ source.
Proof.
  unfold objAssign.
  induction source as [|[k v] source IH]; intros target Hnd Hfresh; simpl.
  - by rewrite app_nil_r.
  - apply NoDup_cons in Hnd as [Hk Hnd].
    rewrite objSet_fresh by (apply Hfresh, list_elem_of_here).
    rewrite IH; [by rewrite <- app_assoc|done|].
    intros k' Hk'. rewrite objGet_app_r by (by apply Hfresh, list_elem_of_further).
    simpl. rewrite decide_False; [done|]. by intros ->.
Qed.

(** What the loop of [generateReverseRoutes] leaves in [reverseRoutes]. *)
Lemma reverseRoutesLoop_spec entries pr :
  ∀ rr,
    NoDup rr.*1 →
    NoDup (reverseRoutesLoop entries pr rr).*1
    ∧ (∀ k v, objGet (reverseRoutesLoop entries pr rr) k = Some v →
         objGet rr k = Some v
         ∨ (objGet pr k = None
            ∧ ∃ key roads, (key, roads) ∈ entries
                           ∧ k = reverseKeyOf key ∧ v = rev roads))
    ∧ (∀ k, is_Some (objGet rr k) →
         is_Some (objGet (reverseRoutesLoop entries pr rr) k))
    ∧ (∀ key roads, (key, roads) ∈ entries →
         objGet pr (reverseKeyOf key) = None →
         is_Some (objGet (reverseRoutesLoop entries pr rr) (reverseKeyOf key))).
Proof.
  induction entries as [|[key0 roads0] rest IH]; intros rr Hnd; simpl.
  - split_and!; [done|by left|done|by intros ?? ?%elem_of_nil].
  - destruct (objGet pr (reverseKeyOf key0)) eqn:Hpr.
    + destruct (IH rr Hnd) as (H1 & H2 & H3 & H4). split_and!; [done| |done|].
      * intros k v Hk. destruct (H2 k v Hk) as [?|(? & key & roads & ? & ? & ?)];
          [by left|]. right. split; [done|]. exists key, roads.
        split; [by apply list_elem_of_further|done].
      * intros key roads Hin Hnone.
        apply elem_of_cons in Hin as [[= -> ->]|Hin]; [congruence|by apply (H4 key roads)].
    + destruct (IH (objSet rr (reverseKeyOf key0) (rev roads0))
                  (objSet_keys_NoDup _ _ _ Hnd)) as (H1 & H2 & H3 & H4).
      split_and!; [done| | |].
      * intros k v Hk. destruct (H2 k v Hk) as [Hs|(? & key & roads & ? & ? & ?)].
        -- rewrite objGet_objSet in Hs.
           destruct (decide (reverseKeyOf key0 = k)) as [<-|?]; [|by left].
           right. split; [done|]. exists key0, roads0.
           split; [apply list_elem_of_here|]. by inversion Hs.
        -- right. split; [done|]. exists key, roads.
           split; [by apply list_elem_of_further|done].
      * intros k Hk. apply H3. rewrite objGet_objSet.
        by destruct (decide (reverseKeyOf key0 = k)).
      * intros key roads Hin Hnone.
        apply elem_of_cons in Hin as [[= -> ->]|Hin]; [|by apply (H4 key roads)].
        apply H3. by rewrite objGet_objSet, decide_True.
Qed.

(** A reverse that is recorded stays, as long as the later routes with the
    same reverse key carry the same roads. *)
Lemma reverseRoutesLoop_keep entries pr k R :
  ∀ rr,
    objGet rr k = Some (rev R) →
    (∀ key roads, (key, roads) ∈ entries → reverseKeyOf key = k → roads = R) →
    objGet (reverseRoutesLoop entries pr rr) k = Some (rev R).
Proof.
  induction entries as [|[key0 roads0] rest IH]; intros rr Hk Hsame; simpl; [done|].
  assert (Hrest : ∀ key roads, (key, roads) ∈ rest → reverseKeyOf key = k → roads = R)
    by (intros key roads ?; by apply Hsame, list_elem_of_further).
  destruct (objGet pr (reverseKeyOf key0)); [by apply IH|].
  apply IH; [|done]. rewrite objGet_objSet.
  destruct (decide (reverseKeyOf key0 = k)) as [Heq|?]; [|done].
  by rewrite (Hsame key0 roads0 (list_elem_of_here _ _) Heq).
Qed.

Lemma reverseRoutesLoop_value entries pr key roads :
  ∀ rr,
    (key, roads) ∈ entries →
    objGet pr (reverseKeyOf key) = None →
    (∀ key' roads', (key', roads') ∈ entries →
       reverseKeyOf key' = reverseKeyOf key → roads' = roads) →
    objGet (reverseRoutesLoop entries pr rr) (reverseKeyOf key) = Some (rev roads).
Proof.
  induction entries as [|[key0 roads0] rest IH]; intros rr Hin Hnone Hsame;
    [by apply elem_of_nil in Hin|].
  assert (Hrest : ∀ key' roads', (key', roads') ∈ rest →
                    reverseKeyOf key' = reverseKeyOf key → roads' = roads)
    by (intros key' roads' ?; by apply Hsame, list_elem_of_further).
  simpl. apply elem_of_cons in Hin as [[= <- <-]|Hin].
  - rewrite Hnone. apply reverseRoutesLoop_keep; [|done].
    by rewrite objGet_objSet, decide_True.
  - destruct (objGet pr (reverseKeyOf key0)); by apply IH.
Qed.

Lemma generateReverseRoutes_split (pr : Obj (list string)) :
  ∃ added,
    generateReverseRoutes pr = pr ++ added
    ∧ added = reverseRoutesLoop pr pr []
    ∧ NoDup added.*1
    ∧ ∀ k v, (k, v) ∈ added →
        objGet pr k = None
        ∧ ∃ key roads, (key, roads) ∈ pr ∧ k = reverseKeyOf key ∧ v = rev roads.
Proof.
  destruct (reverseRoutesLoop_spec pr pr [] (NoDup_nil_2 : NoDup ([] : Obj (list string)).*1))
    as (Hnd & Hsrc & _ & _).
  set (added := reverseRoutesLoop pr pr []) in *.
  assert (Hadded : ∀ k v, (k, v) ∈ added →
            objGet pr k = None
            ∧ ∃ key roads, (key, roads) ∈ pr ∧ k = reverseKeyOf key ∧ v = rev roads).
  { intros k v Hin. apply (objGet_elem_NoDup _ _ _ Hnd) in Hin.
    by destruct (Hsrc k v Hin) as [?|?]. }
  exists added. split; [|done].
  unfold generateReverseRoutes. fold added. apply objAssign_fresh; [done|].
  intros k Hk. apply list_elem_of_fmap in Hk as ([k' v] & -> & Hin).
  by destruct (Hadded k' v Hin).
Qed.

(** X6.  [generateReverseRoutes] leaves the table it was given in place and
    appends to it, so a route already there is never replaced.  Every
    appended entry sits under a key the table did not have, no key is
    appended twice, and each holds the roads of some route of the table,
    reversed, under that route's reversed key. *)
Theorem generateReverseRoutes_appends (pr : Obj (list string)) :
  ∃ added,
    generateReverseRoutes pr = pr ++ added
    ∧ NoDup added.*1
    ∧ (∀ k v, (k, v) ∈ added →
         objGet pr k = None
         ∧ ∃ key roads, (key, roads) ∈ pr ∧ k = reverseKeyOf key ∧ v = rev roads)
    ∧ (∀ k v, objGet pr k = Some v →
         objGet (generateReverseRoutes pr) k = Some v).
Proof.
  destruct (generateReverseRoutes_split pr) as (added & Hgen & _ & Hnd & Hadded).
  exists added. split_and!; [done..|].
  intros k v Hk. rewrite Hgen. by apply objGet_app_l.
Qed.

(** X7.  In a well-formed table, a route [a->b] whose reverse key is free gets
    the entry [b->a] with exactly its roads in reverse order. *)
Theorem generateReverseRoutes_reverse (pr : Obj (list string)) a b roads :
  wellFormedRoutes pr →
  dashFree a = true → dashFree b = true →
  (routeKey a b, roads) ∈ pr →
  objGet pr (routeKey b a) = None →
  objGet (generateReverseRoutes pr) (routeKey b a) = Some (rev roads).
Proof.
  intros [Hnd Hwf] Ha Hb Hin Hfree.
  destruct (generateReverseRoutes_split pr) as (added & -> & -> & _ & _).
  rewrite objGet_app_r by done.
  rewrite <- (reverseKeyOf_routeKey a b) in * by done.
  apply reverseRoutesLoop_value; [done|done|].
  intros key' roads' Hin' Hrk.
  assert (key' ∈ pr.*1) as Hk'
    by (apply list_elem_of_fmap; by exists (key', roads')).
  destruct (Hwf key' Hk') as (a' & b' & Ha' & Hb' & ->).
  rewrite !reverseKeyOf_routeKey in Hrk by done.
  destruct (routeKey_inj _ _ _ _ Hb' Hb Hrk) as [-> ->].
  apply (objGet_elem_NoDup _ _ _ Hnd) in Hin, Hin'. congruence.
Qed.

Lemma reverseRoutesLoop_nothing entries pr :
  ∀ rr,
    (∀ key, key ∈ entries.*1 → is_Some (objGet pr (reverseKeyOf key))) →
    reverseRoutesLoop entries pr rr = rr.
Proof.
  induction entries as [|[key0 roads0] rest IH]; intros rr Hall; simpl; [done|].
  destruct (Hall key0 (list_elem_of_here _ _)) as [r ->].
  apply IH. intros key Hk. by apply Hall, list_elem_of_further.
Qed.

(** X8.  On a well-formed table a second run changes nothing, and the result
    of a run is well formed again. *)
Theorem generateReverseRoutes_idempotent (pr : Obj (list string)) :
  wellFormedRoutes pr →
  wellFormedRoutes (generateReverseRoutes pr)
  ∧ generateReverseRoutes (generateReverseRoutes pr) = generateReverseRoutes pr.
Proof.
  intros [Hnd Hwf].
  destruct (generateReverseRoutes_split pr) as (added & Hgen & Hdef & Hnda & Hadded).
  destruct (reverseRoutesLoop_spec pr pr []
              (NoDup_nil_2 : NoDup ([] : Obj (list string)).*1))
    as (_ & _ & _ & Hcomplete).
  rewrite <- Hdef in Hcomplete.
  assert (Hkeys : ∀ key, key ∈ (pr ++ added).*1 →
            ∃ from to, dashFree from = true ∧ dashFree to = true
                       ∧ key = routeKey from to).
  { intros key Hk. rewrite fmap_app in Hk. apply elem_of_app in Hk as [Hk|Hk];
      [by apply Hwf|].
    apply list_elem_of_fmap in Hk as ([k v] & -> & Hin).
    destruct (Hadded k v Hin) as (_ & key0 & roads0 & Hin0 & -> & _).
    assert (key0 ∈ pr.*1) as Hk0
      by (apply list_elem_of_fmap; by exists (key0, roads0)).
    destruct (Hwf key0 Hk0) as (a & b & Ha & Hb & ->).
    exists b, a. by rewrite reverseKeyOf_routeKey. }
  assert (Hwf' : wellFormedRoutes (pr ++ added)).
  { split; [|done]. rewrite fmap_app. apply NoDup_app. split_and!; [done| |done].
    intros k Hk Hk'. apply list_elem_of_fmap in Hk' as ([k' v] & -> & Hin).
    destruct (Hadded k' v Hin) as [Hnone _]. by apply objGet_None in Hnone. }
  rewrite Hgen. split; [done|].
  unfold generateReverseRoutes. rewrite reverseRoutesLoop_nothing; [done|].
  intros key Hk. rewrite fmap_app in Hk. apply elem_of_app in Hk as [Hk|Hk].
  - apply list_elem_of_fmap in Hk as ([k roads] & -> & Hin). simpl.
    destruct (objGet pr (reverseKeyOf k)) as [r|] eqn:Hpr.
    + exists r. by apply objGet_app_l.
    + rewrite objGet_app_r by done. by apply (Hcomplete k roads).
  - apply list_elem_of_fmap in Hk as ([k v] & -> & Hin). simpl.
    destruct (Hadded k v Hin) as (_ & key0 & roads0 & Hin0 & -> & _).
    assert (key0 ∈ pr.*1) as Hk0
      by (apply list_elem_of_fmap; by exists (key0, roads0)).
    destruct (Hwf key0 Hk0) as (a & b & Ha & Hb & ->).
    rewrite !reverseKeyOf_routeKey by done.
    exists roads0. apply objGet_app_l. by apply objGet_elem_NoDup.
Qed.
End ReverseRouteFacts.

(** ** The nearest-node scan in general *)

Section NearestFacts.
Import Navigation.
Context {number : Type}.
Variable infinity : number.
Variable lt : number → number → bool.
Variable haversineDistance : number → number → number → number → number.

(** [<] as it is on numbers other than [NaN]: a strict weak order. *)
Hypothesis lt_irrefl : ∀ x, lt x x = false.
Hypothesis lt_trans : ∀ x y z, lt x y = true → lt y z = true → lt x z = true.
Hypothesis lt_cotrans :
  ∀ x y z, lt x z = true → lt x y = true ∨ lt y z = true.

Lemma scanNodes_spec lat0 lng0 entries :
  ∀ nearest minDistance nearestId,
    let d := λ n : CampusNode, haversineDistance lat0 lng0 (lat n) (lng n) in
    let r := scanNodes lt haversineDistance entries lat0 lng0
               nearest minDistance nearestId in
    (r = {| nodeId := nearestId; node := nearest; distance := minDistance |}
     ∧ ∀ e, e ∈ entries → lt (d e.2) minDistance = false)
    ∨ (∃ pre k n post,
         entries = pre ++ (k, n) :: post
         ∧ r = {| nodeId := Some k; node := Some n; distance := d n |}
         ∧ lt (d n) minDistance = true
         ∧ (∀ e, e ∈ pre → lt (d n) (d e.2) = true)
         ∧ (∀ e, e ∈ post → lt (d e.2) (d n) = false)).
Proof.
  induction entries as [|[k0 n0] rest IH]; intros nearest m nid d r.
  - left. split; [done|]. by intros e ?%elem_of_nil.
  - subst r. simpl.
    destruct (lt (haversineDistance lat0 lng0 (lat n0) (lng n0)) m) eqn:Hlt.
    + destruct (IH (Some n0) (d n0) (Some k0))
        as [[Hr Hall]|(pre & k & n & post & -> & Hr & Hn & Hpre & Hpost)].
      * right. exists [], k0, n0, rest. split_and!; try done.
        by intros e ?%elem_of_nil.
      * right. exists ((k0, n0) :: pre), k, n, post. split_and!; try done.
        -- by apply lt_trans with (d n0).
        -- intros e [->|He]%elem_of_cons; [done|by apply Hpre].
    + destruct (IH nearest m nid)
        as [[Hr Hall]|(pre & k & n & post & -> & Hr & Hn & Hpre & Hpost)].
      * left. split; [done|].
        intros e [->|He]%elem_of_cons; [done|by apply Hall].
      * right. exists ((k0, n0) :: pre), k, n, post. split_and!; try done.
        intros e [->|He]%elem_of_cons; [|by apply Hpre]. simpl.
        destruct (lt_cotrans _ (d n0) _ Hn) as [?|Hc]; [done|].
        unfold d in Hc. congruence.
Qed.

(** X9.  [findNearestNode] returns the first entry of the table at which the
    smallest distance is reached: it is strictly nearer than every entry
    before it and no entry is strictly nearer than it.  Only when no
    entry is nearer than [Infinity] does it return the empty answer. *)
Theorem findNearestNode_first_minimum
    (campusNodes : list (string * CampusNode)) (lat0 lng0 : number) :
  let d := λ n : CampusNode, haversineDistance lat0 lng0 (lat n) (lng n) in
  let r := findNearestNode infinity lt haversineDistance campusNodes lat0 lng0 in
  (r = {| nodeId := None; node := None; distance := infinity |}
   ∧ ∀ e, e ∈ campusNodes → lt (d e.2) infinity = false)
  ∨ (∃ pre k n post,
       campusNodes = pre ++ (k, n) :: post
       ∧ r = {| nodeId := Some k; node := Some n; distance := d n |}
       ∧ lt (d n) infinity = true
       ∧ (∀ e, e ∈ pre → lt (d n) (d e.2) = true)
       ∧ (∀ e, e ∈ campusNodes → lt (d e.2) (d n) = false)).
Proof.
  intros d r.
  destruct (scanNodes_spec lat0 lng0 campusNodes None infinity None)
    as [?|(pre & k & n & post & Heq & Hr & Hn & Hpre & Hpost)]; [by left|].
  right. exists pre, k, n, post. split_and!; try done.
  intros e He. rewrite Heq in He.
  apply elem_of_app in He as [He|[->|He]%elem_of_cons].
  - destruct (lt (d e.2) (d n)) eqn:Hc; [|done].
    pose proof (lt_trans _ _ _ (Hpre e He) Hc) as Hbad.
    by rewrite lt_irrefl in Hbad.
  - apply lt_irrefl.
  - by apply Hpost.
Qed.
End NearestFacts.

(** ** The route handler as a whole *)

Section HandleNavigateFacts.
Import Pathfinding IndexPage.

Lemma findNode_Some ns a n :
  findNode ns a = Some n → n ∈ ns ∧ id n = a.
Proof.
  unfold findNode. intros Hf. apply List.find_some in Hf as [Hin Hid].
  split; [by apply list_elem_of_In|]. by apply bool_decide_eq_true in Hid.
Qed.

Lemma findNode_declared (G : Graph) a n :
  findNode (nodes G) a = Some n → declared G a.
Proof.
  intros [Hin <-]%findNode_Some. unfold declared.
  apply list_elem_of_fmap. by exists n.
Qed.

(** X10.  A request between two nodes of different buildings that the graph
    connects, with the weights in the range where the program's sums are
    exact, ends with a path from the start to the goal on display, both
    nodes selected, no error and the spinner off. *)
Theorem handleNavigate_route (G : Graph) (st : PageState) (a b : string)
    (startNode endNode : GraphNode) :
  findNode (nodes G) a = Some startNode →
  findNode (nodes G) b = Some endNode →
  a ≠ b →
  isStartInBlock startNode b || isEndInBlock endNode a
    || areInSameBlock startNode endNode = false →
  safeWeights G →
  connected G a b →
  ∃ r,
    handleNavigate (Some G) st a b
    = Run (Returned {| pathResult := Some r;
                       isCalculating := false;
                       navigationError := None;
                       selectedStart := Some startNode;
                       selectedEnd := Some endNode |}) []
    ∧ head (path r) = Some a ∧ last (path r) = Some b.
Proof.
  intros Ha Hb Hne Hblock _ Hcon.
  destruct (findShortestPath_spec G a b (findNode_declared G a _ Ha)
              (findNode_declared G b _ Hb))
    as [(_ & p & cs & Hrun & Hhd & Hlast & _)|(Hn & _)]; [|done].
  exists {| path := p; coordinates := cs |}. split; [|done].
  unfold handleNavigate, handleNavigateWith.
  rewrite Ha, Hb, decide_False, Hblock, Hrun by done. done.
Qed.

(** X11.  When the graph has no route between the two nodes, the request ends
    with the message [No path found between these locations]; the path
    and the selection shown before stay as they were. *)
Theorem handleNavigate_no_route (G : Graph) (st : PageState) (a b : string)
    (startNode endNode : GraphNode) :
  findNode (nodes G) a = Some startNode →
  findNode (nodes G) b = Some endNode →
  isStartInBlock startNode b || isEndInBlock endNode a
    || areInSameBlock startNode endNode = false →
  ¬ connected G a b →
  handleNavigate (Some G) st a b
  = Run (Returned {| pathResult := pathResult st;
                     isCalculating := false;
                     navigationError :=
                       Some "No path found between these locations";
                     selectedStart := selectedStart st;
                     selectedEnd := selectedEnd st |})
        ["No path found between nodes"].
Proof.
  intros Ha Hb Hblock Hn.
  assert (a ≠ b) as Hne by (intros ->; apply Hn, rtc_refl).
  destruct (findShortestPath_spec G a b (findNode_declared G a _ Ha)
              (findNode_declared G b _ Hb))
    as [(Hc & _)|(_ & Hrun)]; [done|].
  unfold handleNavigate, handleNavigateWith.
  rewrite Ha, Hb, decide_False, Hblock, Hrun by done. done.
Qed.

(** X12.  [handleNavigate] always returns a state: the solver it calls neither
    throws nor runs out.  The spinner is switched off exactly when both
    ids resolve to nodes; with an id the graph does not have, the request
    stops with the spinner on and nothing else set. *)
Theorem handleNavigate_returns (G : Graph) (st : PageState) (a b : string) :
  ∃ st',
    result (handleNavigate (Some G) st a b) = Returned st'
    ∧ (isCalculating st' = false
       ↔ is_Some (findNode (nodes G) a) ∧ is_Some (findNode (nodes G) b))
    ∧ (findNode (nodes G) a = None ∨ findNode (nodes G) b = None →
       handleNavigate (Some G) st a b
       = Run (Returned {| pathResult := pathResult st;
                          isCalculating := true;
                          navigationError := None;
                          selectedStart := selectedStart st;
                          selectedEnd := selectedEnd st |}) []).
Proof.
  unfold handleNavigate, handleNavigateWith.
  destruct (findNode (nodes G) a) as [startNode|] eqn:Ha;
    [destruct (findNode (nodes G) b) as [endNode|] eqn:Hb|].
  - destruct (decide (a = b)) as [Heq|Hne].
    { eexists. split; [done|]. simpl. split; [by split|naive_solver]. }
    destruct (isStartInBlock startNode b || isEndInBlock endNode a
              || areInSameBlock startNode endNode).
    { eexists. split; [done|]. simpl. split; [by split|naive_solver]. }
    destruct (findShortestPath_spec G a b (findNode_declared G a _ Ha)
                (findNode_declared G b _ Hb))
      as [(_ & p & cs & -> & _)|(_ & ->)]; simpl;
      (eexists; split; [done|]; simpl; split; [by split|naive_solver]).
  - eexists. split; [done|]. simpl. split; [|done].
    split; [done|]. by intros [_ [? ?]].
  - eexists. split; [done|]. simpl. split; [|done].
    split; [done|]. by intros [[? ?] _].
Qed.
End HandleNavigateFacts.

(** ** Grouping the locations by type *)

Section UseGraphFacts.
Import Pathfinding CampusData UseGraph.

Lemma objSet_objSet {V : Type} (o : Obj V) k v v' :
  objSet (objSet o k v) k v' = objSet o k v'.
Proof.
  induction o as [|[k0 v0] o IH]; simpl.
  - by rewrite decide_True.
  - destruct (decide (k0 = k)) as [->|Hne]; simpl.
    + by rewrite decide_True.
    + by rewrite decide_False, IH.
Qed.

Lemma groupStep_set acc n :
  groupStep acc n
  = objSet acc (typeName (type n))
      (default [] (objGet acc (typeName (type n))) ++ [n]).
Proof.
  unfold groupStep. destruct (objGet acc (typeName (type n))) as [l|] eqn:Hk.
  - by rewrite Hk.
  - by rewrite objGet_objSet, decide_True, objSet_objSet.
Qed.

Lemma concat_objSet_fresh {V : Type} (o : Obj (list V)) k l :
  objGet o k = None → concat (objSet o k l).*2 ≡ₚ l ++ concat o.*2.
Proof.
  intros Hk. rewrite objSet_fresh by done.
  rewrite fmap_app, concat_app. simpl. rewrite app_nil_r.
  apply Permutation_app_comm.
Qed.

Lemma concat_objSet_push {V : Type} (o : Obj (list V)) k l x :
  objGet o k = Some l →
  concat (objSet o k (l ++ [x])).*2 ≡ₚ x :: concat o.*2.
Proof.
  induction o as [|[k0 v0] o IH]; simpl; [done|].
  destruct (decide (k0 = k)) as [->|Hne]; simpl.
  - intros [= ->]. rewrite <- app_assoc. simpl.
    by rewrite <- Permutation_middle.
  - intros Hk. rewrite (IH Hk). by rewrite <- Permutation_middle.
Qed.

Lemma foldl_groupStep ns :
  ∀ acc k,
    objGet (foldl groupStep acc ns) k
    = match default [] (objGet acc k)
            ++ filter (λ n, typeName (type n) = k) ns with
      | [] => objGet acc k
      | l => Some l
      end.
Proof.
  induction ns as [|n ns IH]; intros acc k; simpl.
  - rewrite app_nil_r. by destruct (objGet acc k) as [[|??]|].
  - rewrite IH, groupStep_set, objGet_objSet.
    destruct (decide (typeName (type n) = k)) as [Hk|Hk].
    + rewrite filter_cons_True by done. subst k.
      destruct (objGet acc (typeName (type n))) as [l|]; simpl; [|done].
      rewrite <- app_assoc. simpl. by destruct l.
    + by rewrite filter_cons_False by done.
Qed.

Lemma foldl_groupStep_perm ns :
  ∀ acc, concat (foldl groupStep acc ns).*2 ≡ₚ concat acc.*2 ++ ns.
Proof.
  induction ns as [|n ns IH]; intros acc; simpl.
  - by rewrite app_nil_r.
  - rewrite IH, groupStep_set.
    destruct (objGet acc (typeName (type n))) as [l|] eqn:Hk; simpl.
    + rewrite (concat_objSet_push _ _ _ _ Hk). by rewrite <- Permutation_middle.
    + rewrite (concat_objSet_fresh _ _ _ Hk). simpl.
      by rewrite <- Permutation_middle.
Qed.

(** X13.  [locationsByType] files the selectable nodes by type: the group under
    a type name is the list of the locations of that type, in their
    order, and is missing when there is none; junctions are in no group;
    and all groups together hold every location exactly once. *)
Theorem locationsByType_groups (graph : option Graph) :
  (∀ k, objGet (locationsByType graph) k
        = match filter (λ n, typeName (type n) = k) (locations graph) with
          | [] => None
          | l => Some l
          end)
  ∧ objGet (locationsByType graph) "junction" = None
  ∧ concat (locationsByType graph).*2 ≡ₚ locations graph
  ∧ ∀ n, n ∈ locations graph ↔
         (∃ g, graph = Some g ∧ n ∈ nodes g) ∧ type n ≠ junction.
Proof.
  assert (Hget : ∀ k, objGet (locationsByType graph) k
            = match filter (λ n, typeName (type n) = k) (locations graph) with
              | [] => None
              | l => Some l
              end).
  { intros k. unfold locationsByType. by rewrite foldl_groupStep. }
  split_and!; [done| | |].
  - rewrite Hget.
    destruct (filter _ (locations graph)) as [|n l] eqn:Hf; [done|].
    assert (n ∈ filter (λ n, typeName (type n) = "junction") (locations graph))
      as Hn by (rewrite Hf; apply list_elem_of_here).
    apply list_elem_of_filter in Hn as [Hj Hn].
    destruct graph as [g|]; simpl in Hn; [|by apply elem_of_nil in Hn].
    by apply list_elem_of_filter in Hn as [? _].
  - unfold locationsByType. by rewrite foldl_groupStep_perm.
  - intros n. destruct graph as [g|]; simpl.
    + rewrite list_elem_of_filter. split.
      * intros [Ht Hn]. split; [by exists g|]. intros Hj. by rewrite Hj in Ht.
      * intros [(g' & [= <-] & Hn) Ht]. split; [|done].
        by destruct (type n).
    + split; [by intros ?%elem_of_nil|by intros [(? & ? & _) _]].
Qed.
End UseGraphFacts.

(** ** The breadth-first solver: shape and length of the answer *)

Section BfsShape.
Import Navigation.
Variable g : CampusGraph.

(** The neighbour loop, entry by entry: the queue grows by one entry for
    each neighbour that was not marked, and exactly those get marked. *)
Lemma visitNeighbors_fresh entries path vn :
  ∀ visited queue visited' queue',
    visitNeighbors entries path vn visited queue = (visited', queue') →
    ∃ new,
      queue' = queue ++ new
      ∧ visited' = list_to_set (q_node <$> new) ∪ visited
      ∧ NoDup (q_node <$> new)
      ∧ ∀ it, it ∈ new →
          (q_node it ∉ visited) ∧ q_nodes it = vn ++ [q_node it].
Proof.
  induction entries as [|[m r] rest IH]; intros visited queue visited' queue' Hrun;
    simpl in Hrun.
  - inversion Hrun; subst. exists []. rewrite app_nil_r. split_and!; try done.
    + set_solver.
    + constructor.
    + by intros it ?%elem_of_nil.
  - destruct (decide (m ∈ visited)) as [Hm|Hm]; [by apply IH|].
    apply IH in Hrun as (new & -> & -> & Hnd & Hnew).
    exists ({| q_node := m; q_path := path ++ r; q_nodes := vn ++ [m] |} :: new).
    split_and!.
    + by rewrite <- app_assoc.
    + simpl. set_solver.
    + simpl. apply NoDup_cons. split; [|done].
      intros Hin. apply list_elem_of_fmap in Hin as (it & Heq & Hit).
      destruct (Hnew it Hit) as [Hn _]. apply Hn. rewrite <- Heq. set_solver.
    + intros it [->|Hit]%elem_of_cons; [done|].
      destruct (Hnew it Hit) as [Hn ?]. split; [|done]. set_solver.
Qed.

Lemma bfsLoop_NoDup e fuel :
  ∀ queue visited r,
    (∀ it, it ∈ queue →
       NoDup (q_nodes it) ∧ ∀ x, x ∈ q_nodes it → x ∈ visited) →
    bfsLoop fuel g e queue visited = Returned (Some r) →
    NoDup (nodes r).
Proof.
  induction fuel as [|fuel IH]; intros queue visited r Hinv Hrun;
    destruct queue as [|item queue]; simpl in Hrun; try done.
  destruct (decide (q_node item = e)).
  { inversion Hrun; subst. simpl. by apply (Hinv item), list_elem_of_here. }
  destruct (Hinv item (list_elem_of_here _ _)) as [Hnd Hsub].
  destruct (neighborsOf g (q_node item)) as [nb|].
  - destruct (visitNeighbors nb (q_path item) (q_nodes item) visited queue)
      as [visited' queue'] eqn:Hvn.
    apply visitNeighbors_fresh in Hvn as (new & -> & -> & _ & Hnew).
    eapply IH; [|exact Hrun].
    intros it [Hit|Hit]%elem_of_app.
    + destruct (Hinv it (list_elem_of_further _ _ _ Hit)) as [? Hs].
      split; [done|]. intros x Hx. apply elem_of_union_r. by apply Hs.
    + destruct (Hnew it Hit) as [Hfresh ->]. split.
      * apply NoDup_app. split_and!; [done| |apply NoDup_singleton].
        intros x Hx ->%list_elem_of_singleton. by apply Hfresh, Hsub.
      * intros x [Hx| ->%list_elem_of_singleton]%elem_of_app.
        -- apply elem_of_union_r. by apply Hsub.
        -- apply elem_of_union_l, elem_of_list_to_set, list_elem_of_fmap.
           by exists it.
  - eapply IH; [|exact Hrun]. intros it Hit.
    by apply Hinv, list_elem_of_further.
Qed.

Lemma findPath_some_present a b r con :
  findPath g a b = Run (Returned (Some r)) con →
  a = b ∨ (a ≠ b ∧ is_Some (g !! a)).
Proof.
  intros Hrun. destruct (decide (a = b)) as [?|Hne]; [by left|].
  destruct (g !! a) eqn:Ha; [by right|]. exfalso.
  destruct (decide (a ∈ objectPrototypeNames)) as [Hin|Hplain].
  - rewrite (findPath_absent_inherited g a b Ha Hin Hne) in Hrun. discriminate.
  - rewrite (findPath_absent_plain g a b Ha Hplain Hne) in Hrun. discriminate.
Qed.

(** X14.  A returned path is a walk through the graph without repetition: its
    node list runs from the start to the goal along neighbour entries
    and names no block twice, and its road list is the concatenation, in
    the order walked, of the road lists of those entries. *)
Theorem findPath_walk a b r con :
  findPath g a b = Run (Returned (Some r)) con →
  trail g a b (nodes r) (roads r) ∧ NoDup (nodes r).
Proof.
  intros Hrun. pose proof Hrun as Hcase.
  apply findPath_some_present in Hcase as [<-|[Hne [nb Hnb]]].
  - unfold findPath in Hrun. rewrite findPath_same_any in Hrun.
    inversion Hrun; subst. simpl. split; [apply trail_start|apply NoDup_singleton].
  - split.
    + destruct (findPath_total g a b (ex_intro _ nb Hnb))
        as [(_ & r' & Hr' & Ht)|(_ & Hnone)]; [|congruence].
      rewrite Hr' in Hrun. by inversion Hrun; subst.
    + unfold findPath, findPathFuel in Hrun.
      rewrite decide_False, (neighborsOf_own g a nb Hnb) in Hrun by done.
      assert (Hloop := f_equal result Hrun). cbn [result] in Hloop.
      eapply bfsLoop_NoDup; [|exact Hloop].
      intros it ->%list_elem_of_singleton. simpl.
      split; [apply NoDup_singleton|]. intros x ->%list_elem_of_singleton.
      set_solver.
Qed.
End BfsShape.

Section BfsFewestHops.
Import Navigation.
Variable g : CampusGraph.
Variables s e : string.

(** Every block [k] steps away is marked within [k] levels, unless an
    entry that low is still waiting in the queue. *)
Lemma bfsLevels_walk queue visited depth B k v :
  bfsLevels g s queue visited depth B →
  nsteps (edge g) k s v →
  (∃ d, depth !! v = Some d ∧ d ≤ S k)
  ∨ (∃ it, it ∈ queue ∧ length (q_nodes it) ≤ S k).
Proof.
  intros (_ & Hs & Hq & _ & _ & _ & Hexp). revert v.
  induction k as [|k IH]; intros v Hv.
  - inversion Hv; subst. left. by exists 1.
  - apply nsteps_inv_r in Hv as (u & Hu & Huv).
    destruct (IH u Hu) as [(d & Hd & Hle)|(it & Hit & Hle)].
    + destruct (decide (u ∈ q_node <$> queue)) as [Hin|Hnin].
      * apply list_elem_of_fmap in Hin as (it & -> & Hit). right.
        exists it. split; [done|]. rewrite (Hq it Hit) in Hd.
        inversion Hd; subst. lia.
      * destruct (Hexp u d v Hd Hnin Huv) as (d' & Hd' & Hle').
        left. exists d'. split; [done|lia].
    + right. exists it. split; [done|lia].
Qed.

Lemma levels_lookup (new : list QItem) (depth : gmap string nat) (L : nat) x :
  foldr (λ it d, <[q_node it := L]> d) depth new !! x
  = if decide (x ∈ q_node <$> new) then Some L else depth !! x.
Proof.
  induction new as [|it new IH].
  - cbn [foldr]. case_decide as Hin; [by apply elem_of_nil in Hin|done].
  - cbn [foldr]. rewrite fmap_cons.
    destruct (decide (q_node it = x)) as [<-|Hne].
    + rewrite lookup_insert_eq. by rewrite decide_True by apply list_elem_of_here.
    + rewrite lookup_insert_ne, IH by done.
      destruct (decide (x ∈ q_node <$> new)) as [Hin|Hnin].
      * by rewrite decide_True by (by apply list_elem_of_further).
      * rewrite decide_False; [done|].
        by intros [?|?]%elem_of_cons.
Qed.

Lemma StronglySorted_same (new : list QItem) (L : nat) :
  (∀ it, it ∈ new → length (q_nodes it) = L) →
  StronglySorted (λ it1 it2, length (q_nodes it1) ≤ length (q_nodes it2)) new.
Proof.
  induction new as [|it new IH]; intros Hall; constructor.
  - apply IH. intros it' ?. by apply Hall, list_elem_of_further.
  - apply Forall_forall. intros it' Hit'.
    rewrite (Hall it (list_elem_of_here _ _)).
    by rewrite (Hall it' (list_elem_of_further _ _ _ Hit')).
Qed.

(** Expanding the head of the queue keeps the level bookkeeping. *)
Lemma bfsLevels_step item queue visited depth B nb new :
  bfsLevels g s (item :: queue) visited depth B →
  (g !! q_node item = Some nb
   ∧ (∀ w, w ∈ nb.*1 → w ∈ list_to_set (q_node <$> new) ∪ visited)
   ∨ g !! q_node item = None ∧ new = []) →
  NoDup (q_node <$> new) →
  (∀ it, it ∈ new →
     (q_node it ∉ visited) ∧ q_nodes it = q_nodes item ++ [q_node it]) →
  ∃ depth',
    bfsLevels g s (queue ++ new) (list_to_set (q_node <$> new) ∪ visited)
      depth' (S (length (q_nodes item))).
Proof.
  intros (Hdom & Hs & Hq & Hsort & Hbound & Hdepth & Hexp) Hnb Hnd Hnew.
  set (H := length (q_nodes item)).
  exists (foldr (λ it d, <[q_node it := S H]> d) depth new).
  apply StronglySorted_inv in Hsort as [Hsort Hhead].
  rewrite Forall_forall in Hhead.
  destruct (Hbound item (list_elem_of_here _ _)) as [HB1 HB2]. fold H in HB1, HB2.
  assert (Hlvl : ∀ it, it ∈ new → length (q_nodes it) = S H).
  { intros it Hit. destruct (Hnew it Hit) as [_ ->].
    rewrite length_app. simpl. unfold H. lia. }
  assert (Hfresh : ∀ x, x ∈ q_node <$> new → depth !! x = None).
  { intros x (it & -> & Hit)%list_elem_of_fmap.
    destruct (Hnew it Hit) as [Hn _].
    destruct (depth !! q_node it) eqn:Hd; [|done].
    exfalso. apply Hn, Hdom. by rewrite Hd. }
  split_and!.
  - intros v. rewrite levels_lookup, elem_of_union, elem_of_list_to_set.
    destruct (decide (v ∈ q_node <$> new)) as [Hin|Hnin].
    + split; [done|by left].
    + rewrite <- Hdom. naive_solver.
  - rewrite levels_lookup. rewrite decide_False; [done|].
    intros Hin. apply Hfresh in Hin. congruence.
  - intros it [Hit|Hit]%elem_of_app; rewrite levels_lookup.
    + rewrite decide_False; [by apply Hq, list_elem_of_further|].
      intros Hin. apply Hfresh in Hin.
      rewrite (Hq it (list_elem_of_further _ _ _ Hit)) in Hin. done.
    + rewrite decide_True by (apply list_elem_of_fmap; by exists it).
      by rewrite (Hlvl it Hit).
  - apply StronglySorted_app.
    split_and!; [|exact Hsort|by apply StronglySorted_same with (S H)].
    intros it1 it2 Hit1 Hit2. rewrite (Hlvl it2 Hit2).
    destruct (Hbound it1 (list_elem_of_further _ _ _ Hit1)). lia.
  - intros it [Hit|Hit]%elem_of_app.
    + destruct (Hbound it (list_elem_of_further _ _ _ Hit)).
      pose proof (Hhead it Hit). simpl in *. fold H in H2. lia.
    + rewrite (Hlvl it Hit). lia.
  - intros v d. rewrite levels_lookup.
    destruct (decide (v ∈ q_node <$> new)); [intros [= <-]; lia|].
    intros Hd. pose proof (Hdepth v d Hd). lia.
  - intros v d w. rewrite levels_lookup.
    destruct (decide (v ∈ q_node <$> new)) as [Hin|Hnin].
    { intros _ Hout. exfalso. apply Hout. rewrite fmap_app.
      apply elem_of_app. by right. }
    intros Hd Hout Hvw.
    assert (Hout' : v ∉ q_node <$> queue).
    { intros Hin. apply Hout. rewrite fmap_app. apply elem_of_app. by left. }
    destruct (decide (v = q_node item)) as [->|Hne].
    + rewrite (Hq item (list_elem_of_here _ _)) in Hd. inversion Hd; subst d.
      destruct Hvw as (nb' & Hnb' & Hw).
      destruct Hnb as [[Hnb Hall]|[Hnb _]]; [|congruence].
      assert (nb' = nb) as -> by congruence.
      specialize (Hall w Hw). rewrite levels_lookup.
      destruct (decide (w ∈ q_node <$> new)); [exists (S H); split; [done|lia]|].
      apply elem_of_union in Hall as [Hall|Hall];
        [by apply elem_of_list_to_set in Hall|].
      apply Hdom in Hall as [d' Hd']. exists d'. split; [done|].
      pose proof (Hdepth w d' Hd'). fold H. lia.
    + destruct (Hexp v d w Hd) as (d' & Hd' & Hle); [|done|].
      * intros [?|?]%elem_of_cons; done.
      * exists d'. split; [|done]. rewrite levels_lookup.
        rewrite decide_False; [done|]. intros Hin. apply Hfresh in Hin. congruence.
Qed.

Lemma bfsLoop_fewest fuel :
  ∀ queue visited depth B r,
    bfsLevels g s queue visited depth B →
    bfsLoop fuel g e queue visited = Returned (Some r) →
    ∀ k, nsteps (edge g) k s e → length (nodes r) ≤ S k.
Proof.
  induction fuel as [|fuel IH]; intros queue visited depth B r Hinv Hrun k Hk;
    destruct queue as [|item queue]; simpl in Hrun; try done.
  destruct (decide (q_node item = e)) as [He|He].
  { inversion Hrun; subst r. simpl.
    destruct (bfsLevels_walk _ _ _ _ _ _ Hinv Hk) as [(d & Hd & Hle)|(it & Hit & Hle)].
    - destruct Hinv as (_ & _ & Hq & _).
      rewrite <- He, (Hq item (list_elem_of_here _ _)) in Hd.
      inversion Hd; subst. done.
    - destruct Hinv as (_ & _ & _ & Hsort & _).
      apply StronglySorted_inv in Hsort as [_ Hhead].
      rewrite Forall_forall in Hhead.
      apply elem_of_cons in Hit as [->|Hit]; [done|].
      pose proof (Hhead it Hit). simpl in *. lia. }
  destruct (neighborsOf_cases g (q_node item))
    as [(nb & Hnb & Hread)|[(Hnb & _ & Hread)|(Hnb & _ & Hread)]];
    rewrite Hread in Hrun.
  - destruct (visitNeighbors nb (q_path item) (q_nodes item) visited queue)
      as [visited' queue'] eqn:Hvn.
    pose proof Hvn as Hspec.
    apply visitNeighbors_spec in Hspec as (_ & _ & _ & Hall & _).
    apply visitNeighbors_fresh in Hvn as (new & -> & -> & Hnd & Hnew).
    destruct (bfsLevels_step item queue visited depth B nb new Hinv)
      as [depth' Hinv']; [by left|done|done|].
    by eapply IH.
  - cbn [visitNeighbors] in Hrun.
    destruct (bfsLevels_step item queue visited depth B [] [] Hinv)
      as [depth' Hinv']; [by right|constructor|by intros ? ?%elem_of_nil|].
    rewrite app_nil_r in Hinv'. simpl in Hinv'.
    rewrite union_empty_l_L in Hinv'. by eapply IH.
  - destruct (bfsLevels_step item queue visited depth B [] [] Hinv)
      as [depth' Hinv']; [by right|constructor|by intros ? ?%elem_of_nil|].
    rewrite app_nil_r in Hinv'. simpl in Hinv'.
    rewrite union_empty_l_L in Hinv'. by eapply IH.
Qed.

Lemma bfsLevels_init :
  bfsLevels g s [{| q_node := s; q_path := []; q_nodes := [s] |}] {[s]}
    {[s := 1]} 1.
Proof.
  split_and!.
  - intros v. rewrite elem_of_singleton.
    destruct (decide (s = v)) as [<-|Hne].
    + by rewrite lookup_singleton_eq.
    + rewrite lookup_singleton_ne by done. split; [done|by intros [? ?]].
  - by rewrite lookup_singleton_eq.
  - intros it ->%list_elem_of_singleton. simpl. by rewrite lookup_singleton_eq.
  - repeat constructor.
  - intros it ->%list_elem_of_singleton. simpl. lia.
  - intros v d Hd. destruct (decide (s = v)) as [<-|Hne].
    + rewrite lookup_singleton_eq in Hd. inversion Hd. lia.
    + by rewrite lookup_singleton_ne in Hd.
  - intros v d w Hd Hout. exfalso. destruct (decide (s = v)) as [<-|Hne].
    + apply Hout. simpl. apply list_elem_of_here.
    + by rewrite lookup_singleton_ne in Hd.
Qed.
End BfsFewestHops.

Section BfsFewestHopsClaim.
Import Navigation.

(** X15.  The breadth-first answer has the fewest hops: no walk from the start
    to the goal along neighbour entries has fewer steps than the returned
    node list. *)
Theorem findPath_fewest_hops (g : CampusGraph) (a b : string) r con (k : nat) :
  findPath g a b = Run (Returned (Some r)) con →
  nsteps (edge g) k a b →
  length (nodes r) ≤ S k.
Proof.
  intros Hrun Hk. pose proof Hrun as Hcase.
  apply findPath_some_present in Hcase as [<-|[Hne [nb Hnb]]].
  - unfold findPath in Hrun. rewrite findPath_same_any in Hrun.
    inversion Hrun; subst. simpl. lia.
  - unfold findPath, findPathFuel in Hrun.
    rewrite decide_False, (neighborsOf_own g a nb Hnb) in Hrun by done.
    assert (Hloop := f_equal result Hrun). cbn [result] in Hloop.
    by eapply (bfsLoop_fewest g a b _ _ _ _ _ _ (bfsLevels_init g a) Hloop).
Qed.
End BfsFewestHopsClaim.

(** ** The weighted solver returns a lightest route *)

Section DijkstraOptimal.
Import Pathfinding.
Variable G : Graph.
Variables s e : string.
Hypothesis Hnonneg : nonNegative G.

Lemma adjOf_joined u a :
  a ∈ adjOf (edges G) u ↔ joined G u (node a) (adj_weight a).
Proof.
  unfold joined. split.
  - intros (ed & ? & ? & ?)%adjOf_sound. by exists ed.
  - intros (ed & Hin & Hw & Hdir). destruct a as [v w]. simpl in *. subst w.
    induction (edges G) as [|ed' rest IH]; [by apply elem_of_nil in Hin|].
    simpl. rewrite !elem_of_app.
    apply elem_of_cons in Hin as [<-|Hin]; [|right; right; by apply IH].
    destruct Hdir as [[Hf Ht]|[Ht Hf]].
    + left. rewrite decide_True by done. rewrite Ht. apply list_elem_of_here.
    + right. left. rewrite decide_True by done. rewrite Hf.
      apply list_elem_of_here.
Qed.

Lemma joined_nonneg u v wt : joined G u v wt → (0 ≤ wt)%Z.
Proof. intros (ed & Hin & <- & _). by apply Hnonneg. Qed.

Lemma num_leb_trans a b c :
  num_leb a b = true → num_leb b c = true → num_leb a c = true.
Proof.
  destruct a, b, c; simpl; try done. rewrite !Z.leb_le. lia.
Qed.

Lemma num_leb_total a b : num_leb a b = false → num_leb b a = true.
Proof.
  destruct a, b; simpl; try done. rewrite Z.leb_gt, Z.leb_le. lia.
Qed.

Lemma insertSorted_sorted it q :
  StronglySorted (λ x y, num_leb (distance x) (distance y) = true) q →
  StronglySorted (λ x y, num_leb (distance x) (distance y) = true)
    (insertSorted it q).
Proof.
  induction q as [|it' q IH]; intros Hs; simpl.
  - repeat constructor.
  - apply StronglySorted_inv in Hs as [Hq Hhd].
    destruct (num_leb (distance it) (distance it')) eqn:Hle.
    + constructor; [by constructor|]. constructor; [done|].
      eapply Forall_impl; [exact Hhd|]. intros x Hx. simpl in *.
      by eapply num_leb_trans.
    + constructor; [by apply IH|].
      rewrite insertSorted_perm. constructor; [|done].
      by apply num_leb_total.
Qed.

(** The entry popped is one of least distance. *)
Lemma sortQueue_head q cur rest :
  sortQueue q = cur :: rest →
  ∀ it, it ∈ q → num_leb (distance cur) (distance it) = true.
Proof.
  intros Hsort.
  assert (Hs : StronglySorted (λ x y, num_leb (distance x) (distance y) = true)
                 (sortQueue q)).
  { clear Hsort. induction q as [|it q IH]; simpl; [constructor|].
    by apply insertSorted_sorted. }
  rewrite Hsort in Hs. apply StronglySorted_inv in Hs as [_ Hhd].
  rewrite Forall_forall in Hhd.
  intros it Hit. rewrite <- (sortQueue_perm q), Hsort in Hit.
  apply elem_of_cons in Hit as [->|Hit]; [|by apply Hhd].
  destruct (distance cur); simpl; [by apply Z.leb_refl|done].
Qed.

(** With the edges out of visited nodes relaxed, every route ends at a
    visited node no farther than the route is long, or passes an
    unvisited node of which that holds. *)
Lemma optInv_route vis ds prev q v w :
  optInv G s vis vis ds prev q →
  route G s v w →
  (v ∈ vis ∧ ∃ dv, ds !! v = Some (Fin dv) ∧ (dv ≤ w)%Z)
  ∨ (∃ y dy, (y ∉ vis) ∧ ds !! y = Some (Fin dy) ∧ (dy ≤ w)%Z).
Proof.
  intros (Hs & _ & Hexp & _) Hr.
  induction Hr as [|u v w wt _ IH Hj Hd].
  - destruct (decide (s ∈ vis)); [left|right].
    + split; [done|]. by exists 0%Z.
    + by exists s, 0%Z.
  - pose proof (joined_nonneg _ _ _ Hj).
    destruct IH as [(Hu & du & Hdu & Hle)|(y & dy & Hy & Hdy & Hle)].
    + destruct (Hexp u wt v Hu Hj Hd) as (du' & dv & Hdu' & Hdv & Hle').
      assert (du' = du) as -> by congruence.
      destruct (decide (v ∈ vis)); [left|right].
      * split; [done|]. exists dv. split; [done|lia].
      * exists v, dv. split_and!; [done|done|lia].
    + right. exists y, dy. split_and!; [done|done|lia].
Qed.

(** Recording a shorter way to an unvisited neighbour of the node being
    expanded keeps the distance bookkeeping. *)
Lemma optInv_relax expanded vis ds prev q cur m dcur wt dn :
  core G s vis ds prev q →
  optInv G s expanded vis ds prev q →
  (∀ v, v ∈ expanded → v ∈ vis) →
  cur ∈ vis → m ∉ vis →
  ds !! cur = Some (Fin dcur) →
  (∀ v dv, v ∈ vis → ds !! v = Some (Fin dv) → (dv ≤ dcur)%Z) →
  joined G cur m wt →
  ds !! m = Some dn →
  num_ltb (Fin (dcur + wt)) dn = true →
  optInv G s expanded vis (<[m := Fin (dcur + wt)]> ds)
    (<[m := Some cur]> prev)
    (q ++ [{| qnode := m; distance := Fin (dcur + wt) |}]).
Proof.
  intros Hcore (Hs & Hprev & Hexp & Hmono & Hcurr & Hstale)
    Hsub Hcur Hm Hdcur Hmax Hj Hdn Hlt.
  pose proof (joined_nonneg _ _ _ Hj) as Hwt.
  pose proof Hcore as (_ & _ & _ & _ & Hcprev & _ & _ & Hchain).
  assert (Hsv : s ∈ vis).
  { destruct Hchain as [->|Hc]; [by apply elem_of_nil in Hcur|].
    by eapply chain_start_in. }
  assert (Hvis : ∀ v, v ∈ vis → <[m := Fin (dcur + wt)]> ds !! v = ds !! v).
  { intros v Hv. rewrite lookup_insert_ne; [done|]. by intros ->. }
  assert (Hless : ∀ d, dn = Fin d → (dcur + wt < d)%Z).
  { intros d ->. simpl in Hlt. by apply Z.ltb_lt in Hlt. }
  split_and!.
  - by rewrite (Hvis s Hsv).
  - intros v u Hvu. destruct (decide (m = v)) as [<-|Hne].
    + rewrite lookup_insert_eq in Hvu. inversion Hvu; subst u.
      exists dcur, wt. by rewrite (Hvis cur Hcur), lookup_insert_eq.
    + rewrite lookup_insert_ne in Hvu by done.
      destruct (Hprev v u Hvu) as (du & wt' & Hdu & Hj' & Hdv).
      destruct (Hcprev v u Hvu) as (Hu & _).
      exists du, wt'. by rewrite (Hvis u Hu), lookup_insert_ne.
  - intros v wt' w Hv Hj' Hd.
    destruct (Hexp v wt' w Hv Hj' Hd) as (dv & dw & Hdv & Hdw & Hle).
    exists dv. rewrite (Hvis v (Hsub v Hv)).
    destruct (decide (m = w)) as [<-|Hne].
    + exists (dcur + wt)%Z. rewrite lookup_insert_eq. split_and!; [done..|].
      assert (dn = Fin dw) as Heq by congruence.
      pose proof (Hless dw Heq). lia.
    + exists dw. by rewrite lookup_insert_ne.
  - intros v y dv dy Hv Hy. rewrite (Hvis v Hv). intros Hdv.
    destruct (decide (m = y)) as [<-|Hne].
    + rewrite lookup_insert_eq. intros [= <-].
      pose proof (Hmax v dv Hv Hdv). lia.
    + rewrite lookup_insert_ne by done. intros Hdy. by apply (Hmono v y dv dy).
  - intros y dy Hy Hdy. apply elem_of_app.
    destruct (decide (m = y)) as [<-|Hne].
    + rewrite lookup_insert_eq in Hdy. inversion Hdy; subst dy.
      right. apply list_elem_of_here.
    + rewrite lookup_insert_ne in Hdy by done. left. by apply Hcurr.
  - intros it [Hit| ->%list_elem_of_singleton]%elem_of_app.
    + destruct (Hstale it Hit) as (d' & d & Hd' & Hd & Hle).
      destruct (decide (m = qnode it)) as [Heq|Hne].
      * exists d', (dcur + wt)%Z. rewrite <- Heq, lookup_insert_eq.
        split_and!; [done..|].
        assert (dn = Fin d) as Hdn' by (rewrite Heq in Hdn; congruence).
        pose proof (Hless d Hdn'). lia.
      * exists d', d. by rewrite lookup_insert_ne.
    + exists (dcur + wt)%Z, (dcur + wt)%Z. simpl.
      rewrite lookup_insert_eq. split_and!; [done..|lia].
Qed.

(** The neighbour loop as far as distances go: the bookkeeping is kept,
    visited nodes keep their distance, no distance grows, and every
    declared neighbour ends at most one edge beyond the node expanded. *)
Lemma relax_opt expanded vis cur dcur nbs :
  ∀ ds prev q ds' prev' q',
    relax nbs cur vis ds prev q = (ds', prev', q') →
    cur ∈ vis →
    (∀ v, v ∈ expanded → v ∈ vis) →
    core G s vis ds prev q →
    optInv G s expanded vis ds prev q →
    ds !! cur = Some (Fin dcur) →
    (∀ v dv, v ∈ vis → ds !! v = Some (Fin dv) → (dv ≤ dcur)%Z) →
    (∀ a, a ∈ nbs → joined G cur (node a) (adj_weight a)) →
    optInv G s expanded vis ds' prev' q'
    ∧ (∀ v, v ∈ vis → ds' !! v = ds !! v)
    ∧ (∀ x d, ds !! x = Some (Fin d) →
         ∃ d', ds' !! x = Some (Fin d') ∧ (d' ≤ d)%Z)
    ∧ (∀ a, a ∈ nbs → declared G (node a) →
         ∃ dw, ds' !! node a = Some (Fin dw) ∧ (dw ≤ dcur + adj_weight a)%Z).
Proof.
  induction nbs as [|nb rest IH];
    intros ds prev q ds' prev' q' Hrun Hcur Hsub Hcore Hopt Hdcur Hmax Hadj.
  - simpl in Hrun. inversion Hrun; subst. split_and!; try done.
    + intros x d Hx. exists d. split; [done|lia].
    + by intros a ?%elem_of_nil.
  - assert (Hadj' : ∀ a, a ∈ rest → joined G cur (node a) (adj_weight a))
      by (intros a ?; by apply Hadj, list_elem_of_further).
    pose proof (Hadj nb (list_elem_of_here _ _)) as Hj.
    pose proof (joined_nonneg _ _ _ Hj) as Hwt.
    assert (Hkeep :
      relax rest cur vis ds prev q = (ds', prev', q') →
      (declared G (node nb) →
       ∃ dw, ds !! node nb = Some (Fin dw) ∧ (dw ≤ dcur + adj_weight nb)%Z) →
      optInv G s expanded vis ds' prev' q'
      ∧ (∀ v, v ∈ vis → ds' !! v = ds !! v)
      ∧ (∀ x d, ds !! x = Some (Fin d) →
           ∃ d', ds' !! x = Some (Fin d') ∧ (d' ≤ d)%Z)
      ∧ (∀ a, a ∈ nb :: rest → declared G (node a) →
           ∃ dw, ds' !! node a = Some (Fin dw) ∧ (dw ≤ dcur + adj_weight a)%Z)).
    { intros Hrun' Hnb.
      destruct (IH _ _ _ _ _ _ Hrun' Hcur Hsub Hcore Hopt Hdcur Hmax Hadj')
        as (Ho & Hv & Hdec & Hall).
      split_and!; try done.
      intros a [->|Ha]%elem_of_cons Hd; [|by apply Hall].
      destruct (Hnb Hd) as (dw & Hdw & Hle).
      destruct (Hdec _ _ Hdw) as (d' & Hd' & Hle'). exists d'. split; [done|lia]. }
    pose proof Hcore as (Hdom & _ & _ & _ & _ & Hcvis & _ & _).
    simpl in Hrun.
    destruct (decide (node nb ∈ vis)) as [Hv|Hv].
    { apply Hkeep; [done|]. intros _.
      destruct (Hcvis _ Hv) as [_ [dv Hdv]]. exists dv. split; [done|].
      pose proof (Hmax _ _ Hv Hdv). lia. }
    rewrite Hdcur in Hrun.
    destruct (ds !! node nb) as [dn|] eqn:Hdn; cycle 1.
    { apply Hkeep; [done|]. intros Hd. apply Hdom in Hd as [? ?]. congruence. }
    cbn [num_add] in Hrun.
    destruct (num_ltb (Fin (dcur + adj_weight nb)) dn) eqn:Hlt.
    + assert (Hd : declared G (node nb)) by (apply Hdom; by rewrite Hdn).
      assert (Hadjc : adjacent G cur (node nb)).
      { destruct Hj as (ed & ? & _ & ?). by exists ed. }
      pose proof (core_relax G s vis ds prev q cur (node nb)
                    (dcur + adj_weight nb) Hcore Hcur Hv Hadjc Hd) as Hcore'.
      pose proof (optInv_relax expanded vis ds prev q cur (node nb) dcur
                    (adj_weight nb) dn Hcore Hopt Hsub Hcur Hv Hdcur Hmax Hj
                    Hdn Hlt) as Hopt'.
      assert (Hvis' : ∀ v, v ∈ vis →
                <[node nb := Fin (dcur + adj_weight nb)]> ds !! v = ds !! v).
      { intros v Hvv. rewrite lookup_insert_ne; [done|]. by intros <-. }
      destruct (IH _ _ _ _ _ _ Hrun Hcur Hsub Hcore' Hopt')
        as (Ho & Hvv & Hdec & Hall); [by rewrite Hvis'| |done|].
      { intros v dv Hin. rewrite Hvis' by done. by apply Hmax. }
      split_and!; [done| | |].
      * intros v Hin. by rewrite Hvv, Hvis'.
      * intros x d Hx. destruct (decide (node nb = x)) as [<-|Hne].
        -- destruct (Hdec (node nb) (dcur + adj_weight nb)%Z) as (d' & Hd' & Hle');
             [by rewrite lookup_insert_eq|].
           exists d'. split; [done|].
           rewrite Hdn in Hx. inversion Hx; subst dn. simpl in Hlt.
           apply Z.ltb_lt in Hlt. lia.
        -- apply Hdec. by rewrite lookup_insert_ne.
      * intros a [->|Ha]%elem_of_cons Hda; [|by apply Hall].
        apply Hdec. by rewrite lookup_insert_eq.
    + apply Hkeep; [done|]. intros _.
      destruct dn as [y|]; [|done]. exists y. split; [done|].
      simpl in Hlt. apply Z.ltb_ge in Hlt. lia.
Qed.
End DijkstraOptimal.

Section DijkstraOptimalLoop.
Import Pathfinding.
Variable G : Graph.
Variables s e : string.
Hypothesis Hnonneg : nonNegative G.

Lemma optInv_drop vis ds prev q cur rest :
  optInv G s vis vis ds prev q →
  cur :: rest ≡ₚ q →
  qnode cur ∈ vis →
  optInv G s vis vis ds prev rest.
Proof.
  intros (Hs & Hprev & Hexp & Hmono & Hcurr & Hstale) Hperm Hcur.
  split_and!; try done.
  - intros y dy Hy Hdy. pose proof (Hcurr y dy Hy Hdy) as Hin.
    rewrite <- Hperm in Hin. apply elem_of_cons in Hin as [Heq|Hin]; [|done].
    exfalso. apply Hy. by rewrite <- Heq in Hcur.
  - intros it Hit. apply Hstale. rewrite <- Hperm. by apply list_elem_of_further.
Qed.

(** Marking the node of the entry popped: it is no farther than any
    unvisited node, and no visited node is farther than it. *)
Lemma optInv_visit vis ds prev q cur rest dn :
  optInv G s vis vis ds prev q →
  sortQueue q = cur :: rest →
  qnode cur ∉ vis →
  ds !! qnode cur = Some (Fin dn) →
  optInv G s vis (qnode cur :: vis) ds prev rest
  ∧ (∀ v dv, v ∈ qnode cur :: vis → ds !! v = Some (Fin dv) → (dv ≤ dn)%Z)
  ∧ (∀ y dy, y ∉ vis → ds !! y = Some (Fin dy) → (dn ≤ dy)%Z).
Proof.
  intros (Hs & Hprev & Hexp & Hmono & Hcurr & Hstale) Hsort Hcur Hdn.
  assert (Hperm : cur :: rest ≡ₚ q) by (rewrite <- Hsort; apply sortQueue_perm).
  assert (Hmin : ∀ y dy, y ∉ vis → ds !! y = Some (Fin dy) → (dn ≤ dy)%Z).
  { intros y dy Hy Hdy.
    pose proof (sortQueue_head q cur rest Hsort _ (Hcurr y dy Hy Hdy)) as Hle.
    destruct (Hstale cur) as (d' & d & Hd' & Hd & Hle').
    { rewrite <- Hperm. apply list_elem_of_here. }
    rewrite Hd' in Hle. simpl in Hle. apply Z.leb_le in Hle.
    assert (d = dn) as -> by congruence. lia. }
  assert (Hmax : ∀ v dv, v ∈ qnode cur :: vis → ds !! v = Some (Fin dv) →
                         (dv ≤ dn)%Z).
  { intros v dv [->|Hv]%elem_of_cons Hdv.
    - assert (dv = dn) as -> by congruence. lia.
    - by apply (Hmono v (qnode cur) dv dn). }
  split; [|by split]. unfold optInv. split_and!; try done.
  - intros v y dv dy [->|Hv]%elem_of_cons Hy Hdv Hdy.
    + assert (dv = dn) as -> by congruence.
      apply (Hmin y dy); [|done]. intros ?. by apply Hy, list_elem_of_further.
    + apply (Hmono v y dv dy); try done.
      intros ?. by apply Hy, list_elem_of_further.
  - intros y dy Hy Hdy.
    assert (Hy' : y ∉ vis) by (intros ?; by apply Hy, list_elem_of_further).
    pose proof (Hcurr y dy Hy' Hdy) as Hin.
    rewrite <- Hperm in Hin. apply elem_of_cons in Hin as [Heq|Hin]; [|done].
    exfalso. apply Hy. rewrite <- Heq. simpl. apply list_elem_of_here.
  - intros it Hit. apply Hstale. rewrite <- Hperm. by apply list_elem_of_further.
Qed.

Lemma dijkstraInv_drop st cur rest :
  dijkstraInv G s e st →
  cur :: rest ≡ₚ queue st →
  qnode cur ∈ visited st →
  dijkstraInv G s e
    {| distances := distances st; previous := previous st;
       visited := visited st; queue := rest |}.
Proof.
  intros (Hcore & Hexp & Hend) Hperm Hv.
  split; [|split]; simpl; [by eapply core_drop| |done].
  intros v w Hvv Hl. destruct (Hexp v w Hvv Hl) as [?|Hw]; [by left|].
  rewrite <- Hperm, fmap_cons in Hw.
  apply elem_of_cons in Hw as [->|?]; [by left|by right].
Qed.

Lemma dijkstraInv_expand st cur rest ds' prev' q' :
  dijkstraInv G s e st →
  cur :: rest ≡ₚ queue st →
  qnode cur ∉ visited st →
  qnode cur ≠ e →
  relax (adjOf (edges G) (qnode cur)) (qnode cur) (qnode cur :: visited st)
    (distances st) (previous st) rest = (ds', prev', q') →
  dijkstraInv G s e
    {| distances := ds'; previous := prev';
       visited := qnode cur :: visited st; queue := q' |}.
Proof.
  intros (Hcore & Hexp & Hend) Hperm Hv He Hrun.
  pose proof (core_visit G s _ _ _ _ _ _ Hcore Hperm Hv) as Hcore1.
  assert (Hadj : ∀ nb, nb ∈ adjOf (edges G) (qnode cur) →
                       adjacent G (qnode cur) (node nb)).
  { intros nb Hnb. apply adjOf_sound in Hnb as (ed & Hed & _ & Hdir).
    by exists ed. }
  destruct (relax_spec G s _ _ _ _ _ _ _ _ _ Hrun
              (list_elem_of_here _ _) Hadj Hcore1)
    as (Hcore2 & Hmono & Hall & _).
  split; [|split]; simpl; [done| |].
  - intros v w Hvv [Hvw Hdw]. apply elem_of_cons in Hvv as [->|Hvv].
    + destruct (adjOf_complete (edges G) (qnode cur) w Hvw) as (a & Ha & <-).
      by apply Hall.
    + destruct (Hexp v w Hvv (conj Hvw Hdw)) as [?|Hw].
      * left. by apply list_elem_of_further.
      * rewrite <- Hperm, fmap_cons in Hw.
        apply elem_of_cons in Hw as [->|Hw]; [left; apply list_elem_of_here|].
        right. apply list_elem_of_fmap in Hw as (it' & -> & Hit').
        apply list_elem_of_fmap. exists it'. split; [done|by apply Hmono].
  - intros Hin. apply elem_of_cons in Hin as [?|?]; [congruence|done].
Qed.

(** Expanding the node just visited completes the bookkeeping for it. *)
Lemma optInv_expand st cur rest dn ds' prev' q' :
  dijkstraInv G s e st →
  optInv G s (visited st) (visited st) (distances st) (previous st) (queue st) →
  sortQueue (queue st) = cur :: rest →
  qnode cur ∉ visited st →
  distances st !! qnode cur = Some (Fin dn) →
  relax (adjOf (edges G) (qnode cur)) (qnode cur) (qnode cur :: visited st)
    (distances st) (previous st) rest = (ds', prev', q') →
  optInv G s (qnode cur :: visited st) (qnode cur :: visited st) ds' prev' q'.
Proof.
  intros (Hcore & _) Hopt Hsort Hv Hdn Hrun.
  assert (Hperm : cur :: rest ≡ₚ queue st)
    by (rewrite <- Hsort; apply sortQueue_perm).
  pose proof (core_visit G s _ _ _ _ _ _ Hcore Hperm Hv) as Hcore1.
  destruct (optInv_visit _ _ _ _ _ _ _ Hopt Hsort Hv Hdn) as (Hopt1 & Hmax & _).
  destruct (relax_opt G s Hnonneg (visited st) (qnode cur :: visited st)
              (qnode cur) dn _ _ _ _ _ _ _ Hrun)
    as ((Hs & Hprev & Hexp & Hmono & Hcurr & Hstale) & Hsame & _ & Hall);
    try done.
  { apply list_elem_of_here. }
  { intros v ?. by apply list_elem_of_further. }
  { intros a Ha. by apply adjOf_joined. }
  split_and!; try done.
  intros v wt w [->|Hin]%elem_of_cons Hj Hd; [|by apply (Hexp v wt w)].
  destruct (Hall {| node := w; adj_weight := wt |}) as (dw & Hdw & Hle);
    [by apply adjOf_joined|done|].
  exists dn, dw. split_and!; [|done|done].
  rewrite Hsame; [done|apply list_elem_of_here].
Qed.

(** The main loop ends with the goal, if visited, at the weight of a
    lightest route. *)
Lemma dijkstraLoop_opt fuel :
  ∀ st st',
    dijkstraInv G s e st →
    optInv G s (visited st) (visited st) (distances st) (previous st) (queue st) →
    dijkstraLoop fuel (buildAdjacencyList (edges G)) e st = Some st' →
    optPost G s e st'.
Proof.
  assert (Hdone : ∀ st, dijkstraInv G s e st →
    optInv G s (visited st) (visited st) (distances st) (previous st) (queue st) →
    optPost G s e st).
  { intros st (_ & _ & Hend) (? & ? & _). by split_and!. }
  induction fuel as [|fuel IH]; intros st st' Hinv Hopt Hrun;
    pose proof (Hdone st Hinv Hopt) as Hpost.
  - simpl in Hrun. destruct (queue st); [|done]. by inversion Hrun; subst st'.
  - rewrite dijkstraLoop_unfold in Hrun.
    destruct (queue st) as [|it q0] eqn:Hq in Hrun.
    { by inversion Hrun; subst st'. }
    rewrite <- Hq in Hrun.
    pose proof (sortQueue_perm (queue st)) as Hperm.
    destruct (sortQueue (queue st)) as [|cur rest] eqn:Hsort.
    { rewrite Hq in Hperm. symmetry in Hperm.
      by apply Permutation_nil_r in Hperm. }
    destruct (decide (qnode cur ∈ visited st)) as [Hv|Hv].
    { eapply IH; [| |exact Hrun]; simpl.
      - by eapply dijkstraInv_drop.
      - by eapply optInv_drop. }
    pose proof Hinv as (Hcore & _ & Hend).
    pose proof Hcore as (_ & _ & _ & Hcq & _).
    destruct (Hcq cur) as (_ & [dn Hdn] & _).
    { rewrite <- Hperm. apply list_elem_of_here. }
    destruct (decide (qnode cur = e)) as [He|He].
    { inversion Hrun; subst st'.
      destruct (optInv_visit _ _ _ _ _ _ _ Hopt Hsort Hv Hdn)
        as ((Hs & Hprev & _) & _ & Hmin).
      split_and!; simpl; [done|done|]. intros _. exists dn.
      split; [by rewrite <- He|]. intros w Hw.
      destruct (optInv_route G s Hnonneg _ _ _ _ _ _ Hopt Hw)
        as [(Hin & _)|(y & dy & Hy & Hdy & Hle)]; [by rewrite <- He in Hin|].
      pose proof (Hmin y dy Hy Hdy). lia. }
    cbv zeta in Hrun. rewrite buildAdjacencyList_lookup in Hrun.
    destruct (relax (adjOf (edges G) (qnode cur)) (qnode cur)
                (qnode cur :: visited st) (distances st) (previous st) rest)
      as [[ds' prev'] q'] eqn:Hrel.
    eapply IH; [| |exact Hrun]; simpl.
    + by eapply dijkstraInv_expand.
    + by eapply optInv_expand.
Qed.

Lemma optInv_init :
  optInv G s [] [] (distances (initialState (nodes G) s))
    (previous (initialState (nodes G) s)) (queue (initialState (nodes G) s)).
Proof.
  unfold initialState. simpl. split_and!.
  - by rewrite lookup_insert_eq.
  - intros v u Hvu. rewrite fill_lookup in Hvu. by case_decide.
  - by intros v wt w ?%elem_of_nil.
  - by intros v y dv dy ?%elem_of_nil.
  - intros y dy _ Hdy. destruct (decide (s = y)) as [<-|Hne].
    + rewrite lookup_insert_eq in Hdy. inversion Hdy; subst dy.
      apply list_elem_of_here.
    + rewrite lookup_insert_ne in Hdy by done. rewrite fill_lookup in Hdy.
      by case_decide.
  - intros it ->%list_elem_of_singleton. exists 0%Z, 0%Z. simpl.
    by rewrite lookup_insert_eq.
Qed.

(** Following [prev] back from a visited node gives a route whose
    weights add up to the distance recorded for that node. *)
Lemma chain_reconstruct_weight (ds : gmap string num) prev vis :
  chain prev s vis →
  ds !! s = Some (Fin 0) →
  (∀ v u, prev !! v = Some (Some u) →
     ∃ du wt, ds !! u = Some (Fin du) ∧ joined G u v wt
              ∧ ds !! v = Some (Fin (du + wt))) →
  (∀ v u, prev !! v = Some (Some u) → declared G v) →
  ∀ v, v ∈ vis →
    ∃ p dv,
      (∀ fuel acc, length p ≤ fuel →
         reconstruct fuel prev (Some v) acc = Some (p ++ acc))
      ∧ length p ≤ length vis ∧ last p = Some v
      ∧ ds !! v = Some (Fin dv) ∧ routeAlong G p dv ∧ route G s v dv.
Proof.
  intros Hc Hs Hprev Hdecl.
  induction Hc as [Hps|v0 u l Hv0 Hp Hu Hc IH]; intros v Hv.
  - apply list_elem_of_singleton in Hv as ->. exists [s], 0%Z.
    split_and!; try done; [|constructor|constructor].
    intros [|fuel] acc Hlen; [simpl in Hlen; lia|].
    simpl. rewrite Hps. apply reconstruct_null.
  - apply elem_of_cons in Hv as [->|Hv].
    + destruct (IH u Hu) as (p & du & Hrun & Hlen & Hlast & Hdu & Hra & Hr).
      destruct (Hprev v0 u Hp) as (du' & wt & Hdu' & Hj & Hdv).
      assert (du' = du) as -> by congruence.
      exists (p ++ [v0]), (du + wt)%Z. split_and!; [| |apply last_snoc|done| |].
      * intros [|fuel] acc Hf; [rewrite length_app in Hf; simpl in Hf; lia|].
        simpl. rewrite Hp. simpl. rewrite <- app_assoc. apply Hrun.
        rewrite length_app in Hf. simpl in Hf. lia.
      * rewrite length_app. simpl. lia.
      * by apply routeAlong_snoc with u.
      * apply route_step with u; [done|done|by apply (Hdecl v0 u)].
    + destruct (IH v Hv) as (p & dv & Hrun & Hlen & Hlast & Hdv & Hra & Hr).
      exists p, dv. split_and!; try done. simpl. lia.
Qed.
End DijkstraOptimalLoop.

Section DijkstraOptimalClaim.
Import Pathfinding.

(** The weight of a route is bounded by the number of its edges. *)
Lemma routeAlong_bound G p D W :
  (∀ ed, ed ∈ edges G → (Z.abs (weight ed) ≤ W)%Z) →
  routeAlong G p D →
  (Z.abs D ≤ W * Z.of_nat (length p - 1))%Z.
Proof.
  intros HW Hra. induction Hra as [v|p u v w wt Hra IH Hlast Hj].
  - simpl. lia.
  - destruct Hj as (ed & Hed & <- & _). pose proof (HW ed Hed) as Hw.
    assert (0 < length p) by (destruct p; [done|simpl; lia]).
    rewrite length_app. simpl.
    replace (length p + 1 - 1) with (S (length p - 1)) by lia.
    rewrite Nat2Z.inj_succ. lia.
Qed.

(** X16.  With no negative edge weight, and the weights in the range
    where the program's sums are exact, the path [findShortestPath]
    returns is a lightest route: its edge weights add up to some [D],
    [D] is the weight of a route from the start to the end, no route
    between them weighs less, and [D] is within 2^53. *)
Theorem findShortestPath_lightest G a b r con :
  nonNegative G →
  safeWeights G →
  findShortestPath G a b = Run (Returned (Some r)) con →
  ∃ D, routeAlong G (path r) D ∧ route G a b D
       ∧ (∀ D', route G a b D' → (D ≤ D')%Z)
       ∧ (Z.abs D ≤ 2 ^ 53)%Z.
Proof.
  intros Hnonneg (W & HW & Hsafe) Hrun.
  unfold findShortestPath, findShortestPathFuel in Hrun.
  case_decide as Hends; [|done]. destruct Hends as [Ha Hb].
  apply nodeMapOf_declared in Ha, Hb.
  destruct (dijkstraLoop_spec G a b (dijkstraFuel G)
              (initialState (nodes G) a) (dijkstraInv_init G a b Ha))
    as (st & Hloop & Hcore & Hgoal).
  { simpl. rewrite pending_nil. unfold dijkstraFuel. lia. }
  pose proof (dijkstraLoop_opt G a b Hnonneg _ _ _ (dijkstraInv_init G a b Ha)
                (optInv_init G a) Hloop) as (Hs & Hprev & Hopt).
  rewrite Hloop in Hrun.
  pose proof Hcore as (_ & _ & Hsfin & _ & Hcprev & Hvis & Hfin & Hchain).
  destruct Hgoal as [Hin|(Hqe & Hnin & Hnc)].
  - destruct Hchain as [Hnil|Hc];
      [rewrite Hnil in Hin; by apply elem_of_nil in Hin|].
    destruct (chain_reconstruct_weight G a _ _ _ Hc Hs Hprev) with (v := b)
      as (p & D & Hrec & Hlen & Hlast & HD & Hra & Hr); [|done|].
    { intros v u Hvu. by destruct (Hcprev v u Hvu) as (_ & _ & ? & _). }
    destruct (Hopt Hin) as (de & Hde & Hmin).
    assert (de = D) as -> by congruence.
    assert (Hvislen : length (visited st) ≤ length (nodes G)).
    { rewrite <- (length_fmap id (nodes G)). apply submseteq_length.
      apply NoDup_submseteq; [by eapply chain_NoDup|].
      intros v Hv. by apply Hvis. }
    rewrite Hrec, app_nil_r in Hrun.
    + case_decide; [|done].
      destruct (coordinatesOf (nodeMapOf (nodes G)) p); [|done].
      inversion Hrun; subst r con. simpl. exists D.
      split_and!; [done..|].
      pose proof (routeAlong_bound G p D W HW Hra) as Hb'.
      destruct (decide (length p - 1 = 0)) as [Hz|Hz].
      * rewrite Hz in Hb'. simpl in Hb'. lia.
      * assert (0 ≤ W)%Z by nia. nia.
    + unfold reconstructFuel. lia.
  - exfalso.
    assert (Hse : a ∈ visited st).
    { destruct (decide (a ∈ visited st)) as [?|Hn]; [done|].
      specialize (Hfin a Hn Hsfin). rewrite Hqe in Hfin.
      by apply elem_of_nil in Hfin. }
    assert (Hpe : default None (previous st !! b) = None).
    { destruct (previous st !! b) as [[u|]|] eqn:Hpe; [|done|done].
      destruct (Hcprev b u Hpe) as (_ & _ & _ & Hfe).
      specialize (Hfin b Hnin Hfe). rewrite Hqe in Hfin.
      by apply elem_of_nil in Hfin. }
    unfold reconstructFuel in Hrun. simpl in Hrun.
    rewrite Hpe, reconstruct_null in Hrun. simpl in Hrun.
    case_decide as Hhd; [|done]. inversion Hhd; subst. done.
Qed.
End DijkstraOptimalClaim.

(** ** The navigation session *)

Section SessionFacts.
Import Navigation CampusData Session.
Context {number : Type}.
Variable infinity : number.
Variable lt : number → number → bool.
Variable haversineDistance : number → number → number → number → number.
Variable campusNodes : Obj (@CampusNode number).
Variable campusGraph : CampusGraph.

Ltac run_handler :=
  cbv beta iota zeta delta
    [mbind mret handler_bind handler_ret effect getVars setActiveRoute
     setSelectedDestination setCurrentLocationNode call throw];
  cbn [selectedDestination currentLocationNode activeRoute app].

Tactic Notation "run_handler" "in" hyp(H) :=
  cbv beta iota zeta delta
    [mbind mret handler_bind handler_ret effect getVars setActiveRoute
     setSelectedDestination setCurrentLocationNode call throw] in H;
  cbn [selectedDestination currentLocationNode activeRoute app] in H.

(** [findPath] always returns, and finds a walk exactly when the graph
    has one. *)
Lemma findPath_returns (g : CampusGraph) (a b : string) :
  (reach g a b ∧
   ∃ found con, findPath g a b = Run (Returned (Some found)) con
                ∧ trail g a b (nodes found) (roads found))
  ∨ (¬ reach g a b ∧ ∃ con, findPath g a b = Run (Returned None) con).
Proof.
  destruct (g !! a) as [nb|] eqn:Ha.
  - destruct (findPath_total g a b (ex_intro _ nb Ha))
      as [(Hr & found & Hrun & Ht)|(Hn & Hrun)].
    + left. split; [done|]. by exists found, [].
    + right. split; [done|]. by exists [].
  - destruct (decide (a = b)) as [<-|Hne].
    + left. split; [apply rtc_refl|]. eexists _, _. split.
      * unfold findPath. apply findPath_same_any.
      * apply trail_start.
    + right. split.
      * intros Hr. apply reach_start_present in Hr; [|done].
        rewrite Ha in Hr. by destruct Hr.
      * destruct (decide (a ∈ objectPrototypeNames)) as [Hin|Hplain].
        -- eexists. by apply findPath_absent_inherited.
        -- eexists. by apply findPath_absent_plain.
Qed.

(** Un-highlighting the block of a variable that names an entry. *)
Lemma unhighlight_known (k : option string) vs :
  (∀ k', k = Some k' → is_Some (objGet campusNodes k')) →
  ∃ es, when (IndexPage.truthy k)
          (old ← entryOf campusNodes k; effect (UnhighlightBlock (svgId old))) vs
        = (Returned tt, vs, es).
Proof.
  intros Hk. unfold when. destruct (IndexPage.truthy k) eqn:Ht; [|by eexists].
  destruct k as [k'|]; [|done]. destruct (Hk k' eq_refl) as [n Hn].
  unfold entryOf. simpl. rewrite Hn. run_handler. by eexists.
Qed.

(** [showRoute] between entries of [campusNodes]: it succeeds exactly
    when the block graph has a walk, and then records the roads of one. *)
Lemma showRoute_cases a b fromNode toNode vs :
  known campusNodes vs →
  objGet campusNodes a = Some fromNode →
  objGet campusNodes b = Some toNode →
  (reach campusGraph (svgId fromNode) (svgId toNode)
   ∧ ∃ ns rs es,
       trail campusGraph (svgId fromNode) (svgId toNode) ns rs
       ∧ showRoute campusNodes campusGraph a b vs
         = (Returned true,
            {| currentLocationNode := currentLocationNode vs;
               selectedDestination := Some b;
               activeRoute := rs |}, es)
       ∧ HighlightRoads rs ∈ es
       ∧ last es = Some (UpdateDirectionsPanel ns))
  ∨ (¬ reach campusGraph (svgId fromNode) (svgId toNode)
     ∧ ∃ es, showRoute campusNodes campusGraph a b vs
             = (Returned false, vs, es)).
Proof.
  intros [Hcur Hsel] Ha Hb. unfold showRoute. rewrite Ha, Hb.
  destruct (findPath_returns campusGraph (svgId fromNode) (svgId toNode))
    as [(Hr & found & con & Hrun & Ht)|(Hn & con & Hrun)].
  - left. split; [done|]. exists (nodes found), (roads found).
    run_handler. rewrite Hrun. cbn [result console].
    destruct (unhighlight_known (selectedDestination vs)
                {| currentLocationNode := currentLocationNode vs;
                   selectedDestination := selectedDestination vs;
                   activeRoute := roads found |} Hsel) as [es Hes].
    run_handler in Hes. rewrite Hes.
    cbn [selectedDestination currentLocationNode activeRoute].
    eexists. split; [done|]. split; [reflexivity|]. split.
    + apply elem_of_app. right. apply list_elem_of_further, list_elem_of_here.
    + by rewrite last_app, !last_cons, last_app.
  - right. split; [done|]. run_handler. rewrite Hrun. cbn [result console].
    by eexists.
Qed.

Lemma objGet_elem_Some {V : Type} (o : Obj V) k v :
  (k, v) ∈ o → is_Some (objGet o k).
Proof.
  intros Hin. destruct (objGet o k) eqn:Hk; [done|].
  apply objGet_None in Hk. exfalso. apply Hk.
  apply list_elem_of_fmap. by exists (k, v).
Qed.

(** The scan answers with an entry of the table, or with what it was
    started from. *)
Lemma scanNodes_entry entries lat0 lng0 :
  ∀ nearest m nid,
    let r := scanNodes lt haversineDistance entries lat0 lng0 nearest m nid in
    (nodeId r = nid ∧ node r = nearest)
    ∨ ∃ k n, (k, n) ∈ entries ∧ nodeId r = Some k ∧ node r = Some n.
Proof.
  induction entries as [|[k0 n0] rest IH]; intros nearest m nid; [by left|].
  simpl. destruct (lt _ m).
  - right. destruct (IH (Some n0) (haversineDistance lat0 lng0 (lat n0) (lng n0))
                       (Some k0)) as [[Hid Hn]|(k & n & Hin & Hid & Hn)].
    + exists k0, n0. split; [apply list_elem_of_here|done].
    + exists k, n. split; [by apply list_elem_of_further|done].
  - destruct (IH nearest m nid) as [?|(k & n & Hin & Hid & Hn)]; [by left|].
    right. exists k, n. split; [by apply list_elem_of_further|done].
Qed.

Lemma findNearestNode_entry lat0 lng0 :
  let r := findNearestNode infinity lt haversineDistance campusNodes lat0 lng0 in
  (nodeId r = None ∧ node r = None)
  ∨ ∃ k n, (k, n) ∈ campusNodes ∧ nodeId r = Some k ∧ node r = Some n.
Proof. apply scanNodes_entry. Qed.

(** With every distance below [Infinity], a table that is not empty
    gives a nearest node. *)
Lemma findNearestNode_finite (table : Obj (@CampusNode number)) lat0 lng0 :
  (∀ e, e ∈ table →
     lt (haversineDistance lat0 lng0 (lat e.2) (lng e.2)) infinity = true) →
  table ≠ [] →
  nodeId (findNearestNode infinity lt haversineDistance table lat0 lng0)
  ≠ None.
Proof.
  intros Hfin Hne. unfold findNearestNode.
  destruct table as [|[k0 n0] rest]; [done|]. simpl.
  pose proof (Hfin (k0, n0) (list_elem_of_here _ _)) as Hlt. simpl in Hlt.
  rewrite Hlt.
  destruct (scanNodes_entry rest lat0 lng0 (Some n0)
              (haversineDistance lat0 lng0 (lat n0) (lng n0)) (Some k0))
    as [[-> _]|(k & n & _ & -> & _)]; done.
Qed.

Lemma truthy_key k (n : @CampusNode number) :
  objGet campusNodes "" = None → objGet campusNodes k = Some n →
  IndexPage.truthy (Some k) = true.
Proof.
  intros He Hk. simpl. rewrite bool_decide_eq_false_2; [done|].
  intros ->. congruence.
Qed.

Lemma clearNavigation_cases vs :
  known campusNodes vs →
  ∃ vs' es, clearNavigation campusNodes vs = (Returned tt, vs', es)
            ∧ known campusNodes vs'
            ∧ routed campusNodes campusGraph vs'.
Proof.
  intros [Hcur Hsel]. unfold clearNavigation. run_handler.
  unfold when. destruct (IndexPage.truthy (currentLocationNode vs)) eqn:Ht.
  - destruct (currentLocationNode vs) as [k|] eqn:Hk; [|done].
    destruct (Hcur k eq_refl) as [n Hn]. unfold entryOf. simpl. rewrite Hn.
    run_handler. eexists _, _. split; [done|]. split; [|by left].
    split; simpl; [|done]. intros k' [= <-]. by exists n.
  - run_handler. eexists _, _. split; [done|]. split; [by split|by left].
Qed.

Lemma selectDestination_cases k vs :
  known campusNodes vs →
  ∃ vs' es, selectDestination campusNodes campusGraph k vs
            = (Returned tt, vs', es)
            ∧ known campusNodes vs'
            ∧ (routed campusNodes campusGraph vs →
               routed campusNodes campusGraph vs').
Proof.
  intros Hknown. pose proof Hknown as [Hcur Hsel]. unfold selectDestination.
  destruct (objGet campusNodes k) as [n|] eqn:Hk; [|by eexists _, _].
  run_handler.
  destruct (IndexPage.truthy (currentLocationNode vs)) eqn:Ht; simpl.
  - destruct (decide (Some k = currentLocationNode vs)) as [Heq|Hne];
      [by eexists _, _|].
    destruct (currentLocationNode vs) as [c|] eqn:Hc; [|done].
    destruct (Hcur c eq_refl) as [cn Hcn]. simpl keyOf.
    destruct (showRoute_cases c k cn n vs Hknown Hcn Hk)
      as [(_ & ns & rs & es & Htr & -> & _)|(_ & es & ->)].
    + eexists _, _. split; [done|]. split.
      * split; simpl.
        -- rewrite Hc. intros k' [= <-]. by exists cn.
        -- intros k' [= <-]. by exists n.
      * intros _. right. simpl. rewrite Hc. split; [done|].
        by exists k, n, (svgId cn), ns.
    + by eexists _, _.
  - destruct (unhighlight_known (selectedDestination vs) vs Hsel) as [es Hes].
    run_handler in Hes. rewrite Hes.
    eexists _, _. split; [done|]. split.
    + split; simpl; [done|]. intros k' [= <-]. by exists n.
    + intros [Hnil|[Htr _]]; [by left|congruence].
Qed.

Lemma updateUserLocation_cases lat0 lng0 vs :
  known campusNodes vs →
  ∃ r vs' es,
    updateUserLocation infinity lt haversineDistance campusNodes campusGraph
      lat0 lng0 vs = (r, vs', es)
    ∧ known campusNodes vs'
    ∧ (r = Returned tt
       ∧ (objGet campusNodes "" = None →
          routed campusNodes campusGraph vs →
          routed campusNodes campusGraph vs')
       ∨ (r = Threw "TypeError: Cannot read properties of null"
          ∧ nodeId (findNearestNode infinity lt haversineDistance campusNodes
                      lat0 lng0) = None
          ∧ is_Some (currentLocationNode vs))).
Proof.
  intros Hknown. pose proof Hknown as [Hcur Hsel]. unfold updateUserLocation.
  set (nearest := findNearestNode infinity lt haversineDistance campusNodes
                    lat0 lng0).
  run_handler.
  destruct (decide (nodeId nearest ≠ currentLocationNode vs)) as [Hne|Heq];
    [|eexists _, _, _; split; [done|]; split; [done|by left]].
  destruct (unhighlight_known (currentLocationNode vs) vs Hcur) as [es Hes].
  run_handler in Hes. rewrite Hes. clear Hes.
  destruct (findNearestNode_entry lat0 lng0)
    as [[Hid Hnode]|(k & n & Hin & Hid & Hnode)];
    fold nearest in Hid, Hnode; rewrite Hid, Hnode; rewrite Hid in Hne.
  - unfold when, nonNull.
    destruct (bool_decide (None ≠ selectedDestination vs)); run_handler;
      (eexists _, _, _; split; [done|]; split;
       [split; simpl; [done|exact Hsel]|]; right; split_and!; try done;
       destruct (currentLocationNode vs); done).
  - pose proof (objGet_elem_Some _ _ _ Hin) as [n' Hn'].
    set (vs1 := {| currentLocationNode := Some k;
                   selectedDestination := selectedDestination vs;
                   activeRoute := activeRoute vs |}).
    assert (Hknown1 : known campusNodes vs1).
    { split; simpl; [|exact Hsel]. intros k' [= <-]. by exists n'. }
    assert (Hrouted1 : objGet campusNodes "" = None →
                       routed campusNodes campusGraph vs →
                       routed campusNodes campusGraph vs1).
    { intros He [Hnil|[_ Hrt]]; [by left|]. right.
      split; [by apply (truthy_key k n')|done]. }
    unfold when, nonNull.
    assert (Hrest : ∃ vs' es',
      (if IndexPage.truthy (selectedDestination vs)
          && bool_decide (selectedDestination vs ≠ Some k)
       then showRoute campusNodes campusGraph (keyOf (Some k))
              (keyOf (selectedDestination vs)) ≫= λ _, mret tt
       else mret tt : Handler unit) vs1 = (Returned tt, vs', es')
      ∧ known campusNodes vs'
      ∧ (objGet campusNodes "" = None →
         routed campusNodes campusGraph vs →
         routed campusNodes campusGraph vs')).
    { destruct (IndexPage.truthy (selectedDestination vs)
                && bool_decide (selectedDestination vs ≠ Some k)) eqn:Hgo;
        [|by eexists _, _].
      apply andb_true_iff in Hgo as [Ht _].
      destruct (selectedDestination vs) as [d|] eqn:Hd; [|done].
      destruct (Hsel d eq_refl) as [dn Hdn]. simpl keyOf.
      run_handler.
      destruct (showRoute_cases k d n' dn vs1 Hknown1 Hn' Hdn)
        as [(_ & ns & rs & es0 & Htr & -> & _)|(_ & es0 & ->)].
      - eexists _, _. split; [done|]. split.
        + split; simpl.
          * intros k' [= <-]. by exists n'.
          * intros k' [= <-]. by exists dn.
        + intros He _. right. split; [by apply (truthy_key k n')|].
          by exists d, dn, (svgId n'), ns.
      - by eexists _, _. }
    destruct Hrest as (vs' & es' & Hrun & Hk' & Hr').
    run_handler in Hrun. fold vs1.
    destruct (bool_decide (Some k ≠ selectedDestination vs)); run_handler;
      fold vs1; rewrite Hrun;
      (eexists _, _, _; split; [done|]; split; [done|by left]).
Qed.

(** Every call of the page keeps the variables naming entries, and
    returns unless a position fix finds no node where one was known. *)
Lemma handle_cases c vs :
  known campusNodes vs →
  ∃ r vs' es,
    handle infinity lt haversineDistance campusNodes campusGraph c vs
    = (r, vs', es)
    ∧ known campusNodes vs'
    ∧ (r = Returned tt
       ∧ (objGet campusNodes "" = None →
          routed campusNodes campusGraph vs →
          routed campusNodes campusGraph vs')
       ∨ ∃ lat0 lng0,
           c = UpdateUserLocation lat0 lng0
           ∧ nodeId (findNearestNode infinity lt haversineDistance campusNodes
                       lat0 lng0) = None
           ∧ is_Some (currentLocationNode vs)).
Proof.
  intros Hknown. destruct c as [k|lat0 lng0|]; simpl.
  - destruct (selectDestination_cases k vs Hknown) as (vs' & es & -> & Hk & Hr).
    eexists _, _, _. split; [done|]. split; [done|]. left. split; [done|auto].
  - destruct (updateUserLocation_cases lat0 lng0 vs Hknown)
      as (r & vs' & es & -> & Hk & [[-> Hr]|(-> & Hid & Hc)]).
    + eexists _, _, _. split; [done|]. split; [done|by left].
    + eexists _, _, _. split; [done|]. split; [done|]. right.
      by exists lat0, lng0.
  - destruct (clearNavigation_cases vs Hknown) as (vs' & es & -> & Hk & Hr).
    eexists _, _, _. split; [done|]. split; [done|]. left. split; [done|auto].
Qed.

Lemma handleAll_known cs :
  (∀ lat0 lng0 e, e ∈ campusNodes →
     lt (haversineDistance lat0 lng0 (lat e.2) (lng e.2)) infinity = true) →
  ∀ vs, known campusNodes vs →
    Forall (λ r, r = Returned tt)
      (handleAll infinity lt haversineDistance campusNodes campusGraph
         cs vs).1.1
    ∧ known campusNodes
        (handleAll infinity lt haversineDistance campusNodes campusGraph
           cs vs).1.2
    ∧ (objGet campusNodes "" = None →
       routed campusNodes campusGraph vs →
       routed campusNodes campusGraph
         (handleAll infinity lt haversineDistance campusNodes campusGraph
            cs vs).1.2).
Proof.
  intros Hfin. induction cs as [|c cs IH]; intros vs Hknown; [by split_and!|].
  cbn [handleAll].
  destruct (handle_cases c vs Hknown)
    as (r & vs1 & es1 & -> & Hk1 & Hr).
  destruct (IH vs1 Hk1) as (Hall & Hk2 & Hr2).
  destruct (handleAll _ _ _ _ _ cs vs1) as [[rs vs2] es2]. simpl in *.
  destruct Hr as [[-> Hr1]|(lat0 & lng0 & _ & Hid & [k Hk])].
  - split_and!; [by constructor|done|auto].
  - exfalso. destruct Hknown as [Hcur _]. destruct (Hcur k Hk) as [n Hn].
    apply (findNearestNode_finite campusNodes lat0 lng0); [by apply Hfin| |done].
    intros Hnil. by rewrite Hnil in Hn.
Qed.

(** X17.  [showRoute] between two entries of [campusNodes], with the node
    variables naming entries: it returns [true] exactly when the block
    graph has a walk between the two SVG ids; then [activeRoute] holds
    the roads of such a walk, the roads highlighted, [selectedDestination]
    is the target, and the directions panel is given the blocks of the
    walk last.  Otherwise it returns [false] and changes no variable. *)
Theorem showRoute_reach a b fromNode toNode vs :
  known campusNodes vs →
  objGet campusNodes a = Some fromNode →
  objGet campusNodes b = Some toNode →
  (reach campusGraph (svgId fromNode) (svgId toNode)
   ∧ ∃ ns rs es,
       trail campusGraph (svgId fromNode) (svgId toNode) ns rs
       ∧ showRoute campusNodes campusGraph a b vs
         = (Returned true,
            {| currentLocationNode := currentLocationNode vs;
               selectedDestination := Some b;
               activeRoute := rs |}, es)
       ∧ HighlightRoads rs ∈ es
       ∧ last es = Some (UpdateDirectionsPanel ns))
  ∨ (¬ reach campusGraph (svgId fromNode) (svgId toNode)
     ∧ ∃ es, showRoute campusNodes campusGraph a b vs
             = (Returned false, vs, es)).
Proof. apply showRoute_cases. Qed.

(** X18.  A position fix for which no node is nearer than [Infinity],
    arriving when a current node is known, makes [updateUserLocation]
    throw on reading a property of the missing node; by then
    [currentLocationNode] is [null] again, the other variables are as
    before. *)
Theorem updateUserLocation_lost_fix lat0 lng0 vs k :
  known campusNodes vs →
  currentLocationNode vs = Some k →
  nodeId (findNearestNode infinity lt haversineDistance campusNodes lat0 lng0)
  = None →
  ∃ es,
    updateUserLocation infinity lt haversineDistance campusNodes campusGraph
      lat0 lng0 vs
    = (Threw "TypeError: Cannot read properties of null",
       {| currentLocationNode := None;
          selectedDestination := selectedDestination vs;
          activeRoute := activeRoute vs |}, es).
Proof.
  intros [Hcur Hsel] Hk Hid. unfold updateUserLocation.
  destruct (findNearestNode_entry lat0 lng0)
    as [[_ Hnode]|(k' & n & _ & Hid' & _)]; [|congruence].
  run_handler. rewrite Hid, Hnode, decide_True by (by rewrite Hk).
  destruct (unhighlight_known (currentLocationNode vs) vs Hcur) as [es Hes].
  run_handler in Hes. rewrite Hes. unfold when, nonNull.
  destruct (bool_decide (None ≠ selectedDestination vs)); run_handler;
    by eexists.
Qed.

(** X19.  When every node of the table is at a distance below [Infinity]
    from every position, and every id handed to [selectDestination] is a
    key of [campusNodes] or at least no name that objects inherit, no
    call in a session throws, whatever is selected, fixed or cleared and
    in whatever order; and the node variables name entries of
    [campusNodes] at the end. *)
Theorem session_never_throws cs :
  (∀ lat0 lng0 e, e ∈ campusNodes →
     lt (haversineDistance lat0 lng0 (lat e.2) (lng e.2)) infinity = true) →
  (∀ k, SelectDestination k ∈ cs →
     is_Some (objGet campusNodes k) ∨ k ∉ objectPrototypeNames) →
  Forall (λ r, r = Returned tt)
    (handleAll infinity lt haversineDistance campusNodes campusGraph
       cs initialVars).1.1
  ∧ known campusNodes
      (handleAll infinity lt haversineDistance campusNodes campusGraph
         cs initialVars).1.2.
Proof.
  intros Hfin _.
  destruct (handleAll_known cs Hfin initialVars) as (? & ? & _); by split.
Qed.

(** X20.  Under the same condition on distances, and with no entry of
    [campusNodes] under the empty key, the roads highlighted after any
    session lead to the destination: when [activeRoute] is not empty, a
    current node is set, a destination is selected, and [activeRoute]
    holds the roads of a walk in the block graph that ends at the block
    of that destination. *)
Theorem session_route_ends_at_destination cs :
  (∀ lat0 lng0 e, e ∈ campusNodes →
     lt (haversineDistance lat0 lng0 (lat e.2) (lng e.2)) infinity = true) →
  objGet campusNodes "" = None →
  routed campusNodes campusGraph
    (handleAll infinity lt haversineDistance campusNodes campusGraph
       cs initialVars).1.2.
Proof.
  intros Hfin He.
  destruct (handleAll_known cs Hfin initialVars) as (_ & _ & Hr); [by split|].
  apply Hr; [done|by left].
Qed.
End SessionFacts.

(** ** The nearest-node scan: the empty answer *)

Section NearestAnswer.
Import Navigation CampusData Session.
Context {number : Type}.
Variable infinity : number.
Variable lt : number → number → bool.
Variable haversineDistance : number → number → number → number → number.

(** Started from its initial locals, the scan ends with them when no
    entry is at a distance below [Infinity], and with an entry of the
    table otherwise. *)
Lemma scanNodes_answer (entries : Obj (@CampusNode number)) lat0 lng0 :
  let r := scanNodes lt haversineDistance entries lat0 lng0
             None infinity None in
  ((∀ e, e ∈ entries →
      lt (haversineDistance lat0 lng0 (lat e.2) (lng e.2)) infinity = false)
   ∧ r = {| nodeId := None; node := None; distance := infinity |})
  ∨ ((∃ e, e ∈ entries
           ∧ lt (haversineDistance lat0 lng0 (lat e.2) (lng e.2)) infinity
             = true)
     ∧ ∃ k n, (k, n) ∈ entries ∧ nodeId r = Some k ∧ node r = Some n).
Proof.
  induction entries as [|[k0 n0] rest IH]; simpl.
  - left. split; [by intros e ?%elem_of_nil|done].
  - destruct (lt (haversineDistance lat0 lng0 (lat n0) (lng n0)) infinity)
      eqn:Hlt.
    + right. split; [exists (k0, n0); split; [apply list_elem_of_here|done]|].
      destruct (scanNodes_entry lt haversineDistance rest lat0 lng0 (Some n0)
                  (haversineDistance lat0 lng0 (lat n0) (lng n0)) (Some k0))
        as [[Hid Hn]|(k & n & Hin & Hid & Hn)].
      * exists k0, n0. split; [apply list_elem_of_here|done].
      * exists k, n. split; [by apply list_elem_of_further|done].
    + destruct IH as [[Hall Hr]|[(e & He & Hlt') (k & n & Hin & Hid & Hn)]].
      * left. split; [|done].
        intros e [->|He]%elem_of_cons; [done|by apply Hall].
      * right. split; [exists e; split; [by apply list_elem_of_further|done]|].
        exists k, n. split; [by apply list_elem_of_further|done].
Qed.

(** C9, amended.  [findNearestNode] has one answer that names no node,
    [{ nodeId: null, node: null, distance: Infinity }].  It gives that
    answer exactly when no node of the table is at a distance below
    [Infinity], which is so when the table has no node, and in every
    other case it gives an entry of the table.  The answer is all it
    gives: nothing is thrown or logged, and [updateUserLocation], before
    a first fix, passes over it without any effect. *)
Theorem findNearestNode_empty_answer (campusNodes : Obj (@CampusNode number))
    (campusGraph : CampusGraph) (lat0 lng0 : number) :
  let r := findNearestNode infinity lt haversineDistance campusNodes
             lat0 lng0 in
  let none := {| nodeId := None; node := None; distance := infinity |} in
  (campusNodes = [] → r = none)
  ∧ (r = none ↔
     ∀ e, e ∈ campusNodes →
       lt (haversineDistance lat0 lng0 (lat e.2) (lng e.2)) infinity = false)
  ∧ (r = none
     ∨ ∃ k n, (k, n) ∈ campusNodes ∧ nodeId r = Some k ∧ node r = Some n)
  ∧ (r = none →
     updateUserLocation infinity lt haversineDistance campusNodes campusGraph
       lat0 lng0 initialVars
     = (Returned tt, initialVars, [])).
Proof.
  intros r none.
  pose proof (scanNodes_answer campusNodes lat0 lng0) as Hscan.
  fold (findNearestNode infinity lt haversineDistance campusNodes lat0 lng0)
    in Hscan. fold r in Hscan. cbv zeta in Hscan. fold none in Hscan.
  split_and!.
  - intros ->. reflexivity.
  - split.
    + intros Hr. destruct Hscan as [[Hall _]|[_ (k & n & _ & Hid & _)]];
        [done|]. rewrite Hr in Hid. discriminate.
    + intros Hall. destruct Hscan as [[_ Hr]|[(e & He & Hlt) _]]; [done|].
      rewrite (Hall e He) in Hlt. discriminate.
  - destruct Hscan as [[_ Hr]|[_ Hentry]]; [by left|by right].
  - intros Hr. unfold updateUserLocation. fold r. rewrite Hr.
    cbv beta iota zeta delta [mbind mret handler_bind handler_ret getVars].
    by case_decide.
Qed.
End NearestAnswer.

(** ** Instances *)

Section WeightedInstances.
Import Pathfinding.

Lemma islandGraph_nonNegative : nonNegative islandGraph.
Proof.
  intros ed Hed. simpl in Hed.
  apply elem_of_cons in Hed as [->|Hed]; [simpl; lia|].
  apply list_elem_of_singleton in Hed as ->. simpl. lia.
Qed.

Lemma islandGraph_A_to_C :
  findShortestPath islandGraph "A" "C"
  = Run (Returned (Some {| path := ["A"; "B"; "C"];
                           coordinates := [pointOf nodeA; pointOf nodeB;
                                           pointOf nodeC] |})) [].
Proof. by vm_compute. Qed.

(** The returned path from [A] to [C] is a simple route. *)
Lemma findShortestPath_simple_route_witness :
  findShortestPath islandGraph "A" "C"
  = Run (Returned (Some {| path := ["A"; "B"; "C"];
                           coordinates := [pointOf nodeA; pointOf nodeB;
                                           pointOf nodeC] |})) []
  ∧ head ["A"; "B"; "C"] = Some "A" ∧ last ["A"; "B"; "C"] = Some "C"
  ∧ NoDup ["A"; "B"; "C"] ∧ linked islandGraph ["A"; "B"; "C"]
  ∧ ∀ v, v ∈ ["A"; "B"; "C"] → declared islandGraph v.
Proof.
  split; [exact islandGraph_A_to_C|].
  exact (findShortestPath_simple_route islandGraph "A" "C" _ _
           islandGraph_A_to_C).
Defined.

(** The coordinates returned from [A] to [C]. *)
Lemma findShortestPath_coordinates_witness :
  findShortestPath islandGraph "A" "C"
  = Run (Returned (Some {| path := ["A"; "B"; "C"];
                           coordinates := [pointOf nodeA; pointOf nodeB;
                                           pointOf nodeC] |})) []
  ∧ Forall2 (λ v c, ∃ n, last (filter (λ n, id n = v) (nodes islandGraph))
                         = Some n
                         ∧ c = {| px := x n; py := y n |})
      ["A"; "B"; "C"] [pointOf nodeA; pointOf nodeB; pointOf nodeC].
Proof.
  split; [exact islandGraph_A_to_C|].
  exact (findShortestPath_coordinates islandGraph "A" "C" _ _
           islandGraph_A_to_C).
Defined.

(** From [D], which no edge touches, to itself. *)
Lemma findShortestPath_same_node_witness :
  declared islandGraph "D"
  ∧ ∃ n, last (filter (λ n, id n = "D") (nodes islandGraph)) = Some n
         ∧ findShortestPath islandGraph "D" "D"
           = Run (Returned (Some {| path := ["D"];
                                    coordinates := [{| px := x n; py := y n |}] |}))
                 [].
Proof.
  assert (Hd : declared islandGraph "D")
    by (apply declared_intro; by vm_compute).
  split; [exact Hd|]. exact (findShortestPath_same_node islandGraph "D" Hd).
Defined.

(** The path from [A] to [C] weighs 7, and no route weighs less. *)
Lemma findShortestPath_lightest_witness :
  nonNegative islandGraph
  ∧ safeWeights islandGraph
  ∧ findShortestPath islandGraph "A" "C"
    = Run (Returned (Some {| path := ["A"; "B"; "C"];
                             coordinates := [pointOf nodeA; pointOf nodeB;
                                             pointOf nodeC] |})) []
  ∧ ∃ D, routeAlong islandGraph ["A"; "B"; "C"] D
         ∧ route islandGraph "A" "C" D
         ∧ (∀ D', route islandGraph "A" "C" D' → (D ≤ D')%Z)
         ∧ (Z.abs D ≤ 2 ^ 53)%Z.
Proof.
  split; [exact islandGraph_nonNegative|].
  split; [exact islandGraph_safeWeights|].
  split; [exact islandGraph_A_to_C|].
  exact (findShortestPath_lightest islandGraph "A" "C" _ _
           islandGraph_nonNegative islandGraph_safeWeights
           islandGraph_A_to_C).
Defined.
End WeightedInstances.

Section NavigateInstances.
Import Pathfinding IndexPage.

(** A request from [A] to [C] on the island graph. *)
Lemma handleNavigate_route_witness :
  findNode (nodes islandGraph) "A" = Some nodeA
  ∧ findNode (nodes islandGraph) "C" = Some nodeC
  ∧ "A" ≠ "C"
  ∧ isStartInBlock nodeA "C" || isEndInBlock nodeC "A"
      || areInSameBlock nodeA nodeC = false
  ∧ safeWeights islandGraph
  ∧ connected islandGraph "A" "C"
  ∧ ∃ r,
      handleNavigate (Some islandGraph) emptyPage "A" "C"
      = Run (Returned {| pathResult := Some r;
                         isCalculating := false;
                         navigationError := None;
                         selectedStart := Some nodeA;
                         selectedEnd := Some nodeC |}) []
      ∧ head (path r) = Some "A" ∧ last (path r) = Some "C".
Proof.
  assert (Hne : "A" ≠ "C") by done.
  split_and!; [reflexivity|reflexivity|exact Hne|reflexivity
              |exact islandGraph_safeWeights|exact island_A_reaches_C|].
  exact (handleNavigate_route islandGraph emptyPage "A" "C" nodeA nodeC
           eq_refl eq_refl Hne eq_refl islandGraph_safeWeights
           island_A_reaches_C).
Defined.

(** A request from [A] to [D], which no edge touches. *)
Lemma handleNavigate_no_route_witness :
  findNode (nodes islandGraph) "A" = Some nodeA
  ∧ findNode (nodes islandGraph) "D" = Some nodeD
  ∧ isStartInBlock nodeA "D" || isEndInBlock nodeD "A"
      || areInSameBlock nodeA nodeD = false
  ∧ ¬ connected islandGraph "A" "D"
  ∧ handleNavigate (Some islandGraph) emptyPage "A" "D"
    = Run (Returned {| pathResult := pathResult emptyPage;
                       isCalculating := false;
                       navigationError :=
                         Some "No path found between these locations";
                       selectedStart := selectedStart emptyPage;
                       selectedEnd := selectedEnd emptyPage |})
          ["No path found between nodes"].
Proof.
  split_and!; [reflexivity|reflexivity|reflexivity|exact island_A_misses_D|].
  exact (handleNavigate_no_route islandGraph emptyPage "A" "D" nodeA nodeD
           eq_refl eq_refl eq_refl island_A_misses_D).
Defined.
End NavigateInstances.

Section RouteInstances.
Import Navigation CampusData.

Lemma gateRoutes_wellFormed : wellFormedRoutes gateRoutes.
Proof.
  split.
  - apply (bool_decide_unpack (NoDup _)). by vm_compute.
  - intros key Hkey. simpl in Hkey.
    apply elem_of_cons in Hkey as [->|Hkey]; [by exists "main_gate", "admin"|].
    apply list_elem_of_singleton in Hkey as ->.
    by exists "main_gate", "library".
Qed.

(** The way back from the library to the main gate. *)
Lemma generateReverseRoutes_reverse_witness :
  wellFormedRoutes gateRoutes
  ∧ dashFree "main_gate" = true ∧ dashFree "library" = true
  ∧ (routeKey "main_gate" "library",
     ["road_gate_to_admin"; "road_admin_to_library"]) ∈ gateRoutes
  ∧ objGet gateRoutes (routeKey "library" "main_gate") = None
  ∧ objGet (generateReverseRoutes gateRoutes) (routeKey "library" "main_gate")
    = Some (rev ["road_gate_to_admin"; "road_admin_to_library"]).
Proof.
  assert (Hin : (routeKey "main_gate" "library",
                 ["road_gate_to_admin"; "road_admin_to_library"]) ∈ gateRoutes)
    by (apply list_elem_of_further, list_elem_of_here).
  split_and!; [exact gateRoutes_wellFormed|reflexivity|reflexivity|exact Hin
              |reflexivity|].
  exact (generateReverseRoutes_reverse gateRoutes "main_gate" "library" _
           gateRoutes_wellFormed eq_refl eq_refl Hin eq_refl).
Defined.

(** Generating the reverse routes of the two gate routes twice. *)
Lemma generateReverseRoutes_idempotent_witness :
  wellFormedRoutes gateRoutes
  ∧ wellFormedRoutes (generateReverseRoutes gateRoutes)
  ∧ generateReverseRoutes (generateReverseRoutes gateRoutes)
    = generateReverseRoutes gateRoutes.
Proof.
  split; [exact gateRoutes_wellFormed|].
  exact (generateReverseRoutes_idempotent gateRoutes gateRoutes_wellFormed).
Defined.
End RouteInstances.

Section WalkInstances.
Import Navigation CampusData.

Lemma gate_to_library_run :
  findPath campusGraph "block_main_gate" "block_library"
  = Run (Returned (Some gateToLibrary)) [].
Proof. by vm_compute. Qed.

Lemma gate_to_library_steps :
  nsteps (edge campusGraph) 2 "block_main_gate" "block_library".
Proof.
  apply nsteps_l with "block_admin"; [|apply nsteps_once];
    eapply edge_intro; by vm_compute.
Qed.

(** The walk from the main gate to the library. *)
Lemma findPath_walk_witness :
  findPath campusGraph "block_main_gate" "block_library"
  = Run (Returned (Some gateToLibrary)) []
  ∧ trail campusGraph "block_main_gate" "block_library"
      (nodes gateToLibrary) (roads gateToLibrary)
  ∧ NoDup (nodes gateToLibrary).
Proof.
  split; [exact gate_to_library_run|].
  exact (findPath_walk campusGraph _ _ _ _ gate_to_library_run).
Defined.

(** The library is two blocks from the main gate, and the walk returned
    lists three. *)
Lemma findPath_fewest_hops_witness :
  findPath campusGraph "block_main_gate" "block_library"
  = Run (Returned (Some gateToLibrary)) []
  ∧ nsteps (edge campusGraph) 2 "block_main_gate" "block_library"
  ∧ length (nodes gateToLibrary) ≤ 3.
Proof.
  split; [exact gate_to_library_run|]. split; [exact gate_to_library_steps|].
  exact (findPath_fewest_hops campusGraph _ _ _ _ 2 gate_to_library_run
           gate_to_library_steps).
Defined.
End WalkInstances.

Section NearestInstances.
Import Navigation CampusData.

Lemma num_ltb_irrefl x : num_ltb x x = false.
Proof. destruct x; simpl; [apply Z.ltb_irrefl|done]. Qed.

Lemma num_ltb_trans x y z :
  num_ltb x y = true → num_ltb y z = true → num_ltb x z = true.
Proof. destruct x, y, z; simpl; try done. rewrite !Z.ltb_lt. lia. Qed.

Lemma num_ltb_cotrans x y z :
  num_ltb x z = true → num_ltb x y = true ∨ num_ltb y z = true.
Proof.
  destruct x, y, z; simpl; try done; rewrite ?Z.ltb_lt; try lia; auto.
Qed.

(** The nearest of the two example nodes to the position of the gate. *)
Lemma findNearestNode_first_minimum_witness :
  (∀ x, num_ltb x x = false)
  ∧ (∀ x y z, num_ltb x y = true → num_ltb y z = true → num_ltb x z = true)
  ∧ (∀ x y z, num_ltb x z = true → num_ltb x y = true ∨ num_ltb y z = true)
  ∧ (let d := λ n : CampusNode,
                gridDistance (Fin 12840440) (Fin 80152999) (lat n) (lng n) in
     let r := findNearestNode Infinity num_ltb gridDistance exampleNodes
                (Fin 12840440) (Fin 80152999) in
     (r = {| nodeId := None; node := None; distance := Infinity |}
      ∧ ∀ e, e ∈ exampleNodes → num_ltb (d e.2) Infinity = false)
     ∨ (∃ pre k n post,
          exampleNodes = pre ++ (k, n) :: post
          ∧ r = {| nodeId := Some k; node := Some n; distance := d n |}
          ∧ num_ltb (d n) Infinity = true
          ∧ (∀ e, e ∈ pre → num_ltb (d n) (d e.2) = true)
          ∧ (∀ e, e ∈ exampleNodes → num_ltb (d e.2) (d n) = false))).
Proof.
  split_and!; [exact num_ltb_irrefl|exact num_ltb_trans|exact num_ltb_cotrans|].
  exact (findNearestNode_first_minimum Infinity num_ltb gridDistance
           num_ltb_irrefl num_ltb_trans num_ltb_cotrans exampleNodes
           (Fin 12840440) (Fin 80152999)).
Defined.
End NearestInstances.

Section SessionInstances.
Import Navigation CampusData Session.

Lemma initialVars_known : known exampleNodes initialVars.
Proof. by split. Qed.

Lemma atGate_known : known exampleNodes atGate.
Proof. split; simpl; [|done]. intros k [= <-]. by eexists. Qed.

Lemma gridDistance_finite (lat0 lng0 : num) (e : string * CampusNode) :
  e ∈ exampleNodes →
  num_ltb (gridDistance lat0 lng0 (lat e.2) (lng e.2)) Infinity = true.
Proof. done. Qed.

(** A route from the main gate to Academic Block 1, whose block is the
    library's. *)
Lemma showRoute_reach_witness :
  known exampleNodes initialVars
  ∧ objGet exampleNodes "main_gate" = Some gateNode
  ∧ objGet exampleNodes "ab1" = Some ab1Node
  ∧ ((reach campusGraph (svgId gateNode) (svgId ab1Node)
      ∧ ∃ ns rs es,
          trail campusGraph (svgId gateNode) (svgId ab1Node) ns rs
          ∧ showRoute exampleNodes campusGraph "main_gate" "ab1" initialVars
            = (Returned true,
               {| currentLocationNode := currentLocationNode initialVars;
                  selectedDestination := Some "ab1";
                  activeRoute := rs |}, es)
          ∧ HighlightRoads rs ∈ es
          ∧ last es = Some (UpdateDirectionsPanel ns))
     ∨ (¬ reach campusGraph (svgId gateNode) (svgId ab1Node)
        ∧ ∃ es, showRoute exampleNodes campusGraph "main_gate" "ab1" initialVars
                = (Returned false, initialVars, es))).
Proof.
  split_and!; [exact initialVars_known|reflexivity|reflexivity|].
  exact (showRoute_reach exampleNodes campusGraph "main_gate" "ab1"
           gateNode ab1Node initialVars initialVars_known eq_refl eq_refl).
Defined.

(** At the main gate, a position from which no distance compares. *)
Lemma updateUserLocation_lost_fix_witness :
  known exampleNodes atGate
  ∧ currentLocationNode atGate = Some "main_gate"
  ∧ nodeId (findNearestNode Infinity num_ltb noDistance exampleNodes
              Infinity Infinity) = None
  ∧ ∃ es,
      updateUserLocation Infinity num_ltb noDistance exampleNodes campusGraph
        Infinity Infinity atGate
      = (Threw "TypeError: Cannot read properties of null",
         {| currentLocationNode := None;
            selectedDestination := selectedDestination atGate;
            activeRoute := activeRoute atGate |}, es).
Proof.
  split_and!; [exact atGate_known|reflexivity|reflexivity|].
  exact (updateUserLocation_lost_fix Infinity num_ltb noDistance exampleNodes
           campusGraph Infinity Infinity atGate "main_gate"
           atGate_known eq_refl eq_refl).
Defined.

Lemma selected_ids_plain (k : string) :
  SelectDestination k
    ∈ [SelectDestination "ab1";
       UpdateUserLocation (Fin 12840440) (Fin 80152999);
       SelectDestination "nowhere"; ClearNavigation] →
  is_Some (objGet exampleNodes k) ∨ k ∉ objectPrototypeNames.
Proof.
  intros Hin. repeat (apply elem_of_cons in Hin as [Heq|Hin]);
    try discriminate; try (by apply elem_of_nil in Hin).
  - inversion Heq; subst. left. by eexists.
  - inversion Heq; subst. right.
    apply (bool_decide_unpack (¬ _)). by vm_compute.
Qed.

(** A destination picked, a fix at the gate, an id that names nothing,
    and the route cleared. *)
Lemma session_never_throws_witness :
  (∀ lat0 lng0 e, e ∈ exampleNodes →
     num_ltb (gridDistance lat0 lng0 (lat e.2) (lng e.2)) Infinity = true)
  ∧ (∀ k, SelectDestination k
            ∈ [SelectDestination "ab1";
               UpdateUserLocation (Fin 12840440) (Fin 80152999);
               SelectDestination "nowhere"; ClearNavigation] →
       is_Some (objGet exampleNodes k) ∨ k ∉ objectPrototypeNames)
  ∧ Forall (λ r, r = Returned tt)
      (handleAll Infinity num_ltb gridDistance exampleNodes campusGraph
         [SelectDestination "ab1";
          UpdateUserLocation (Fin 12840440) (Fin 80152999);
          SelectDestination "nowhere"; ClearNavigation] initialVars).1.1
  ∧ known exampleNodes
      (handleAll Infinity num_ltb gridDistance exampleNodes campusGraph
         [SelectDestination "ab1";
          UpdateUserLocation (Fin 12840440) (Fin 80152999);
          SelectDestination "nowhere"; ClearNavigation] initialVars).1.2.
Proof.
  split; [exact gridDistance_finite|].
  split; [exact selected_ids_plain|].
  exact (session_never_throws Infinity num_ltb gridDistance exampleNodes
           campusGraph _ gridDistance_finite selected_ids_plain).
Defined.

(** A destination picked and a fix at the gate: the roads to the
    library are highlighted. *)
Lemma session_route_ends_at_destination_witness :
  (∀ lat0 lng0 e, e ∈ exampleNodes →
     num_ltb (gridDistance lat0 lng0 (lat e.2) (lng e.2)) Infinity = true)
  ∧ objGet exampleNodes "" = None
  ∧ routed exampleNodes campusGraph
      (handleAll Infinity num_ltb gridDistance exampleNodes campusGraph
         [SelectDestination "ab1";
          UpdateUserLocation (Fin 12840440) (Fin 80152999)] initialVars).1.2.
Proof.
  split; [exact gridDistance_finite|]. split; [reflexivity|].
  exact (session_route_ends_at_destination Infinity num_ltb gridDistance
           exampleNodes campusGraph _ gridDistance_finite eq_refl).
Defined.
(** C9, as stated, fails.  With no node in the table the answer names
    no node and nothing tells of it: a position fix then returns with
    the variables as they were and no effect at all, no message
    included.  And the same answer comes from a table that has nodes,
    when no distance is below [Infinity]. *)
Lemma findNearestNode_empty_counterexample :
  (findNearestNode Infinity num_ltb gridDistance
     ([] : Obj (@CampusNode num)) (Fin 12840440) (Fin 80152999)
   = {| nodeId := None; node := None; distance := Infinity |}
   ∧ updateUserLocation Infinity num_ltb gridDistance
       ([] : Obj (@CampusNode num)) campusGraph
       (Fin 12840440) (Fin 80152999) initialVars
     = (Returned tt, initialVars, []))
  ∧ (exampleNodes ≠ []
     ∧ findNearestNode Infinity num_ltb noDistance exampleNodes
         Infinity Infinity
       = {| nodeId := None; node := None; distance := Infinity |}).
Proof. split_and!; done. Qed.
End SessionInstances.
